(** * SmartCV Job Finder: the job-matching pipeline of [backend/main.py]

    A shallow embedding of the rule-based profile extractor, the keyword
    builder, the provider adapters and the aggregator, with the properties
    the specification states about them.

    Modelling conventions.
    - A Python [str] is a list of characters.  A character is a code point
      of the Latin-1 block (U+0000 to U+00FF), carried by [ascii]; the
      character classes below ([lower], [isspace], the classes of [re])
      are Python's on that block.  There [lower] goes character by
      character; outside the block Python's lowering of a capital sigma
      depends on its neighbours.
    - A Python [int] is a [Z]; a slice [xs[:n]] with [n >= 0] is [take].
    - A Python [set] of strings is a [gset str]; the order in which
      Python iterates over it is not fixed by the language and is an
      explicit parameter wherever the code iterates over one.
    - Regular expressions are run by a small backtracking matcher that
      tries the alternatives in the order of Python's engine.
    - Decoded JSON is a tree of [None], booleans, integers, strings, lists
      and dictionaries, with the dynamic operations the adapters apply to
      it; an operation on a value of the wrong type raises.
    - Code that can raise returns a [result]; what the outside world
      answers (HTTP exchanges, process environment) is an explicit
      argument. *)

From Stdlib Require Import ZArith Ascii String DecimalString.
From stdpp Require Import base tactics option list sorting gmap strings.

Local Open Scope Z_scope.
Local Open Scope nat_scope.

(** ** Strings *)

Definition str := list ascii.

(** A literal of the program. *)
Definition lit (s : string) : str := list_ascii_of_string s.

Definition code (c : ascii) : nat := nat_of_ascii c.

Definition between (lo hi n : nat) : bool := (lo <=? n) && (n <=? hi).

(** [str.isspace] on one character, which is also the class [\s] of [re]. *)
Definition is_space (c : ascii) : bool :=
  let n := code c in
  between 9 13 n || between 28 32 n || (n =? 133) || (n =? 160).

(** The class [\d] of [re]: decimal digits. *)
Definition is_digit (c : ascii) : bool := between 48 57 (code c).

(** Alphabetic characters ([str.isalpha]). *)
Definition is_alpha (c : ascii) : bool :=
  let n := code c in
  between 65 90 n || between 97 122 n || (n =? 170) || (n =? 181) ||
  (n =? 186) || between 192 214 n || between 216 246 n || between 248 255 n.

(** The class [\w] of [re]: alphanumeric characters and the underscore. *)
Definition is_word (c : ascii) : bool :=
  let n := code c in
  is_alpha c || is_digit c || (n =? 95) ||
  (n =? 178) || (n =? 179) || (n =? 185) || between 188 190 n.

Definition is_upper (c : ascii) : bool :=
  let n := code c in
  between 65 90 n || between 192 214 n || between 216 222 n.

Definition lower_char (c : ascii) : ascii :=
  if is_upper c then ascii_of_nat (code c + 32) else c.

(** The capital of a letter that has one inside the block. *)
Definition upper_char (c : ascii) : ascii :=
  let n := code c in
  if between 97 122 n || between 224 246 n || between 248 254 n
  then ascii_of_nat (n - 32) else c.

(** The title-case form of a character.  That of U+00DF is the two
    letters [Ss].  Those of U+00B5 and U+00FF are U+039C and U+0178, which
    are not characters of this model: the two letters are left as they
    are, and no property below rests on the title-case form of a text that
    holds one of them. *)
Definition title_char (c : ascii) : str :=
  if code c =? 223 then lit "Ss" else [upper_char c].

(** [s.lower()] *)
Definition lower (s : str) : str := map lower_char s.

Fixpoint lstrip (s : str) : str :=
  match s with
  | c :: r => if is_space c then lstrip r else s
  | [] => []
  end.

Definition rstrip (s : str) : str := rev (lstrip (rev s)).

(** [s.strip()] *)
Definition strip (s : str) : str := rstrip (lstrip s).

(** Cased characters: on this block, the alphabetic ones. *)
Definition is_cased (c : ascii) : bool := is_alpha c.

(** [s.title()]: a character following a cased one is lower-cased, any
    other character is put in title case. *)
Fixpoint title_from (after_cased : bool) (s : str) : str :=
  match s with
  | [] => []
  | c :: r =>
      (if after_cased then [lower_char c] else title_char c)
        ++ title_from (is_cased c) r
  end.

Definition title_case (s : str) : str := title_from false s.

Fixpoint starts_with (p s : str) : bool :=
  match p, s with
  | [], _ => true
  | a :: p', b :: s' => bool_decide (a = b) && starts_with p' s'
  | _ :: _, [] => false
  end.

(** [needle in hay] *)
Fixpoint contains (needle hay : str) : bool :=
  starts_with needle hay ||
  match hay with
  | [] => false
  | _ :: hay' => contains needle hay'
  end.

(** [sep.join(parts)] *)
Fixpoint join (sep : str) (parts : list str) : str :=
  match parts with
  | [] => []
  | [p] => p
  | p :: rest => p ++ sep ++ join sep rest
  end.

(** Truthiness of a string, and [a or b] on strings. *)
Definition nonempty (s : str) : bool :=
  match s with [] => false | _ => true end.

Definition str_or (a b : str) : str := if nonempty a then a else b.

(** [int(s)] on a string of decimal digits. *)
Definition digit_value (c : ascii) : Z := Z.of_nat (code c - 48).

Definition int_of_digits (s : str) : Z :=
  foldl (fun acc c => (acc * 10 + digit_value c)%Z) 0%Z s.

(** [str(n)] for an integer. *)
Definition str_of_int (n : Z) : str :=
  list_ascii_of_string (NilEmpty.string_of_int (Z.to_int n)).

(** The order of [sorted] on strings: lexicographic on code points, a
    proper prefix coming first. *)
Fixpoint str_leb (a b : str) : bool :=
  match a, b with
  | [], _ => true
  | _ :: _, [] => false
  | x :: a', y :: b' =>
      (code x <? code y) || ((code x =? code y) && str_leb a' b')
  end.

Definition str_le (a b : str) : Prop := str_leb a b = true.

Definition str_lt (a b : str) : Prop := str_le a b ∧ a ≠ b.

Global Instance str_le_dec : RelDecision str_le.
Proof. intros a b. unfold str_le. apply _. Defined.

(** [sorted(xs)] for a list of strings. *)
Definition sorted (xs : list str) : list str := merge_sort str_le xs.

(** ** A backtracking matcher for the patterns of the program

    The program uses five regular expressions.  Each is a sequence of
    atoms: literal text, a greedy bounded repetition of a character class,
    an alternation of literal texts, the capturing group and the word
    boundary.  [step] lists the ways one atom can match at a position in
    the order Python's engine tries them (a greedy repetition starts with
    the most characters), so that the first element of [run] is the match
    the engine reports. *)

Inductive atom :=
  | Lit (s : str)
  | Rep (p : ascii → bool) (lo : nat) (hi : option nat)
  | Alt (alts : list str)
  | Group (a : atom)
  | WordBoundary.

Record mstate := MState {
  m_prev : option ascii;   (* the character before the position *)
  m_rest : str;            (* the text from the position on *)
  m_len : nat;             (* characters consumed since the match start *)
  m_group : str            (* text of capturing group 1 *)
}.

Definition advance (st : mstate) (k : nat) : mstate :=
  {| m_prev := match last (take k (m_rest st)) with
               | Some c => Some c
               | None => m_prev st
               end;
     m_rest := drop k (m_rest st);
     m_len := m_len st + k;
     m_group := m_group st |}.

(** Length of the longest prefix of [s] in class [p], at most [hi]. *)
Fixpoint span (p : ascii → bool) (hi : option nat) (s : str) : nat :=
  match hi, s with
  | Some 0, _ => 0
  | _, [] => 0
  | _, c :: r => if p c then S (span p (pred <$> hi) r) else 0
  end.

Definition word_before (st : mstate) : bool :=
  match m_prev st with Some c => is_word c | None => false end.

Definition word_after (st : mstate) : bool :=
  match m_rest st with c :: _ => is_word c | [] => false end.

Definition step_lit (s : str) (st : mstate) : list mstate :=
  if starts_with s (m_rest st) then [advance st (length s)] else [].

Fixpoint step (a : atom) (st : mstate) : list mstate :=
  match a with
  | Lit s => step_lit s st
  | Rep p lo hi =>
      let k := span p hi (m_rest st) in
      if lo <=? k then map (advance st) (rev (seq lo (S k - lo))) else []
  | Alt alts => flat_map (fun s => step_lit s st) alts
  | Group a' =>
      map (fun st' =>
             {| m_prev := m_prev st'; m_rest := m_rest st';
                m_len := m_len st';
                m_group := take (m_len st' - m_len st) (m_rest st) |})
          (step a' st)
  | WordBoundary =>
      if xorb (word_before st) (word_after st) then [st] else []
  end.

Fixpoint run (re : list atom) (st : mstate) : list mstate :=
  match re with
  | [] => [st]
  | a :: re' => flat_map (run re') (step a st)
  end.

(** The match of [re] that starts exactly at the position, if any. *)
Definition match_at (re : list atom) (prev : option ascii) (s : str)
  : option mstate :=
  head (run re (MState prev s 0 [])).

(** Left-to-right scan for non-overlapping matches, as [re.finditer],
    [re.sub] and [re.split] do it.  [skip] counts the characters still
    covered by the last match.  None of the program's patterns matches the
    empty string, so a match always covers at least one character. *)
Inductive token :=
  | Gap (c : ascii)
  | Hit (m : mstate).

Fixpoint scan (re : list atom) (skip : nat) (prev : option ascii) (s : str)
  : list token :=
  match s with
  | [] => []
  | c :: s' =>
      match skip with
      | S k => scan re k (Some c) s'
      | O =>
          match match_at re prev s with
          | Some m => Hit m :: scan re (m_len m - 1) (Some c) s'
          | None => Gap c :: scan re 0 (Some c) s'
          end
      end
  end.

(** The matches among the tokens of a scan. *)
Definition hits (ts : list token) : list mstate :=
  omap (fun t => match t with Hit m => Some m | Gap _ => None end) ts.

(** [re.finditer(re, s)] *)
Definition finditer (re : list atom) (s : str) : list mstate :=
  hits (scan re 0 None s).

(** [re.sub(re, repl, s)] for a replacement without back-references. *)
Definition re_sub (re : list atom) (repl : str) (s : str) : str :=
  flat_map (fun t => match t with Hit _ => repl | Gap c => [c] end)
           (scan re 0 None s).

(** [re.split(re, s)] *)
Fixpoint split_tokens (cur : str) (ts : list token) : list str :=
  match ts with
  | [] => [cur]
  | Gap c :: ts' => split_tokens (cur ++ [c]) ts'
  | Hit _ :: ts' => cur :: split_tokens [] ts'
  end.

Definition re_split (re : list atom) (s : str) : list str :=
  split_tokens [] (scan re 0 None s).

Definition is_char (c : ascii) : ascii → bool := fun x => bool_decide (x = c).

Definition any_space : atom := Rep is_space 0 None.

(** [(\d{1,2})\s*\+?\s*(?:years|yrs)\b] *)
Definition RE_YEARS : list atom :=
  [ Group (Rep is_digit 1 (Some 2)); any_space; Rep (is_char "+") 0 (Some 1);
    any_space; Alt [lit "years"; lit "yrs"]; WordBoundary ].

(** [<\s*br\s*/?>] with [re.I] *)
Definition RE_BR : list atom :=
  [ Lit (lit "<"); any_space;
    Rep (fun c => bool_decide (lower_char c = "b"%char)) 1 (Some 1);
    Rep (fun c => bool_decide (lower_char c = "r"%char)) 1 (Some 1);
    any_space; Rep (is_char "/") 0 (Some 1); Lit (lit ">") ].

(** [<[^>]+>] *)
Definition RE_TAG : list atom :=
  [ Lit (lit "<"); Rep (fun c => negb (is_char ">" c)) 1 None; Lit (lit ">") ].

Definition newline : ascii := "010"%char.

(** [\n{3,}] *)
Definition RE_BLANK_LINES : list atom := [ Rep (is_char newline) 3 None ].

(** [\s+] *)
Definition RE_SPACES : list atom := [ Rep is_space 1 None ].

(** ** The data model *)

(** [AnalysisResult] *)
Record AnalysisResult := {
  job_titles : list str;
  skills : list str;
  experience_level : str;
  recommended_job_types : list str;
  summary : option str
}.

(** [JobItem] *)
Record JobItem := {
  title : str;
  company : str;
  location : str;
  description : str;
  apply_link : str;
  source : option str
}.

(** ** The lexicon *)

Definition COMMON_SKILLS : list str :=
  [ lit "python"; lit "java"; lit "javascript"; lit "typescript"; lit "c++";
    lit "c#"; lit "php"; lit "ruby"; lit "go"; lit "rust"; lit "sql";
    lit "react"; lit "vue"; lit "angular"; lit "node.js"; lit "django";
    lit "flask"; lit "fastapi"; lit "spring"; lit "laravel";
    lit "pandas"; lit "numpy"; lit "scikit-learn"; lit "tensorflow";
    lit "pytorch"; lit "nlp"; lit "computer vision";
    lit "docker"; lit "kubernetes"; lit "aws"; lit "azure"; lit "gcp";
    lit "ci/cd"; lit "git";
    lit "excel"; lit "power bi"; lit "tableau"; lit "linux"; lit "bash" ].

Definition COMMON_JOB_TITLES : list str :=
  [ lit "software engineer"; lit "backend developer";
    lit "frontend developer"; lit "full stack developer";
    lit "data analyst"; lit "data scientist";
    lit "machine learning engineer"; lit "devops engineer";
    lit "product manager"; lit "project manager"; lit "ui/ux designer";
    lit "qa engineer"; lit "cybersecurity analyst" ].

(** ** The rule-based extractor *)

(** The set [{s for s in lexicon if s.lower() in text}]. *)
Definition lexicon_hits (lexicon : list str) (text : str) : gset str :=
  list_to_set (List.filter (fun s => contains (lower s) text) lexicon).

(** The list [years] filled by the loop over [re.finditer]. *)
Definition years_found (text : str) : list Z :=
  map (fun m => int_of_digits (m_group m)) (finditer RE_YEARS text).

(** [max(years) if years else 0] *)
Definition max_years (text : str) : Z :=
  match years_found text with
  | [] => 0%Z
  | y :: ys => foldl Z.max y ys
  end.

Definition level_of (text : str) : str :=
  let m := max_years text in
  if contains (lit "intern") text || contains (lit "student") text
  then lit "student"
  else if (8 <=? m)%Z then lit "senior"
  else if (3 <=? m)%Z then lit "mid"
  else if (0 <? m)%Z then lit "junior"
  else lit "unknown".

Definition mentions_any (keys : list str) (text : str) : bool :=
  existsb (fun k => contains k text) keys.

Definition job_types_of (text : str) : list str :=
  (if mentions_any [lit "remote"; lit "work from home"; lit "wfh"] text
   then [lit "remote"] else []) ++
  (if mentions_any [lit "part-time"; lit "part time"] text
   then [lit "part-time"] else []) ++
  (if mentions_any [lit "full-time"; lit "full time"] text
   then [lit "full-time"] else []).

Definition summary_of (cv_text : str) : str :=
  lit "Rule-based analysis (no API key). " ++
  take 220 (strip cv_text) ++
  (if 220 <? length (strip cv_text) then lit "..." else []).

(** [analyze_cv_rule_based].  [order] is the order in which Python
    iterates over a set when [sorted] reads it. *)
Definition analyze_cv_rule_based (order : gset str → list str) (cv_text : str)
  : AnalysisResult :=
  let text := lower (str_or cv_text []) in
  let skills := sorted (order (lexicon_hits COMMON_SKILLS text)) in
  let job_titles := sorted (order (lexicon_hits COMMON_JOB_TITLES text)) in
  let recommended_job_types := job_types_of text in
  {| job_titles := job_titles;
     skills := skills;
     experience_level := level_of text;
     recommended_job_types :=
       match recommended_job_types with
       | [] => [lit "any"]
       | _ => recommended_job_types
       end;
     summary := Some (summary_of cv_text) |}.

(** An iteration order is admissible when it lists the elements of the set,
    each once. *)
Definition set_order (order : gset str → list str) : Prop :=
  ∀ X : gset str, order X ≡ₚ elements X.

(** ** The keyword builder *)

Fixpoint keywords_loop (parts : list str) (seen : gset str) (out : list str)
  : list str :=
  match parts with
  | [] => out
  | p :: rest =>
      let p := strip (str_or p []) in
      if nonempty p then
        let k := lower p in
        if decide (k ∈ seen) then keywords_loop rest seen out
        else keywords_loop rest ({[k]} ∪ seen) (out ++ [p])
      else keywords_loop rest seen out
  end.

(** The list [parts]; the guards [if analysis.job_titles:] and the like
    only skip empty lists. *)
Definition keyword_parts (analysis : AnalysisResult) : list str :=
  take 3 (job_titles analysis) ++ take 5 (skills analysis) ++
  take 2 (recommended_job_types analysis).

(** [build_keywords_from_analysis] *)
Definition build_keywords_from_analysis (analysis : AnalysisResult) : str :=
  let out := keywords_loop (keyword_parts analysis) ∅ [] in
  str_or (take 120 (join (lit " ") out)) (lit "software developer").

(** ** Text helpers of the adapters *)

(** [_strip_html] *)
Definition _strip_html (s : str) : str :=
  if nonempty s then
    let s := re_sub RE_BR [newline] s in
    let s := re_sub RE_TAG [] s in
    let s := re_sub RE_BLANK_LINES [newline; newline] s in
    strip s
  else [].

(** [_keyword_match] *)
Definition _keyword_match (keywords hay : str) : bool :=
  if nonempty keywords then
    let hay_l := lower (str_or hay []) in
    let tokens := List.filter nonempty (re_split RE_SPACES (lower keywords)) in
    existsb (fun t => contains t hay_l) tokens
  else true.

(** ** Deduplication *)

(** The identity key computed in the loop of [_dedupe_jobs]. *)
Definition job_key (j : JobItem) : str :=
  str_or (lower (strip (str_or (apply_link j) [])))
         (lower (title j ++ lit "|" ++ company j)).

Fixpoint dedupe_loop (jobs : list JobItem) (limit : Z) (seen : gset str)
    (out : list JobItem) : list JobItem :=
  match jobs with
  | [] => out
  | j :: rest =>
      let key := job_key j in
      if decide (key ∈ seen) then dedupe_loop rest limit seen out
      else
        let out' := out ++ [j] in
        if (limit <=? Z.of_nat (length out'))%Z then out'
        else dedupe_loop rest limit ({[key]} ∪ seen) out'
  end.

(** [_dedupe_jobs] *)
Definition _dedupe_jobs (jobs : list JobItem) (limit : Z) : list JobItem :=
  dedupe_loop jobs limit ∅ [].

(** ** Exceptions *)

Inductive exn :=
  | HTTPException (status : Z) (detail : str)
  | AttributeError
  | TypeError
  | ValidationError.

Inductive result (A : Type) :=
  | Ok (a : A)
  | Raise (e : exn).
Arguments Ok {A} a.
Arguments Raise {A} e.

Global Instance result_ret : MRet result := fun A a => Ok a.
Global Instance result_bind : MBind result := fun A B f m =>
  match m with
  | Ok a => f a
  | Raise e => Raise e
  end.

Global Instance result_fmap : FMap result := fun A B f m =>
  match m with
  | Ok a => Ok (f a)
  | Raise e => Raise e
  end.

(** ** Decoded JSON and the dynamic operations on it

    What [response.json()] and [json.loads] return: [None], booleans,
    integers, strings, lists and dictionaries (in insertion order, with
    distinct keys).  Numbers are integers in this model. *)

Local Unset Elimination Schemes.
Inductive json :=
  | JNull
  | JBool (b : bool)
  | JInt (n : Z)
  | JStr (s : str)
  | JList (l : list json)
  | JDict (kv : list (str * json)).
Local Set Elimination Schemes.

(** Truthiness, [a or b]. *)
Definition truthy (v : json) : bool :=
  match v with
  | JNull => false
  | JBool b => b
  | JInt n => negb (n =? 0)%Z
  | JStr s => nonempty s
  | JList l => match l with [] => false | _ => true end
  | JDict kv => match kv with [] => false | _ => true end
  end.

Definition py_or (a b : json) : json := if truthy a then a else b.

Fixpoint dict_lookup (kv : list (str * json)) (k : str) : option json :=
  match kv with
  | [] => None
  | (k', v) :: kv' => if decide (k' = k) then Some v else dict_lookup kv' k
  end.

Definition dict_get (kv : list (str * json)) (k : str) (default : json)
  : json :=
  match dict_lookup kv k with
  | Some v => v
  | None => default
  end.

(** [v.get(k, default)]: only dictionaries have the method. *)
Definition py_get_default (v : json) (k : str) (default : json)
  : result json :=
  match v with
  | JDict kv => Ok (dict_get kv k default)
  | _ => Raise AttributeError
  end.

(** [v.get(k)] *)
Definition py_get (v : json) (k : str) : result json :=
  py_get_default v k JNull.

(** The items a [for] loop over [v] visits. *)
Definition py_iter (v : json) : result (list json) :=
  match v with
  | JList l => Ok l
  | JDict kv => Ok (map (fun e => JStr (fst e)) kv)
  | JStr s => Ok (map (fun c => JStr [c]) s)
  | _ => Raise TypeError
  end.

(** [v[:n]] for a non-negative [n]: strings and lists can be sliced. *)
Definition py_slice_to (n : nat) (v : json) : result json :=
  match v with
  | JStr s => Ok (JStr (take n s))
  | JList l => Ok (JList (take n l))
  | _ => Raise TypeError
  end.

Definition quote1 : ascii := "039"%char.
Definition quote2 : ascii := "034"%char.
Definition backslash : ascii := "092"%char.

Definition hex_digit (n : nat) : ascii :=
  nth n (lit "0123456789abcdef") "0"%char.

(** One character inside [repr(s)]. *)
Definition repr_char (quote c : ascii) : str :=
  let n := code c in
  if bool_decide (c = quote) || bool_decide (c = backslash)
  then [backslash; c]
  else if n =? 9 then [backslash; "t"%char]
  else if n =? 10 then [backslash; "n"%char]
  else if n =? 13 then [backslash; "r"%char]
  else if (n <? 32) || (n =? 127) || between 128 160 n || (n =? 173)
  then [backslash; "x"%char; hex_digit (n / 16); hex_digit (n mod 16)]
  else [c].

(** [repr(s)] for a string. *)
Definition repr_str (s : str) : str :=
  let quote :=
    if bool_decide (quote1 ∈ s) && negb (bool_decide (quote2 ∈ s))
    then quote2 else quote1 in
  [quote] ++ flat_map (repr_char quote) s ++ [quote].

(** [repr(v)] *)
Fixpoint py_repr (v : json) : str :=
  match v with
  | JNull => lit "None"
  | JBool true => lit "True"
  | JBool false => lit "False"
  | JInt n => str_of_int n
  | JStr s => repr_str s
  | JList l => lit "[" ++ join (lit ", ") (map py_repr l) ++ lit "]"
  | JDict kv =>
      lit "{" ++
      join (lit ", ")
           (map (fun e => repr_str (fst e) ++ lit ": " ++ py_repr (snd e)) kv)
      ++ lit "}"
  end.

(** [str(v)], which is also how an f-string renders [v]. *)
Definition py_str (v : json) : str :=
  match v with
  | JStr s => s
  | _ => py_repr v
  end.

(** Validation of a [str] field of a pydantic model: a string is taken as
    it is, any other value is refused. *)
Definition as_str (v : json) : result str :=
  match v with
  | JStr s => Ok s
  | _ => Raise ValidationError
  end.

(** Validation of a [List[str]] field. *)
Fixpoint as_strs (l : list json) : result (list str) :=
  match l with
  | [] => Ok []
  | v :: l' => s ← as_str v; r ← as_strs l'; Ok (s :: r)
  end.

Definition as_str_list (v : json) : result (list str) :=
  match v with
  | JList l => as_strs l
  | _ => Raise ValidationError
  end.

(** The constructor call [JobItem(title=..., ..., source=src)]. *)
Definition make_job (title company location description apply_link : json)
    (src : str) : result JobItem :=
  t ← as_str title;
  c ← as_str company;
  l ← as_str location;
  d ← as_str description;
  a ← as_str apply_link;
  Ok {| title := t; company := c; location := l; description := d;
        apply_link := a; source := Some src |}.

(** ** The environment *)

(** Module-level settings read from the process environment. *)
Record Config := {
  HF_TOKEN : option str;
  ADZUNA_APP_ID : option str;
  ADZUNA_APP_KEY : option str;
  ADZUNA_COUNTRY : str;
  DEFAULT_JOB_LOCATION : str
}.

(** Outcome of one guarded HTTP exchange ([requests.get] or [post],
    [raise_for_status], [json()]): any exception, or the decoded body. *)
Inductive fetch :=
  | Failed
  | Payload (body : json).

(** What the outside answers during one request.  [hf_decoded] is what
    [json.loads] makes of the generated text, [None] when it raises. *)
Record World := {
  hf_response : fetch;
  hf_decoded : option json;
  remotive_response : fetch;
  remoteok_com_response : fetch;
  remoteok_io_response : fetch;
  arbeitnow_response : fetch;
  adzuna_response : fetch
}.

Definition configured (v : option str) : bool :=
  match v with Some s => nonempty s | None => false end.

Definition opt_json (v : option str) : json :=
  match v with Some s => JStr s | None => JNull end.

(** ** The provider adapters *)

(** The test [len(results) >= limit] that ends an adapter's loop. *)
Definition reached {A} (limit : Z) (results : list A) : bool :=
  (limit <=? Z.of_nat (length results))%Z.

(** [_strip_html(v or "")] on a decoded value: [re.sub] accepts only
    strings. *)
Definition strip_html_of (v : json) : result str :=
  match py_or v (JStr []) with
  | JStr s => Ok (_strip_html s)
  | _ => Raise TypeError
  end.

(** [" ".join(tags) if isinstance(tags, list) else str(tags)] *)
Definition tag_text (tags : json) : result str :=
  match tags with
  | JList l =>
      match as_strs l with
      | Ok ss => Ok (join (lit " ") ss)
      | Raise _ => Raise TypeError
      end
  | _ => Ok (py_str tags)
  end.

(** One record of the Adzuna payload. *)
Definition adzuna_item (cfg : Config) (location : option str) (item : json)
  : result JobItem :=
  t ← py_get item (lit "title");
  let title := py_or t (JStr (lit "Unknown Role")) in
  c ← py_get item (lit "company");
  cn ← py_get (py_or c (JDict [])) (lit "display_name");
  let company := py_or cn (JStr (lit "Unknown Company")) in
  l ← py_get item (lit "location");
  ln ← py_get (py_or l (JDict [])) (lit "display_name");
  let loc :=
    py_or ln (py_or (opt_json location) (JStr (DEFAULT_JOB_LOCATION cfg))) in
  d ← py_get item (lit "description");
  desc ← (if truthy d then py_slice_to 400 d else Ok (JStr []));
  u ← py_get item (lit "redirect_url");
  let link := py_or u (JStr []) in
  make_job title company loc desc link (lit "Adzuna").

(** [search_jobs_adzuna] *)
Definition search_jobs_adzuna (cfg : Config) (w : World) (keywords : str)
    (location : option str) (limit : Z) : result (list JobItem) :=
  if negb (configured (ADZUNA_APP_ID cfg) && configured (ADZUNA_APP_KEY cfg))
  then Ok []
  else
    match adzuna_response w with
    | Failed => Ok []
    | Payload payload =>
        rs ← py_get_default payload (lit "results") (JList []);
        items ← py_iter rs;
        mapM (adzuna_item cfg location) items
    end.

Fixpoint remotive_loop (keywords : str) (limit : Z) (items : list json)
    (results : list JobItem) : result (list JobItem) :=
  match items with
  | [] => Ok results
  | item :: rest =>
      t ← py_get item (lit "title");
      let title := py_or t (JStr (lit "Unknown Role")) in
      c ← py_get item (lit "company_name");
      let company := py_or c (JStr (lit "Unknown Company")) in
      l ← py_get item (lit "candidate_required_location");
      let loc := py_or l (JStr (lit "Remote")) in
      d ← py_get item (lit "description");
      desc ← strip_html_of d;
      u ← py_get item (lit "url");
      let link := py_or u (JStr []) in
      let hay := py_str title ++ lit " " ++ py_str company ++ lit " " ++
                 desc ++ lit " " ++ py_str loc in
      if negb (_keyword_match keywords hay)
      then remotive_loop keywords limit rest results
      else
        j ← make_job title company loc (JStr (take 400 desc)) link
                     (lit "Remotive");
        let results := results ++ [j] in
        if reached limit results then Ok results
        else remotive_loop keywords limit rest results
  end.

(** [search_jobs_remotive] *)
Definition search_jobs_remotive (w : World) (keywords : str) (limit : Z)
  : result (list JobItem) :=
  match remotive_response w with
  | Failed => Ok []
  | Payload payload =>
      js ← py_get_default payload (lit "jobs") (JList []);
      items ← py_iter (py_or js (JList []));
      remotive_loop keywords limit items []
  end.

Fixpoint remoteok_loop (keywords : str) (limit : Z) (items : list json)
    (results : list JobItem) : result (list JobItem) :=
  match items with
  | [] => Ok results
  | JDict kv :: rest =>
      let item := JDict kv in
      p ← py_get item (lit "position");
      t ← py_get item (lit "title");
      let title := py_or p (py_or t (JStr (lit "Unknown Role"))) in
      c ← py_get item (lit "company");
      let company := py_or c (JStr (lit "Unknown Company")) in
      l ← py_get item (lit "location");
      let loc := py_or l (JStr (lit "Remote")) in
      d ← py_get item (lit "description");
      desc ← strip_html_of d;
      u ← py_get item (lit "url");
      let link := py_or u (JStr []) in
      g ← py_get item (lit "tags");
      tag_str ← tag_text (py_or g (JList []));
      let hay := py_str title ++ lit " " ++ py_str company ++ lit " " ++
                 py_str loc ++ lit " " ++ tag_str ++ lit " " ++ desc in
      if negb (_keyword_match keywords hay)
      then remoteok_loop keywords limit rest results
      else
        j ← make_job title company loc (JStr (take 400 desc)) link
                     (lit "Remote OK");
        let results := results ++ [j] in
        if reached limit results then Ok results
        else remoteok_loop keywords limit rest results
  | _ :: rest => remoteok_loop keywords limit rest results
  end.

(** [search_jobs_remoteok]: the second address is tried when the first
    exchange fails; the first element of the feed is skipped. *)
Definition search_jobs_remoteok (w : World) (keywords : str) (limit : Z)
  : result (list JobItem) :=
  let payload :=
    match remoteok_com_response w with
    | Payload p => Some p
    | Failed =>
        match remoteok_io_response w with
        | Payload p => Some p
        | Failed => None
        end
    end in
  match payload with
  | Some (JList l) => remoteok_loop keywords limit (drop 1 l) []
  | _ => Ok []
  end.

Fixpoint arbeitnow_loop (cfg : Config) (keywords : str) (limit : Z)
    (items : list json) (results : list JobItem) : result (list JobItem) :=
  match items with
  | [] => Ok results
  | JDict kv :: rest =>
      let item := JDict kv in
      t ← py_get item (lit "title");
      let title := py_or t (JStr (lit "Unknown Role")) in
      c ← py_get item (lit "company_name");
      let company := py_or c (JStr (lit "Unknown Company")) in
      l ← py_get item (lit "location");
      let loc := py_or l (JStr []) in
      d ← py_get item (lit "description");
      desc ← strip_html_of d;
      u ← py_get item (lit "url");
      let link := py_or u (JStr []) in
      g ← py_get item (lit "tags");
      tag_str ← tag_text (py_or g (JList []));
      let hay := py_str title ++ lit " " ++ py_str company ++ lit " " ++
                 py_str loc ++ lit " " ++ tag_str ++ lit " " ++ desc in
      if negb (_keyword_match keywords hay)
      then arbeitnow_loop cfg keywords limit rest results
      else
        j ← make_job title company
                     (py_or loc (JStr (DEFAULT_JOB_LOCATION cfg)))
                     (JStr (take 400 desc)) link (lit "Arbeitnow");
        let results := results ++ [j] in
        if reached limit results then Ok results
        else arbeitnow_loop cfg keywords limit rest results
  | _ :: rest => arbeitnow_loop cfg keywords limit rest results
  end.

(** [search_jobs_arbeitnow] *)
Definition search_jobs_arbeitnow (cfg : Config) (w : World) (keywords : str)
    (limit : Z) : result (list JobItem) :=
  match arbeitnow_response w with
  | Failed => Ok []
  | Payload (JDict kv) =>
      match dict_get kv (lit "data") JNull with
      | JList data => arbeitnow_loop cfg keywords limit data []
      | _ => Ok []
      end
  | Payload _ => Ok []
  end.

(** ** The aggregator *)

(** [FindJobsRequest] *)
Record FindJobsRequest := {
  req_analysis : AnalysisResult;
  req_location : option str;
  req_limit : Z
}.

Definition first_or (l : list str) (default : str) : str :=
  match l with
  | x :: _ => str_or x default
  | [] => default
  end.

Definition base_jobs (analysis : AnalysisResult) (location : str)
  : list JobItem :=
  let primary_title :=
    first_or (job_titles analysis) (lit "Software Engineer") in
  let primary_type :=
    first_or (recommended_job_types analysis) primary_title in
  [ {| title := primary_title ++ lit " (" ++
                title_case (experience_level analysis) ++ lit " Level)";
       company := lit "SmartCV Labs";
       location := location;
       description :=
         lit "Leverage your skills in a modern engineering environment.";
       apply_link := lit "https://example.com/jobs/smartcv-labs";
       source := Some (lit "Mocked") |};
    {| title := primary_type ++ lit " - Remote Friendly";
       company := lit "FutureWork Global";
       location := location;
       description :=
         lit "Join a distributed team solving real-world problems.";
       apply_link := lit "https://example.com/jobs/futurework-global";
       source := Some (lit "Mocked") |} ].

(** [mocked_jobs] *)
Definition mocked_jobs (analysis : AnalysisResult) (location : str)
    (limit : Z) : list JobItem :=
  let base := base_jobs analysis location in
  take (Z.to_nat (Z.max 1 (Z.min limit (Z.of_nat (length base))))) base.

(** [max(1, min(request.limit, 50))] *)
Definition clamp_limit (limit : Z) : Z := Z.max 1 (Z.min limit 50).

Definition location_or_default (cfg : Config) (location : option str) : str :=
  match location with
  | Some l => str_or l (DEFAULT_JOB_LOCATION cfg)
  | None => DEFAULT_JOB_LOCATION cfg
  end.

(** [find_jobs]; the value is the [jobs] field of the response. *)
Definition find_jobs (cfg : Config) (w : World) (request : FindJobsRequest)
  : result (list JobItem) :=
  let analysis := req_analysis request in
  let location := location_or_default cfg (req_location request) in
  let limit := clamp_limit (req_limit request) in
  let keywords := build_keywords_from_analysis analysis in
  r1 ← search_jobs_remotive w keywords limit;
  r2 ← search_jobs_remoteok w keywords limit;
  r3 ← search_jobs_arbeitnow cfg w keywords limit;
  r4 ← search_jobs_adzuna cfg w keywords (Some location) limit;
  let collected := r1 ++ r2 ++ r3 ++ r4 in
  let jobs := _dedupe_jobs collected limit in
  match jobs with
  | [] => Ok (mocked_jobs analysis location limit)
  | _ => Ok jobs
  end.

(** ** The analysis entry point *)

(** The value of [text_out] after the guarded call of the external
    service: the generated text of the first element of a list response,
    the rendering of any other response, the empty string on any failure. *)
Definition hf_text_out (w : World) : json :=
  match hf_response w with
  | Failed => JStr []
  | Payload (JList (JDict kv :: _)) =>
      match dict_lookup kv (lit "generated_text") with
      | Some v => v
      | None => JStr []
      end
  | Payload (JList _) => JStr []
  | Payload output => JStr (py_str output)
  end.

(** The value of [data]: the decoded text, or [{}] when decoding raises. *)
Definition hf_data (w : World) : json :=
  match hf_text_out w, hf_decoded w with
  | JStr _, Some d => d
  | _, _ => JDict []
  end.

(** [[v] if isinstance(v, str) else v] *)
Definition wrap_str (v : json) : json :=
  match v with
  | JStr _ => JList [v]
  | _ => v
  end.

(** [call_hf_for_analysis] *)
Definition call_hf_for_analysis (cfg : Config) (w : World)
    (order : gset str → list str) (cv_text : str) : result AnalysisResult :=
  if negb (configured (HF_TOKEN cfg))
  then Ok (analyze_cv_rule_based order cv_text)
  else
    let text_out := hf_text_out w in
    let data := hf_data w in
    jt ← py_get data (lit "job_titles");
    sk ← py_get data (lit "skills");
    el ← py_get data (lit "experience_level");
    rt ← py_get data (lit "recommended_job_types");
    sm ← py_get data (lit "summary");
    summary ← (if truthy sm then Ok sm
               else match text_out with
                    | JStr s => Ok (JStr (strip s))
                    | _ => Raise AttributeError
                    end);
    titles ← as_str_list (wrap_str (py_or jt (JList [])));
    skills ← as_str_list (wrap_str (py_or sk (JList [])));
    types ← as_str_list (wrap_str (py_or rt (JList [])));
    text ← as_str summary;
    Ok {| job_titles := titles;
          skills := skills;
          experience_level :=
            lower (py_str (py_or el (JStr (lit "unknown"))));
          recommended_job_types := types;
          summary := Some text |}.

Definition TOO_SHORT : str :=
  lit "CV text is too short. Please upload a more detailed CV.".

(** [analyze] on a request whose [cv_text] is the given string. *)
Definition analyze (cfg : Config) (w : World) (order : gset str → list str)
    (cv_text : str) : result AnalysisResult :=
  if negb (nonempty cv_text) || (Z.of_nat (length (strip cv_text)) <? 50)%Z
  then Raise (HTTPException 400 TOO_SHORT)
  else call_hf_for_analysis cfg w order cv_text.

(** ** Notions used to state the properties *)

(** A list of strings in strictly ascending lexicographic order. *)
Definition strictly_ascending (l : list str) : Prop :=
  StronglySorted str_lt l.

(** A result that is the rejection of a request: an [HTTPException]. *)
Definition is_rejection {A} (r : result A) : Prop :=
  ∃ status detail, r = Raise (HTTPException status detail).

(** A result that is not an [HTTPException]. *)
Definition no_rejection {A} (r : result A) : Prop :=
  match r with
  | Raise (HTTPException _ _) => False
  | _ => True
  end.

(** The elements of a list that are the first to bear their key, in the
    order of the list. *)
Fixpoint first_occurrences {A} (key : A → str) (l : list A) : list A :=
  match l with
  | [] => []
  | x :: r => x :: filter (fun y => key y ≠ key x) (first_occurrences key r)
  end.

(** The first occurrences among the elements whose key is not in [seen]. *)
Fixpoint fresh {A} (key : A → str) (seen : gset str) (l : list A) : list A :=
  match l with
  | [] => []
  | x :: r =>
      if decide (key x ∈ seen) then fresh key seen r
      else x :: fresh key ({[key x]} ∪ seen) r
  end.

(** The identity key as the specification words it: the lower-cased,
    trimmed [apply_link] when that is not empty, otherwise the lower-cased,
    trimmed text [title|company]. *)
Definition claimed_job_key (j : JobItem) : str :=
  str_or (lower (strip (apply_link j)))
         (lower (strip (title j ++ lit "|" ++ company j))).

(** The keyword string as the specification words it: the selected entries
    as they are, deduplicated without regard to case, joined, truncated. *)
Definition claimed_keywords (analysis : AnalysisResult) : str :=
  str_or (take 120 (join (lit " ")
                         (first_occurrences lower (keyword_parts analysis))))
         (lit "software developer").

(** A posting whose description is a sanitized text cut at 400
    characters. *)
Definition sanitized (j : JobItem) : Prop :=
  ∃ raw, description j = take 400 (_strip_html raw).

(** *** Mentions of a number of years

    The phrases the extractor looks for, stated on the text itself: one or
    two digits; then optional white space, an optional plus sign and
    optional white space; then [years] or [yrs], not followed by a word
    character. *)

Definition all_of (p : ascii → bool) (s : str) : Prop := forallb p s = true.

Definition word_end (rest : str) : Prop :=
  match rest with
  | [] => True
  | c :: _ => is_word c = false
  end.

Definition years_suffix (mid : str) : Prop :=
  ∃ ws1 plus ws2 unit,
    mid = ws1 ++ plus ++ ws2 ++ unit ∧
    all_of is_space ws1 ∧ (plus = [] ∨ plus = lit "+") ∧
    all_of is_space ws2 ∧ (unit = lit "years" ∨ unit = lit "yrs").

(** [s] starts with such a phrase, whose number is [v]. *)
Definition years_phrase (s : str) (v : Z) : Prop :=
  ∃ ds mid rest,
    s = ds ++ mid ++ rest ∧
    1 ≤ length ds ≤ 2 ∧ all_of is_digit ds ∧
    years_suffix mid ∧ word_end rest ∧ v = int_of_digits ds.

(** [text] contains such a phrase, whose number is [v]. *)
Definition years_mentioned (text : str) (v : Z) : Prop :=
  ∃ before s, text = before ++ s ∧ years_phrase s v.

(** A state reached from another by consuming the characters [cs]. *)
Definition reach (st st' : mstate) (cs : str) : Prop :=
  m_rest st = cs ++ m_rest st' ∧
  m_len st' = m_len st + length cs ∧
  m_group st' = m_group st ∧
  m_prev st' = match last cs with Some c => Some c | None => m_prev st end.

(** The bound [hi] of a repetition allows [n] characters. *)
Definition within (hi : option nat) (n : nat) : Prop :=
  match hi with
  | Some h => n ≤ h
  | None => True
  end.

(** The atoms of [RE_YEARS] after the capturing group. *)
Definition YEARS_TAIL : list atom :=
  [ any_space; Rep (is_char "+") 0 (Some 1); any_space;
    Alt [lit "years"; lit "yrs"]; WordBoundary ].

Definition set_group (st : mstate) (st' : mstate) : mstate :=
  {| m_prev := m_prev st'; m_rest := m_rest st'; m_len := m_len st';
     m_group := take (m_len st' - m_len st) (m_rest st) |}.

(** A first atom that consumes at least one character. *)
Definition consuming (a : atom) : Prop :=
  match a with
  | Lit l => 1 ≤ length l
  | Rep _ lo _ | Group (Rep _ lo _) => 1 ≤ lo
  | _ => False
  end.

(** ** Sample data *)

Definition posting (t c link : string) : JobItem :=
  {| title := lit t; company := lit c; location := lit "Remote";
     description := []; apply_link := lit link; source := None |}.

Definition profile_of (titles skills types : list str) : AnalysisResult :=
  {| job_titles := titles; skills := skills; experience_level := lit "mid";
     recommended_job_types := types; summary := None |}.

Definition no_keys : Config :=
  {| HF_TOKEN := None; ADZUNA_APP_ID := None; ADZUNA_APP_KEY := None;
     ADZUNA_COUNTRY := lit "gb"; DEFAULT_JOB_LOCATION := lit "Remote" |}.

(** A world in which every exchange fails. *)
Definition offline : World :=
  {| hf_response := Failed; hf_decoded := None;
     remotive_response := Failed; remoteok_com_response := Failed;
     remoteok_io_response := Failed; arbeitnow_response := Failed;
     adzuna_response := Failed |}.

Definition adzuna_keys : Config :=
  {| HF_TOKEN := None; ADZUNA_APP_ID := Some (lit "app-id");
     ADZUNA_APP_KEY := Some (lit "app-key");
     ADZUNA_COUNTRY := lit "gb"; DEFAULT_JOB_LOCATION := lit "Remote" |}.

(** A record as both Remotive and Adzuna can send it, with markup in its
    description. *)
Definition marked_up : json :=
  JDict [ (lit "title", JStr (lit "Developer"));
          (lit "description",
           JStr (lit "<b>Senior</b> developer<br>Remote")) ].

Definition marked_up_world : World :=
  {| hf_response := Failed; hf_decoded := None;
     remotive_response := Payload (JDict [(lit "jobs", JList [marked_up])]);
     remoteok_com_response := Failed; remoteok_io_response := Failed;
     arbeitnow_response := Failed;
     adzuna_response :=
       Payload (JDict [(lit "results", JList [marked_up])]) |}.

(** A world in which every provider answers with an empty JSON list. *)
Definition bare_lists : World :=
  {| hf_response := Failed; hf_decoded := None;
     remotive_response := Payload (JList []);
     remoteok_com_response := Payload (JList []);
     remoteok_io_response := Payload (JList []);
     arbeitnow_response := Payload (JList []);
     adzuna_response := Payload (JList []) |}.

(** A world in which Arbeitnow sends a record whose tags are numbers. *)
Definition numeric_tags : World :=
  {| hf_response := Failed; hf_decoded := None;
     remotive_response := Failed; remoteok_com_response := Failed;
     remoteok_io_response := Failed;
     arbeitnow_response :=
       Payload (JDict [(lit "data",
                        JList [JDict [(lit "title", JStr (lit "Developer"));
                                      (lit "tags", JList [JInt 1])]])]);
     adzuna_response := Failed |}.

Definition hf_key : Config :=
  {| HF_TOKEN := Some (lit "hf_token"); ADZUNA_APP_ID := None;
     ADZUNA_APP_KEY := None; ADZUNA_COUNTRY := lit "gb";
     DEFAULT_JOB_LOCATION := lit "Remote" |}.

(** * The rest of the program *)

(** ** More string operations *)

(** [s.endswith(suffix)] *)
Definition ends_with (suffix s : str) : bool :=
  starts_with (rev suffix) (rev s).

(** [s.split(sep)] for a separator of one character. *)
Fixpoint split_on (sep : ascii) (s : str) : list str :=
  match s with
  | [] => [[]]
  | c :: r =>
      if bool_decide (c = sep) then [] :: split_on sep r
      else match split_on sep r with
           | p :: ps => (c :: p) :: ps
           | [] => [[c]]
           end
  end.

(** ** The allowed origins (module level) *)

Definition DEFAULT_CORS_ORIGINS : str := lit "http://localhost:5173".

(** [ALLOW_ORIGINS], from the value of [CORS_ORIGINS] in the environment. *)
Definition ALLOW_ORIGINS (cors_origins : option str) : list str :=
  let cors_origins_env := default DEFAULT_CORS_ORIGINS cors_origins in
  List.filter nonempty (map strip (split_on "," cors_origins_env)).

(** [ALLOW_ORIGINS or ["*"]], handed to the CORS middleware. *)
Definition allow_origins (cors_origins : option str) : list str :=
  match ALLOW_ORIGINS cors_origins with
  | [] => [lit "*"]
  | origins => origins
  end.

(** ** Reading an uploaded CV *)

(** What a reader makes of the uploaded file: an exception with its
    message, or the content it found. *)
Inductive reading (A : Type) :=
  | Unreadable (message : str)
  | Content (content : A).
Arguments Unreadable {A} message.
Arguments Content {A} content.

(** The uploaded file as its readers see it: [pdfplumber] gives the text
    of each page ([None] for a page without text), [docx] the text of each
    paragraph, [read()] the bytes.  [upload_utf8] is what
    [data.decode("utf-8")] returns, [None] when it raises
    [UnicodeDecodeError]; decoding as Latin-1 maps each byte to the
    character of the same code. *)
Record UploadFile := {
  upload_filename : option str;
  upload_pdf : reading (list (option str));
  upload_docx : reading (list str);
  upload_bytes : reading (list ascii);
  upload_utf8 : option str
}.

Definition failed {A} (what message : str) : result A :=
  Raise (HTTPException 400 (what ++ message)).

(** [extract_text_from_pdf] *)
Definition extract_text_from_pdf (file : UploadFile) : result str :=
  match upload_pdf file with
  | Content pages =>
      let pages_text := map (fun p => str_or (default [] p) []) pages in
      Ok (strip (join [newline] pages_text))
  | Unreadable exc => failed (lit "Failed to parse PDF: ") exc
  end.

(** [extract_text_from_docx] *)
Definition extract_text_from_docx (file : UploadFile) : result str :=
  match upload_docx file with
  | Content paragraphs => Ok (strip (join [newline] paragraphs))
  | Unreadable exc => failed (lit "Failed to parse DOCX: ") exc
  end.

(** [extract_text_from_plain] *)
Definition extract_text_from_plain (file : UploadFile) : result str :=
  match upload_bytes file with
  | Content data =>
      let text :=
        match upload_utf8 file with
        | Some text => text
        | None => data
        end in
      Ok (strip text)
  | Unreadable exc => failed (lit "Failed to read file: ") exc
  end.

Definition NO_TEXT : str := lit "No text could be extracted from the CV.".

(** [upload_cv]; the value is the [text] entry of the response. *)
Definition upload_cv (file : UploadFile) : result str :=
  let filename := str_or (default [] (upload_filename file)) [] in
  let lower_name := lower filename in
  text ← (if ends_with (lit ".pdf") lower_name then extract_text_from_pdf file
          else if ends_with (lit ".docx") lower_name
               then extract_text_from_docx file
               else extract_text_from_plain file);
  if nonempty text then Ok text
  else Raise (HTTPException 400 NO_TEXT).

(** ** Notions used to state further properties *)

(** [n] occurs in [h] as a run of consecutive characters. *)
Definition occurs_in (n h : str) : Prop := ∃ a b, h = a ++ n ++ b.

(** The words of a text: its maximal runs of characters that are not
    white space. *)
Fixpoint words_from (cur : str) (s : str) : list str :=
  match s with
  | [] => if nonempty cur then [cur] else []
  | c :: r =>
      if is_space c
      then (if nonempty cur then [cur] else []) ++ words_from [] r
      else words_from (cur ++ [c]) r
  end.

Definition words (s : str) : list str := words_from [] s.

(** A text without white space at either end. *)
Definition trimmed (s : str) : Prop :=
  match s with
  | [] => True
  | c :: _ => is_space c = false
  end ∧
  match last s with
  | None => True
  | Some c => is_space c = false
  end.

(** *** Markup and blank lines *)

(** The text holds a tag: [<], then at least one character, none of them
    [>], then [>]. *)
Definition markup (t : str) : Prop :=
  ∃ a body b,
    t = a ++ "<"%char :: body ++ ">"%char :: b ∧
    body ≠ [] ∧ ">"%char ∉ body.

(** The same, as a test: a tag can be closed right after the head of [r]. *)
Definition opens (r : str) : bool :=
  match r with
  | x :: r' => negb (is_char ">" x) && bool_decide (">"%char ∈ r')
  | [] => false
  end.

Fixpoint has_tag (t : str) : bool :=
  match t with
  | [] => false
  | c :: r => (is_char "<" c && opens r) || has_tag r
  end.

(** The text that [re.sub] builds from the tokens of a scan. *)
Definition sub_out (repl : str) (ts : list token) : str :=
  flat_map (fun t => match t with Hit _ => repl | Gap c => [c] end) ts.

(** [o] is [t] with some of its line breaks removed. *)
Inductive thinned : str → str → Prop :=
  | thinned_nil : thinned [] []
  | thinned_keep c t o : thinned t o → thinned (c :: t) (c :: o)
  | thinned_drop t o : thinned t o → thinned (newline :: t) o.

(** The number of line breaks a text starts with. *)
Definition leading_breaks (t : str) : nat := span (is_char newline) None t.

Definition three_breaks : str := [newline; newline; newline].

(** The class [[^>]]. *)
Definition not_gt : ascii → bool := fun c => negb (is_char ">" c).

(** *** The rounds of an adapter's loop *)

(** What one round of the loop of [search_jobs_remotive] makes of a record:
    a posting, or nothing when the record does not match the keywords. *)
Definition remotive_round (keywords : str) (item : json)
  : result (option JobItem) :=
  t ← py_get item (lit "title");
  let title := py_or t (JStr (lit "Unknown Role")) in
  c ← py_get item (lit "company_name");
  let company := py_or c (JStr (lit "Unknown Company")) in
  l ← py_get item (lit "candidate_required_location");
  let loc := py_or l (JStr (lit "Remote")) in
  d ← py_get item (lit "description");
  desc ← strip_html_of d;
  u ← py_get item (lit "url");
  let link := py_or u (JStr []) in
  let hay := py_str title ++ lit " " ++ py_str company ++ lit " " ++
             desc ++ lit " " ++ py_str loc in
  if negb (_keyword_match keywords hay) then Ok None
  else
    j ← make_job title company loc (JStr (take 400 desc)) link
                 (lit "Remotive");
    Ok (Some j).

(** The same for [search_jobs_remoteok]. *)
Definition remoteok_round (keywords : str) (item : json)
  : result (option JobItem) :=
  match item with
  | JDict kv =>
      p ← py_get item (lit "position");
      t ← py_get item (lit "title");
      let title := py_or p (py_or t (JStr (lit "Unknown Role"))) in
      c ← py_get item (lit "company");
      let company := py_or c (JStr (lit "Unknown Company")) in
      l ← py_get item (lit "location");
      let loc := py_or l (JStr (lit "Remote")) in
      d ← py_get item (lit "description");
      desc ← strip_html_of d;
      u ← py_get item (lit "url");
      let link := py_or u (JStr []) in
      g ← py_get item (lit "tags");
      tag_str ← tag_text (py_or g (JList []));
      let hay := py_str title ++ lit " " ++ py_str company ++ lit " " ++
                 py_str loc ++ lit " " ++ tag_str ++ lit " " ++ desc in
      if negb (_keyword_match keywords hay) then Ok None
      else
        j ← make_job title company loc (JStr (take 400 desc)) link
                     (lit "Remote OK");
        Ok (Some j)
  | _ => Ok None
  end.

(** The same for [search_jobs_arbeitnow]. *)
Definition arbeitnow_round (cfg : Config) (keywords : str) (item : json)
  : result (option JobItem) :=
  match item with
  | JDict kv =>
      t ← py_get item (lit "title");
      let title := py_or t (JStr (lit "Unknown Role")) in
      c ← py_get item (lit "company_name");
      let company := py_or c (JStr (lit "Unknown Company")) in
      l ← py_get item (lit "location");
      let loc := py_or l (JStr []) in
      d ← py_get item (lit "description");
      desc ← strip_html_of d;
      u ← py_get item (lit "url");
      let link := py_or u (JStr []) in
      g ← py_get item (lit "tags");
      tag_str ← tag_text (py_or g (JList []));
      let hay := py_str title ++ lit " " ++ py_str company ++ lit " " ++
                 py_str loc ++ lit " " ++ tag_str ++ lit " " ++ desc in
      if negb (_keyword_match keywords hay) then Ok None
      else
        j ← make_job title company
                     (py_or loc (JStr (DEFAULT_JOB_LOCATION cfg)))
                     (JStr (take 400 desc)) link (lit "Arbeitnow");
        Ok (Some j)
  | _ => Ok None
  end.

(** The loop that the three adapters share: the postings of the rounds are
    collected until there are [limit] of them. *)
Fixpoint rounds (round : json → result (option JobItem)) (limit : Z)
    (items : list json) (results : list JobItem) : result (list JobItem) :=
  match items with
  | [] => Ok results
  | item :: rest =>
      r ← round item;
      match r with
      | None => rounds round limit rest results
      | Some j =>
          let results := results ++ [j] in
          if reached limit results then Ok results
          else rounds round limit rest results
      end
  end.

(** A decoded value that is a JSON object. *)
Definition is_object (v : json) : bool :=
  match v with JDict _ => true | _ => false end.


(** *** Postings and records *)

(** A posting that bears the tag of its provider and names a role and a
    company. *)
Definition labelled (src : str) (j : JobItem) : Prop :=
  source j = Some src ∧ title j ≠ [] ∧ company j ≠ [].

(** A field that holds a string, or [null], or is absent. *)
Definition text_or_absent (kv : list (str * json)) (k : str) : Prop :=
  dict_get kv k JNull = JNull ∨ ∃ s, dict_get kv k JNull = JStr s.

(** Tags that are not a list, or a list of strings. *)
Definition tags_ok (kv : list (str * json)) : Prop :=
  ∀ l, dict_get kv (lit "tags") JNull = JList l → ∃ ss, l = JStr <$> ss.

(** A record that is an object whose [fields] are strings, [null] or
    absent, and whose tags are well formed. *)
Definition plain_record (fields : list str) (item : json) : Prop :=
  ∃ kv, item = JDict kv ∧ Forall (text_or_absent kv) fields ∧ tags_ok kv.


(** *** More sample data *)

(** A record whose fields are strings. *)
Definition record (fields : list (string * string)) : json :=
  JDict (map (fun e => (lit (fst e), JStr (lit (snd e)))) fields).

(** A world in which the providers answer: Remotive with two records, one
    of them off the subject; Remote OK, at its second address, with its
    notice, a stray string and a record; Arbeitnow with a stray number and
    a record with tags; Adzuna with a record off the subject. *)
Definition answering : World :=
  {| hf_response := Failed; hf_decoded := None;
     remotive_response :=
       Payload (JDict [(lit "jobs", JList [
         record [("title", "Python Developer"); ("company_name", "Acme");
                 ("description", "<p>Build <b>APIs</b></p>");
                 ("url", "https://jobs.example/1")];
         record [("title", "Pastry Chef"); ("company_name", "Bistro")]])]);
     remoteok_com_response := Failed;
     remoteok_io_response :=
       Payload (JList [
         record [("legal", "Terms of the feed")];
         JStr (lit "notice");
         record [("position", "Backend Developer"); ("company", "Bolt");
                 ("description", "Python and Go");
                 ("url", "HTTPS://jobs.example/1 ")]]);
     arbeitnow_response :=
       Payload (JDict [(lit "data", JList [
         JInt 7;
         JDict [(lit "title", JStr (lit "Data Engineer"));
                (lit "company_name", JStr (lit "Cord"));
                (lit "tags", JList [JStr (lit "python"); JStr (lit "sql")]);
                (lit "url", JStr (lit "https://jobs.example/3"))]])]);
     adzuna_response :=
       Payload (JDict [(lit "results", JList [
         JDict [(lit "title", JStr (lit "Gardener"));
                (lit "company", JDict [(lit "display_name",
                                        JStr (lit "Dig & Co"))])]])]) |}.

(** A world in which Remotive answers with the empty JSON list and every
    other exchange fails, and the same world with the empty object in
    place of the list. *)
Definition remotive_list : World :=
  {| hf_response := Failed; hf_decoded := None;
     remotive_response := Payload (JList []);
     remoteok_com_response := Failed; remoteok_io_response := Failed;
     arbeitnow_response := Failed; adzuna_response := Failed |}.

Definition remotive_object : World :=
  {| hf_response := Failed; hf_decoded := None;
     remotive_response := Payload (JDict []);
     remoteok_com_response := Failed; remoteok_io_response := Failed;
     arbeitnow_response := Failed; adzuna_response := Failed |}.

(** A world in which the text generated by the analysis service is the
    JSON list of one string instead of an object. *)
Definition list_reply : World :=
  {| hf_response :=
       Payload (JList [JDict [(lit "generated_text",
                               JStr (lit "[" ++ [quote2] ++ lit "python" ++
                                     [quote2] ++ lit "]"))]]);
     hf_decoded := Some (JList [JStr (lit "python")]);
     remotive_response := Failed; remoteok_com_response := Failed;
     remoteok_io_response := Failed; arbeitnow_response := Failed;
     adzuna_response := Failed |}.

(** The fields that the adapters read besides the tags. *)
Definition REMOTIVE_FIELDS : list str :=
  [lit "title"; lit "company_name"; lit "candidate_required_location";
   lit "description"; lit "url"].

Definition REMOTEOK_FIELDS : list str :=
  [lit "position"; lit "title"; lit "company"; lit "location";
   lit "description"; lit "url"].

Definition ARBEITNOW_FIELDS : list str :=
  [lit "title"; lit "company_name"; lit "location"; lit "description";
   lit "url"].


(** *** The records an adapter visits *)

(** The elements that the loop of [search_jobs_remotive] visits: those of
    the [jobs] entry of the answer. *)
Definition remotive_records (w : World) : list json :=
  match remotive_response w with
  | Payload (JDict kv) =>
      match py_iter (py_or (dict_get kv (lit "jobs") (JList [])) (JList []))
      with
      | Ok items => items
      | Raise _ => []
      end
  | _ => []
  end.

(** Those of [search_jobs_remoteok]: the answer of the first address that
    answers, when it is a list, without its first element. *)
Definition remoteok_records (w : World) : list json :=
  match remoteok_com_response w with
  | Payload (JList l) => drop 1 l
  | Payload _ => []
  | Failed =>
      match remoteok_io_response w with
      | Payload (JList l) => drop 1 l
      | _ => []
      end
  end.

(** Those of [search_jobs_arbeitnow]: the [data] entry of the answer, when
    the answer is an object and the entry a list. *)
Definition arbeitnow_records (w : World) : list json :=
  match arbeitnow_response w with
  | Payload (JDict kv) =>
      match dict_get kv (lit "data") JNull with
      | JList data => data
      | _ => []
      end
  | _ => []
  end.

(** [item.get(k) or default] on an object. *)
Definition field_or (kv : list (str * json)) (k default : str) : json :=
  py_or (dict_get kv k JNull) (JStr default).

(** The posting [j] is made of the Remotive record [kv], and the keywords
    match the text made of the title, the company, the whole sanitized
    description and the location. *)
Definition remotive_match (keywords : str) (kv : list (str * json))
    (j : JobItem) : Prop :=
  ∃ desc,
    JStr (title j) = field_or kv (lit "title") (lit "Unknown Role") ∧
    JStr (company j) =
      field_or kv (lit "company_name") (lit "Unknown Company") ∧
    JStr (location j) =
      field_or kv (lit "candidate_required_location") (lit "Remote") ∧
    strip_html_of (dict_get kv (lit "description") JNull) = Ok desc ∧
    description j = take 400 desc ∧
    _keyword_match keywords
      (join (lit " ") [title j; company j; desc; location j]) = true.

(** The same for a Remote OK record, whose text also holds the tags. *)
Definition remoteok_match (keywords : str) (kv : list (str * json))
    (j : JobItem) : Prop :=
  ∃ tags desc,
    JStr (title j) =
      py_or (dict_get kv (lit "position") JNull)
            (field_or kv (lit "title") (lit "Unknown Role")) ∧
    JStr (company j) = field_or kv (lit "company") (lit "Unknown Company") ∧
    JStr (location j) = field_or kv (lit "location") (lit "Remote") ∧
    tag_text (py_or (dict_get kv (lit "tags") JNull) (JList [])) = Ok tags ∧
    strip_html_of (dict_get kv (lit "description") JNull) = Ok desc ∧
    description j = take 400 desc ∧
    _keyword_match keywords
      (join (lit " ") [title j; company j; location j; tags; desc]) = true.

(** The same for an Arbeitnow record; the text holds the location of the
    record, the posting the default location when that one is empty. *)
Definition arbeitnow_match (cfg : Config) (keywords : str)
    (kv : list (str * json)) (j : JobItem) : Prop :=
  ∃ loc tags desc,
    JStr (title j) = field_or kv (lit "title") (lit "Unknown Role") ∧
    JStr (company j) =
      field_or kv (lit "company_name") (lit "Unknown Company") ∧
    field_or kv (lit "location") [] = JStr loc ∧
    location j = str_or loc (DEFAULT_JOB_LOCATION cfg) ∧
    tag_text (py_or (dict_get kv (lit "tags") JNull) (JList [])) = Ok tags ∧
    strip_html_of (dict_get kv (lit "description") JNull) = Ok desc ∧
    description j = take 400 desc ∧
    _keyword_match keywords
      (join (lit " ") [title j; company j; loc; tags; desc]) = true.

(** The world [answering] without the stray elements of its feeds. *)
Definition answering_objects : World :=
  {| hf_response := Failed; hf_decoded := None;
     remotive_response := remotive_response answering;
     remoteok_com_response := Failed;
     remoteok_io_response :=
       Payload (JList [
         record [("legal", "Terms of the feed")];
         record [("position", "Backend Developer"); ("company", "Bolt");
                 ("description", "Python and Go");
                 ("url", "HTTPS://jobs.example/1 ")]]);
     arbeitnow_response :=
       Payload (JDict [(lit "data", JList [
         JDict [(lit "title", JStr (lit "Data Engineer"));
                (lit "company_name", JStr (lit "Cord"));
                (lit "tags", JList [JStr (lit "python"); JStr (lit "sql")]);
                (lit "url", JStr (lit "https://jobs.example/3"))]])]);
     adzuna_response := adzuna_response answering |}.


(** * Properties *)

(** ** Strings and their order *)

Lemma str_or_empty (s : str) : str_or s [] = s.
Proof. by destruct s. Qed.

Lemma nonempty_false (s : str) : nonempty s = false ↔ s = [].
Proof. by destruct s. Qed.

Lemma strip_empty : strip [] = [].
Proof. reflexivity. Qed.

Lemma code_inj (x y : ascii) : code x = code y → x = y.
Proof.
  unfold code. intros E.
  by rewrite <-(ascii_nat_embedding x), <-(ascii_nat_embedding y), E.
Qed.

Lemma str_leb_cons x a y b :
  str_leb (x :: a) (y :: b) = true ↔
  code x < code y ∨ (code x = code y ∧ str_leb a b = true).
Proof.
  cbn [str_leb]. by rewrite orb_true_iff, andb_true_iff, Nat.ltb_lt, Nat.eqb_eq.
Qed.

Global Instance str_le_po : PartialOrder str_le.
Proof.
  unfold str_le. split; [split|].
  - intros a. induction a as [|x a IH]; [done|].
    apply str_leb_cons. by right.
  - intros a. induction a as [|x a IH]; intros [|y b] [|z c]; try done.
    rewrite !str_leb_cons. intros [?|[? ?]] [?|[? ?]]; try (left; lia).
    right. split; [lia|]. by eapply IH.
  - intros a. induction a as [|x a IH]; intros [|y b]; try done.
    rewrite !str_leb_cons. intros [?|[E ?]] [?|[? ?]]; try lia.
    apply code_inj in E as ->. f_equal. by apply IH.
Qed.

Global Instance str_le_total : Total str_le.
Proof.
  unfold str_le. intros a.
  induction a as [|x a IH]; intros [|y b]; [by left..|by right|].
  rewrite !str_leb_cons.
  destruct (Nat.lt_trichotomy (code x) (code y)) as [?|[E|?]];
    [by do 2 left| |by right; left].
  destruct (IH b); [left|right]; right; by split.
Qed.

Lemma sorted_Sorted (l : list str) : Sorted str_le (sorted l).
Proof. apply Sorted_merge_sort, _. Qed.

Lemma sorted_Permutation (l : list str) : sorted l ≡ₚ l.
Proof. apply merge_sort_Permutation. Qed.

(** [sorted] forgets the order of its argument. *)
Lemma sorted_order_irrelevant (l1 l2 : list str) :
  l1 ≡ₚ l2 → sorted l1 = sorted l2.
Proof.
  intros E. apply (Sorted_unique str_le); try apply sorted_Sorted.
  by rewrite !sorted_Permutation.
Qed.

(** A sorted list without repetition is strictly increasing. *)
Lemma sorted_strict (l : list str) :
  NoDup l → StronglySorted str_lt (sorted l).
Proof.
  intros Hnd.
  assert (NoDup (sorted l)) as Hnd' by (by rewrite sorted_Permutation).
  assert (StronglySorted str_le (sorted l)) as Hs
    by apply (Sorted_StronglySorted _), sorted_Sorted.
  induction Hs as [|x r Hr IH Hx]; [constructor|].
  apply NoDup_cons in Hnd' as [Hnotin Hnd'].
  constructor; [by apply IH|].
  apply Forall_forall. intros y Hy. split.
  - by eapply Forall_forall in Hx.
  - intros ->. done.
Qed.

Lemma set_order_NoDup (order : gset str → list str) (X : gset str) :
  set_order order → NoDup (order X).
Proof. intros H. rewrite (H X). apply NoDup_elements. Qed.

Lemma set_order_elem_of (order : gset str → list str) (X : gset str) x :
  set_order order → x ∈ order X ↔ x ∈ X.
Proof. intros H. rewrite (H X). apply elem_of_elements. Qed.

Lemma set_order_elements : set_order elements.
Proof. by intros X. Qed.

Lemma set_order_reverse : set_order (fun X => reverse (elements X)).
Proof. intros X. apply reverse_Permutation. Qed.

Lemma elem_of_lexicon_hits lexicon text x :
  x ∈ lexicon_hits lexicon text ↔
  x ∈ lexicon ∧ contains (lower x) text = true.
Proof.
  unfold lexicon_hits. rewrite elem_of_list_to_set, list_elem_of_In.
  rewrite List.filter_In, <-list_elem_of_In. done.
Qed.

(** ** The rule-based extractor *)

(** C9.  The offline extractor is deterministic: on identical input texts
    two calls of [analyze_cv_rule_based] return identical profiles, in
    whatever order each call happens to iterate over its sets of matched
    skills and job titles. *)
Theorem analyze_cv_rule_based_deterministic
    (order1 order2 : gset str → list str) (cv_text1 cv_text2 : str) :
  set_order order1 → set_order order2 → cv_text1 = cv_text2 →
  analyze_cv_rule_based order1 cv_text1 =
  analyze_cv_rule_based order2 cv_text2.
Proof.
  intros H1 H2 <-. unfold analyze_cv_rule_based.
  f_equal; apply sorted_order_irrelevant; by rewrite (H1 _), (H2 _).
Qed.

Lemma analyze_cv_rule_based_deterministic_witness :
  analyze_cv_rule_based elements (lit "Student, 2 years of Python") =
  analyze_cv_rule_based (fun X => reverse (elements X))
                        (lit "Student, 2 years of Python").
Proof.
  apply analyze_cv_rule_based_deterministic.
  - apply set_order_elements.
  - apply set_order_reverse.
  - reflexivity.
Defined.

Lemma strictly_ascending_take_drop (l : list str) n x y :
  strictly_ascending l → x ∈ take n l → y ∈ drop n l → str_lt x y.
Proof.
  intros Hs Hx Hy. rewrite <-(take_drop n l) in Hs.
  by eapply StronglySorted_app_1_elem_of.
Qed.

Lemma strictly_ascending_NoDup (l : list str) :
  strictly_ascending l → NoDup l.
Proof.
  induction 1 as [|x l Hl IH Hx]; constructor; [|done].
  intros Hin. eapply Forall_forall in Hx; [|done]. by destruct Hx.
Qed.

(** C10.  The extractor returns [skills] and [job_titles] in strictly
    ascending lexicographic order, hence without duplicates; they are
    exactly the lexicon entries that occur in the lower-cased text.  So the
    first three job titles and the first five skills, which the keyword
    builder selects, come before every other match in alphabetical
    order, wherever they stand in the CV. *)
Theorem analyze_cv_rule_based_sorted
    (order : gset str → list str) (cv_text : str) :
  set_order order →
  let p := analyze_cv_rule_based order cv_text in
  (strictly_ascending (skills p) ∧ NoDup (skills p) ∧
   ∀ s, s ∈ skills p ↔
        s ∈ COMMON_SKILLS ∧ contains (lower s) (lower cv_text) = true) ∧
  (strictly_ascending (job_titles p) ∧ NoDup (job_titles p) ∧
   ∀ t, t ∈ job_titles p ↔
        t ∈ COMMON_JOB_TITLES ∧ contains (lower t) (lower cv_text) = true) ∧
  (∀ x y, x ∈ take 3 (job_titles p) → y ∈ drop 3 (job_titles p) →
          str_lt x y) ∧
  (∀ x y, x ∈ take 5 (skills p) → y ∈ drop 5 (skills p) → str_lt x y).
Proof.
  intros Hord p.
  assert (∀ lexicon,
    let l := sorted (order (lexicon_hits lexicon (lower (str_or cv_text []))))
    in strictly_ascending l ∧ NoDup l ∧
       ∀ s, s ∈ l ↔ s ∈ lexicon ∧ contains (lower s) (lower cv_text) = true)
    as Hlex.
  { intros lexicon l.
    assert (strictly_ascending l) as Hs
      by (by apply sorted_strict, set_order_NoDup).
    split_and!; [done|by apply strictly_ascending_NoDup|].
    intros s. unfold l. rewrite sorted_Permutation.
    rewrite set_order_elem_of by done.
    by rewrite elem_of_lexicon_hits, str_or_empty. }
  destruct (Hlex COMMON_SKILLS) as (Hs1 & Hs2 & Hs3).
  destruct (Hlex COMMON_JOB_TITLES) as (Ht1 & Ht2 & Ht3).
  split_and!; try done.
  - intros x y. by apply strictly_ascending_take_drop.
  - intros x y. by apply strictly_ascending_take_drop.
Qed.

Lemma analyze_cv_rule_based_sorted_witness :
  let p := analyze_cv_rule_based elements
             (lit "SQL and Python, then Go; backend developer") in
  (strictly_ascending (skills p) ∧ NoDup (skills p) ∧
   ∀ s, s ∈ skills p ↔
        s ∈ COMMON_SKILLS ∧
        contains (lower s)
          (lower (lit "SQL and Python, then Go; backend developer")) = true) ∧
  (strictly_ascending (job_titles p) ∧ NoDup (job_titles p) ∧
   ∀ t, t ∈ job_titles p ↔
        t ∈ COMMON_JOB_TITLES ∧
        contains (lower t)
          (lower (lit "SQL and Python, then Go; backend developer")) = true) ∧
  (∀ x y, x ∈ take 3 (job_titles p) → y ∈ drop 3 (job_titles p) →
          str_lt x y) ∧
  (∀ x y, x ∈ take 5 (skills p) → y ∈ drop 5 (skills p) → str_lt x y).
Proof.
  apply (analyze_cv_rule_based_sorted elements), set_order_elements.
Defined.

(** The alphabetical order wins over the order of the text. *)
Example skills_in_alphabetical_order :
  skills (analyze_cv_rule_based elements
            (lit "SQL and Python, then Go; backend developer"))
  = [lit "go"; lit "python"; lit "sql"].
Proof. vm_compute. reflexivity. Qed.

(** ** The analysis entry point *)

Lemma no_rejection_bind {A B} (m : result A) (f : A → result B) :
  no_rejection m → (∀ a, no_rejection (f a)) → no_rejection (m ≫= f).
Proof. destruct m as [a|e]; simpl; [auto|]. by destruct e. Qed.

Lemma no_rejection_py_get v k : no_rejection (py_get v k).
Proof. by destruct v. Qed.

Lemma no_rejection_as_str v : no_rejection (as_str v).
Proof. by destruct v. Qed.

Lemma no_rejection_as_strs l : no_rejection (as_strs l).
Proof.
  induction l as [|v l IH]; simpl; [done|].
  apply no_rejection_bind; [apply no_rejection_as_str|intros s].
  apply no_rejection_bind; [done|by intros r].
Qed.

Lemma no_rejection_as_str_list v : no_rejection (as_str_list v).
Proof. destruct v; simpl; try done. apply no_rejection_as_strs. Qed.

Lemma call_hf_for_analysis_no_rejection cfg w order cv_text :
  no_rejection (call_hf_for_analysis cfg w order cv_text).
Proof.
  unfold call_hf_for_analysis. destruct (negb _); [done|].
  repeat (apply no_rejection_bind;
          [first [apply no_rejection_py_get | apply no_rejection_as_str_list
                 | apply no_rejection_as_str | idtac]
          |intros ?]); try done.
  destruct (truthy _); [done|]. by destruct (hf_text_out w).
Qed.

(** C8.  [analyze] rejects a request with HTTP status 400 and the message
    that the CV text is too short exactly when the trimmed [cv_text] has
    fewer than 50 characters; on every other text it is the analysis
    itself, which never produces a rejection. *)
Theorem analyze_rejects_exactly_short_text
    (cfg : Config) (w : World) (order : gset str → list str) (cv_text : str) :
  analyze cfg w order cv_text =
    (if decide (length (strip cv_text) < 50)
     then Raise (HTTPException 400 TOO_SHORT)
     else call_hf_for_analysis cfg w order cv_text) ∧
  (is_rejection (analyze cfg w order cv_text) ↔ length (strip cv_text) < 50).
Proof.
  assert (analyze cfg w order cv_text =
    (if decide (length (strip cv_text) < 50)
     then Raise (HTTPException 400 TOO_SHORT)
     else call_hf_for_analysis cfg w order cv_text)) as E.
  { unfold analyze. destruct cv_text as [|c r]; [done|].
    cbn [nonempty negb orb].
    destruct (Z.ltb_spec (Z.of_nat (length (strip (c :: r)))) 50);
      case_decide; try done; lia. }
  split; [done|]. rewrite E. case_decide as Hlen.
  - split; [done|]. intros _. by eexists _, _.
  - split; [|done]. intros (s & d & Hr).
    pose proof (call_hf_for_analysis_no_rejection cfg w order cv_text) as Hn.
    by rewrite Hr in Hn.
Qed.

(** ** First occurrences *)

Section first_occurrences.
Context {A : Type} (key : A → str).

Lemma fresh_first_occurrences (seen : gset str) (l : list A) :
  fresh key seen l =
  filter (fun x => key x ∉ seen) (first_occurrences key l).
Proof.
  revert seen. induction l as [|x r IH]; intros seen; [done|].
  cbn [fresh first_occurrences].
  destruct (decide (key x ∈ seen)) as [Hin|Hnotin].
  - rewrite filter_cons_False by (by intros Hn).
    rewrite IH, list_filter_filter. apply list_filter_iff.
    intros y. split; [|tauto]. intros Hy. split; [done|].
    intros E. by rewrite E in Hy.
  - rewrite filter_cons_True by done.
    f_equal. rewrite IH, list_filter_filter. apply list_filter_iff.
    intros y. rewrite not_elem_of_union, not_elem_of_singleton. tauto.
Qed.

Lemma fresh_empty (l : list A) : fresh key ∅ l = first_occurrences key l.
Proof.
  rewrite fresh_first_occurrences.
  induction (first_occurrences key l) as [|x r IH]; [done|].
  rewrite filter_cons_True by set_solver. by f_equal.
Qed.

Lemma first_occurrences_sublist (l : list A) :
  first_occurrences key l `sublist_of` l.
Proof.
  induction l as [|x r IH]; [done|]. cbn. constructor.
  etrans; [apply sublist_filter|done].
Qed.

Lemma first_occurrences_NoDup (l : list A) :
  NoDup (key <$> first_occurrences key l).
Proof.
  induction l as [|x r IH]; cbn; [constructor|].
  apply NoDup_cons. split.
  - rewrite list_elem_of_fmap. intros (y & Hy & Hin).
    apply list_elem_of_filter in Hin as [Hne _]. by rewrite Hy in Hne.
  - eapply sublist_NoDup; [exact IH|].
    apply fmap_sublist, sublist_filter.
Qed.

(** Every key of the list is represented, by its first bearer. *)
Lemma first_occurrences_keys (l : list A) (k : str) :
  k ∈ key <$> first_occurrences key l ↔ k ∈ key <$> l.
Proof.
  induction l as [|x r IH]; [done|]. cbn.
  rewrite !elem_of_cons, <-IH, !list_elem_of_fmap.
  split.
  - intros [->|(y & -> & Hy)]; [by left|].
    apply list_elem_of_filter in Hy as [_ Hy]. right. eauto.
  - intros [->|(y & -> & Hy)]; [by left|].
    destruct (decide (key y = key x)) as [E|Hne]; [by left|].
    right. exists y. split; [done|]. by apply list_elem_of_filter.
Qed.
(** An element is kept exactly when no earlier element bears its key. *)
Lemma elem_of_first_occurrences (l : list A) (x : A) :
  x ∈ first_occurrences key l ↔
  ∃ i, l !! i = Some x ∧ ∀ k y, k < i → l !! k = Some y → key y ≠ key x.
Proof.
  induction l as [|x0 r IH]; cbn [first_occurrences].
  { split; [by intros ?%elem_of_nil|]. by intros (i & ? & _). }
  rewrite elem_of_cons, list_elem_of_filter, IH. split.
  - intros [->|(Hne & i & Hi & Hfirst)].
    + exists 0. split; [done|]. intros; lia.
    + exists (S i). split; [done|]. intros [|k] y Hk Hy.
      * cbn in Hy. simplify_eq. by intros E.
      * cbn in Hy. eapply Hfirst; [|done]. lia.
  - intros ([|i] & Hi & Hfirst); cbn in Hi.
    + left. by simplify_eq.
    + right. split.
      * intros E. by apply (Hfirst 0 x0); [lia| |].
      * exists i. split; [done|]. intros k y Hk Hy.
        apply (Hfirst (S k) y); [lia|done].
Qed.
End first_occurrences.

(** ** Deduplication *)

Lemma dedupe_loop_fresh (jobs : list JobItem) (limit : Z) seen out :
  (Z.of_nat (length out) < limit)%Z →
  dedupe_loop jobs limit seen out =
  take (Z.to_nat limit) (out ++ fresh job_key seen jobs).
Proof.
  revert seen out. induction jobs as [|j rest IH]; intros seen out Hlen.
  - cbn. rewrite app_nil_r, take_ge by lia. done.
  - cbn [dedupe_loop fresh].
    destruct (decide (job_key j ∈ seen)); [by apply IH|].
    set (F := fresh job_key _ rest).
    replace (out ++ j :: F) with ((out ++ [j]) ++ F)
      by (by rewrite <-app_assoc).
    destruct (Z.leb_spec limit (Z.of_nat (length (out ++ [j])))) as [Hge|Hlt].
    + rewrite take_app_length'; [done|]. rewrite length_app in *. cbn in *. lia.
    + by apply IH.
Qed.

Lemma job_key_cases (j : JobItem) :
  job_key j =
  if decide (strip (apply_link j) = [])
  then lower (title j ++ lit "|" ++ company j)
  else lower (strip (apply_link j)).
Proof.
  unfold job_key. rewrite str_or_empty.
  destruct (strip (apply_link j)) as [|c r]; by case_decide.
Qed.

Lemma _dedupe_jobs_take (jobs : list JobItem) (limit : Z) :
  (1 ≤ limit)%Z →
  _dedupe_jobs jobs limit =
  take (Z.to_nat limit) (first_occurrences job_key jobs).
Proof.
  intros Hlimit. unfold _dedupe_jobs.
  rewrite dedupe_loop_fresh by (cbn; lia). by rewrite fresh_empty.
Qed.

Lemma _dedupe_jobs_length (jobs : list JobItem) (limit : Z) :
  (1 ≤ limit)%Z → (Z.of_nat (length (_dedupe_jobs jobs limit)) ≤ limit)%Z.
Proof. intros H. rewrite _dedupe_jobs_take, length_take by done. lia. Qed.

(** C1, as the code has it.  The key of a posting is its trimmed,
    lower-cased [apply_link] when that is not empty, and otherwise the
    lower-cased (not trimmed) text [title|company].  For a limit of at
    least 1, [_dedupe_jobs] returns the first [limit] of the postings that
    are the first of their key, in the order of the list: every result
    stands in the list with no posting of the same key before it, no two
    results share a key, and there are at most [limit] of them. *)
Theorem _dedupe_jobs_first_of_each_key (jobs : list JobItem) (limit : Z) :
  (1 ≤ limit)%Z →
  (∀ j, job_key j =
        if decide (strip (apply_link j) = [])
        then lower (title j ++ lit "|" ++ company j)
        else lower (strip (apply_link j))) ∧
  _dedupe_jobs jobs limit =
    take (Z.to_nat limit) (first_occurrences job_key jobs) ∧
  (∀ j, j ∈ _dedupe_jobs jobs limit →
        ∃ i, jobs !! i = Some j ∧
             ∀ k y, k < i → jobs !! k = Some y → job_key y ≠ job_key j) ∧
  NoDup (job_key <$> _dedupe_jobs jobs limit) ∧
  (Z.of_nat (length (_dedupe_jobs jobs limit)) ≤ limit)%Z.
Proof.
  intros Hlimit. pose proof (_dedupe_jobs_take jobs limit Hlimit) as E.
  split_and!; [apply job_key_cases|done| | |].
  - intros j Hj. rewrite E in Hj.
    apply (subseteq_take (Z.to_nat limit)) in Hj.
    by apply elem_of_first_occurrences.
  - rewrite E, fmap_take.
    eapply sublist_NoDup; [|apply sublist_take].
    apply first_occurrences_NoDup.
  - rewrite E, length_take. lia.
Qed.

Lemma _dedupe_jobs_first_of_each_key_witness :
  let jobs := [posting "Dev" "Acme" " HTTPS://x.io/1 ";
               posting "Ops" "Bolt" "https://x.io/1";
               posting "QA" "Cord" ""] in
  (1 ≤ 5)%Z ∧
  (∀ j, job_key j =
        if decide (strip (apply_link j) = [])
        then lower (title j ++ lit "|" ++ company j)
        else lower (strip (apply_link j))) ∧
  _dedupe_jobs jobs 5 = take (Z.to_nat 5) (first_occurrences job_key jobs) ∧
  (∀ j, j ∈ _dedupe_jobs jobs 5 →
        ∃ i, jobs !! i = Some j ∧
             ∀ k y, k < i → jobs !! k = Some y → job_key y ≠ job_key j) ∧
  NoDup (job_key <$> _dedupe_jobs jobs 5) ∧
  (Z.of_nat (length (_dedupe_jobs jobs 5)) ≤ 5)%Z.
Proof.
  intros jobs. split; [lia|].
  apply (_dedupe_jobs_first_of_each_key jobs 5). lia.
Defined.

(** Postings with the same link up to case and surrounding white space
    collapse to the first one. *)
Example _dedupe_jobs_link_variants :
  _dedupe_jobs [posting "Dev" "Acme" " HTTPS://x.io/1 ";
                posting "Ops" "Bolt" "https://x.io/1";
                posting "QA" "Cord" ""] 5 =
  [posting "Dev" "Acme" " HTTPS://x.io/1 "; posting "QA" "Cord" ""].
Proof. vm_compute. reflexivity. Qed.

(** C1, as the specification words it, fails: two postings without link
    whose [title|company] texts differ only by surrounding white space
    have the same trimmed key, and both are kept. *)
Lemma _dedupe_jobs_keeps_untrimmed_variants :
  claimed_job_key (posting "Dev" "Acme" "") =
    claimed_job_key (posting "Dev" "Acme " "") ∧
  _dedupe_jobs [posting "Dev" "Acme" ""; posting "Dev" "Acme " ""] 20 =
    [posting "Dev" "Acme" ""; posting "Dev" "Acme " ""].
Proof. split; vm_compute; reflexivity. Qed.

(** ** The keyword builder *)

Lemma keywords_loop_fresh (parts : list str) seen out :
  keywords_loop parts seen out =
  out ++ fresh lower seen (filter (fun p => p ≠ []) (strip <$> parts)).
Proof.
  revert seen out. induction parts as [|p rest IH]; intros seen out.
  - cbn. by rewrite app_nil_r.
  - cbn [keywords_loop fmap list_fmap]. rewrite str_or_empty, filter_cons.
    destruct (strip p) as [|c r] eqn:E.
    + cbn [nonempty]. rewrite decide_False by (by intros ?). apply IH.
    + cbn [nonempty]. rewrite (decide_True (P := c :: r ≠ [])) by done.
      cbn [fresh].
      destruct (decide (lower (c :: r) ∈ seen)); [apply IH|].
      rewrite IH, <-app_assoc. done.
Qed.

(** C4, as the code has it.  The builder takes the first 3 job titles, the
    first 5 skills and the first 2 job types, in this order; trims each
    entry and drops those that are empty; keeps, of the entries that are
    equal without regard to case, the first; joins them with single spaces
    and truncates to 120 characters; an empty outcome is replaced by
    [software developer].  The result has at most 120 characters. *)
Theorem build_keywords_from_analysis_spec (analysis : AnalysisResult) :
  let parts := take 3 (job_titles analysis) ++ take 5 (skills analysis) ++
               take 2 (recommended_job_types analysis) in
  let cleaned := filter (fun p => p ≠ []) (strip <$> parts) in
  build_keywords_from_analysis analysis =
    str_or (take 120 (join (lit " ") (first_occurrences lower cleaned)))
           (lit "software developer") ∧
  length (build_keywords_from_analysis analysis) ≤ 120.
Proof.
  intros parts cleaned.
  assert (build_keywords_from_analysis analysis =
    str_or (take 120 (join (lit " ") (first_occurrences lower cleaned)))
           (lit "software developer")) as E.
  { unfold build_keywords_from_analysis.
    by rewrite keywords_loop_fresh, app_nil_l, fresh_empty. }
  split; [done|]. rewrite E. unfold str_or.
  destruct (nonempty _); [|cbn; lia].
  rewrite length_take. lia.
Qed.

(** The example of the specification: the fourth title is left out. *)
Example build_keywords_example :
  build_keywords_from_analysis
    (profile_of [lit "Backend Developer"; lit "Data Analyst";
                 lit "DevOps Engineer"; lit "Extra Title"]
                [lit "python"] [lit "remote"])
  = lit "Backend Developer Data Analyst DevOps Engineer python remote".
Proof. vm_compute. reflexivity. Qed.

(** C4, as the specification words it, fails: an entry with surrounding
    white space is trimmed by the builder, and an entry of white space
    only is dropped, so that the default is returned. *)
Lemma build_keywords_trims_entries :
  build_keywords_from_analysis (profile_of [lit " Data Analyst "] [] [])
    = lit "Data Analyst" ∧
  claimed_keywords (profile_of [lit " Data Analyst "] [] [])
    = lit " Data Analyst " ∧
  build_keywords_from_analysis (profile_of [lit "  "] [] [])
    = lit "software developer" ∧
  claimed_keywords (profile_of [lit "  "] [] []) = lit "  ".
Proof. split_and!; vm_compute; reflexivity. Qed.

(** ** The aggregator *)

Lemma clamp_limit_range (limit : Z) : (1 ≤ clamp_limit limit ≤ 50)%Z.
Proof. unfold clamp_limit. lia. Qed.

Lemma mocked_jobs_take (analysis : AnalysisResult) (location : str) limit :
  (1 ≤ limit)%Z →
  mocked_jobs analysis location limit =
  take (Z.to_nat (Z.min limit 2)) (base_jobs analysis location).
Proof.
  intros H. unfold mocked_jobs. f_equal. cbn [base_jobs length]. lia.
Qed.

Lemma mocked_jobs_length (analysis : AnalysisResult) (location : str) limit :
  (1 ≤ limit)%Z →
  length (mocked_jobs analysis location limit) = Z.to_nat (Z.min limit 2).
Proof.
  intros H. rewrite mocked_jobs_take, length_take by done.
  cbn [base_jobs length]. lia.
Qed.

(** The placeholders: two postings at the given location, marked as
    mocked, named after the first job title and the first job type. *)
Lemma base_jobs_shape (analysis : AnalysisResult) (loc : str) :
  length (base_jobs analysis loc) = 2 ∧
  Forall (fun j => location j = loc ∧ source j = Some (lit "Mocked"))
         (base_jobs analysis loc) ∧
  title <$> base_jobs analysis loc =
    [ first_or (job_titles analysis) (lit "Software Engineer") ++ lit " (" ++
        title_case (experience_level analysis) ++ lit " Level)";
      first_or (recommended_job_types analysis)
        (first_or (job_titles analysis) (lit "Software Engineer")) ++
        lit " - Remote Friendly" ].
Proof. split_and!; [done|by repeat constructor|done]. Qed.

(** [find_jobs] clamps the limit into 1..50.  Whenever the four adapters
    return, it returns between 1 and that many postings: the deduplicated
    postings of the providers, and, when there are none, the first
    [min(limit, 2)] of the two placeholder postings. *)
Lemma find_jobs_nonempty_bounded (cfg : Config) (w : World)
    (request : FindJobsRequest) (r1 r2 r3 r4 : list JobItem) :
  let analysis := req_analysis request in
  let location := location_or_default cfg (req_location request) in
  let limit := Z.max 1 (Z.min (req_limit request) 50) in
  let keywords := build_keywords_from_analysis analysis in
  search_jobs_remotive w keywords limit = Ok r1 →
  search_jobs_remoteok w keywords limit = Ok r2 →
  search_jobs_arbeitnow cfg w keywords limit = Ok r3 →
  search_jobs_adzuna cfg w keywords (Some location) limit = Ok r4 →
  (1 ≤ limit ≤ 50)%Z ∧
  ∃ jobs,
    find_jobs cfg w request = Ok jobs ∧
    1 ≤ length jobs ∧ (Z.of_nat (length jobs) ≤ limit)%Z ∧
    jobs =
      match _dedupe_jobs (r1 ++ r2 ++ r3 ++ r4) limit with
      | [] => take (Z.to_nat (Z.min limit 2)) (base_jobs analysis location)
      | found => found
      end.
Proof.
  intros analysis location limit keywords H1 H2 H3 H4.
  assert (1 ≤ limit ≤ 50)%Z as Hlimit by (unfold limit; lia).
  split; [done|].
  unfold find_jobs. fold analysis location keywords.
  change (clamp_limit (req_limit request)) with limit.
  rewrite H1. cbn [mbind result_bind]. rewrite H2. cbn [mbind result_bind].
  rewrite H3. cbn [mbind result_bind]. rewrite H4. cbn [mbind result_bind].
  pose proof (_dedupe_jobs_length (r1 ++ r2 ++ r3 ++ r4) limit) as Hlen.
  destruct (_dedupe_jobs (r1 ++ r2 ++ r3 ++ r4) limit) as [|j found].
  - eexists. split; [done|].
    rewrite mocked_jobs_length, mocked_jobs_take by lia.
    split_and!; [lia|lia|done].
  - eexists. split; [done|]. cbn [length] in *. split_and!; [lia|lia|done].
Qed.

Lemma find_jobs_nonempty_bounded_witness :
  let request :=
    {| req_analysis := profile_of [lit "data analyst"] [lit "sql"] [lit "any"];
       req_location := Some (lit "Amman"); req_limit := 70 |} in
  let keywords := lit "data analyst sql any" in
  search_jobs_remotive offline keywords 50 = Ok [] ∧
  search_jobs_remoteok offline keywords 50 = Ok [] ∧
  search_jobs_arbeitnow no_keys offline keywords 50 = Ok [] ∧
  search_jobs_adzuna no_keys offline keywords (Some (lit "Amman")) 50 = Ok [] ∧
  ∃ jobs, find_jobs no_keys offline request = Ok jobs ∧
          1 ≤ length jobs ∧ (Z.of_nat (length jobs) ≤ 50)%Z.
Proof.
  intros request keywords.
  destruct (find_jobs_nonempty_bounded no_keys offline request [] [] [] []
              eq_refl eq_refl eq_refl eq_refl) as (_ & jobs & E & Hl & Hu & _).
  split_and!; [reflexivity..|].
  exists jobs. split_and!; [exact E|exact Hl|exact Hu].
Defined.

(** With no provider answering, the two placeholders are returned. *)
Example find_jobs_fallback :
  find_jobs no_keys offline
    {| req_analysis := profile_of [lit "data analyst"] [lit "sql"] [lit "any"];
       req_location := Some (lit "Amman"); req_limit := 70 |}
  = Ok (base_jobs (profile_of [lit "data analyst"] [lit "sql"] [lit "any"])
                  (lit "Amman")).
Proof. vm_compute. reflexivity. Qed.

(** C2.  The caller does not always receive a response.  When a provider
    answers with a JSON list in place of an object (here Remotive, with
    the empty list, while every other exchange fails), [find_jobs] raises
    [AttributeError], whatever the profile, the location and the limit.
    With the empty object in place of the list, the same request is
    answered with the placeholders built from the profile and the
    location, one when the limit is at most 1 and two otherwise. *)
Theorem find_jobs_fails_on_list_body (request : FindJobsRequest) :
  find_jobs no_keys remotive_list request = Raise AttributeError ∧
  find_jobs no_keys remotive_object request =
    Ok (mocked_jobs (req_analysis request)
          (location_or_default no_keys (req_location request))
          (clamp_limit (req_limit request))) ∧
  1 ≤ length (mocked_jobs (req_analysis request)
                (location_or_default no_keys (req_location request))
                (clamp_limit (req_limit request))) ≤ 2.
Proof.
  split_and!; [reflexivity|reflexivity| |];
    rewrite mocked_jobs_length by apply clamp_limit_range;
    pose proof (clamp_limit_range (req_limit request)); lia.
Qed.

(** ** The provider adapters *)

(** Inversion of a sequence of two computations that returned. *)
Ltac bind_ok H :=
  match type of H with
  | (?m ≫= _) = Ok _ =>
      let E := fresh "E" in
      destruct m eqn:E; cbn [mbind result_bind] in H; [|discriminate H]
  end.

Lemma make_job_description t c l d a src j :
  make_job t c l d a src = Ok j → JStr (description j) = d.
Proof.
  unfold make_job. intros H. repeat bind_ok H.
  destruct d; try discriminate. by simplify_eq/=.
Qed.

Lemma strip_html_of_Ok v desc :
  strip_html_of v = Ok desc → ∃ raw, desc = _strip_html raw.
Proof.
  unfold strip_html_of. destruct (py_or v (JStr [])); try discriminate.
  intros [= <-]. eauto.
Qed.

Lemma sanitized_snoc results j desc t c l a src :
  Forall sanitized results →
  (∃ raw, desc = _strip_html raw) →
  make_job t c l (JStr (take 400 desc)) a src = Ok j →
  Forall sanitized (results ++ [j]).
Proof.
  intros Hrs (raw & ->) Hj. apply Forall_app. split; [done|].
  apply Forall_singleton. exists raw.
  apply make_job_description in Hj. by simplify_eq.
Qed.

(** The end of one round of an adapter's loop: the new posting is
    appended, and the loop stops or goes on. *)
Ltac loop_round IH H :=
  match goal with
  | Hs : strip_html_of _ = Ok _, Hj : make_job _ _ _ _ _ _ = Ok ?j,
    Hrs : Forall sanitized ?results |- _ =>
      let Hrs' := fresh "Hrs" in
      assert (Forall sanitized (results ++ [j])) as Hrs'
        by (eapply sanitized_snoc;
            [exact Hrs|eapply strip_html_of_Ok, Hs|exact Hj]);
      destruct (reached _ _); [by simplify_eq|by eapply IH]
  end.

Lemma remotive_loop_sanitized keywords limit items results out :
  Forall sanitized results →
  remotive_loop keywords limit items results = Ok out →
  Forall sanitized out.
Proof.
  revert results. induction items as [|item rest IH]; intros results Hrs H.
  { cbn in H. by simplify_eq. }
  cbn [remotive_loop] in H. repeat bind_ok H.
  destruct (negb _); [by eapply IH|]. bind_ok H.
  loop_round IH H.
Qed.

Lemma remoteok_loop_sanitized keywords limit items results out :
  Forall sanitized results →
  remoteok_loop keywords limit items results = Ok out →
  Forall sanitized out.
Proof.
  revert results. induction items as [|item rest IH]; intros results Hrs H.
  { cbn in H. by simplify_eq. }
  destruct item; cbn [remoteok_loop] in H; try by eapply IH.
  repeat bind_ok H.
  destruct (negb _); [by eapply IH|]. bind_ok H.
  loop_round IH H.
Qed.

Lemma arbeitnow_loop_sanitized cfg keywords limit items results out :
  Forall sanitized results →
  arbeitnow_loop cfg keywords limit items results = Ok out →
  Forall sanitized out.
Proof.
  revert results. induction items as [|item rest IH]; intros results Hrs H.
  { cbn in H. by simplify_eq. }
  destruct item; cbn [arbeitnow_loop] in H; try by eapply IH.
  repeat bind_ok H.
  destruct (negb _); [by eapply IH|]. bind_ok H.
  loop_round IH H.
Qed.

(** The three key-less adapters return only postings whose description
    went through [_strip_html] before being cut at 400 characters. *)
Lemma free_adapters_sanitize cfg w keywords limit out :
  search_jobs_remotive w keywords limit = Ok out ∨
  search_jobs_remoteok w keywords limit = Ok out ∨
  search_jobs_arbeitnow cfg w keywords limit = Ok out →
  Forall sanitized out.
Proof.
  intros [H|[H|H]].
  - unfold search_jobs_remotive in H.
    destruct (remotive_response w); [by simplify_eq|].
    do 2 bind_ok H. by eapply remotive_loop_sanitized.
  - unfold search_jobs_remoteok in H.
    repeat case_match; simplify_eq; try done;
      by eapply remoteok_loop_sanitized.
  - unfold search_jobs_arbeitnow in H.
    repeat case_match; simplify_eq; try done;
      by eapply arbeitnow_loop_sanitized.
Qed.

Lemma sanitized_bounded (j : JobItem) :
  sanitized j → length (description j) ≤ 400.
Proof. intros (raw & ->). rewrite length_take. lia. Qed.

Lemma adzuna_item_bounded cfg location item j :
  adzuna_item cfg location item = Ok j → length (description j) ≤ 400.
Proof.
  unfold adzuna_item. intros H. repeat bind_ok H.
  apply make_job_description in H.
  match goal with
  | Hd : (if truthy ?d then _ else _) = Ok _ |- _ =>
      destruct (truthy d); [destruct d|]; cbn [py_slice_to] in *; simplify_eq
  end;
  match goal with
  | Hd : _ = description j |- _ => rewrite <-Hd
  end; [rewrite length_take|cbn]; lia.
Qed.

Lemma mapM_adzuna_bounded cfg location items out :
  mapM (adzuna_item cfg location) items = Ok out →
  Forall (fun j => length (description j) ≤ 400) out.
Proof.
  revert out. induction items as [|item rest IH]; intros out H.
  { unfold mapM, mret, result_ret in H. simplify_eq. constructor. }
  cbn [mapM] in H. repeat bind_ok H.
  unfold mret, result_ret in H. simplify_eq.
  constructor; [by eapply adzuna_item_bounded|by apply IH].
Qed.

(** The bound of 400 characters holds for the postings of all four
    adapters. *)
Lemma descriptions_bounded cfg w keywords location limit out :
  search_jobs_remotive w keywords limit = Ok out ∨
  search_jobs_remoteok w keywords limit = Ok out ∨
  search_jobs_arbeitnow cfg w keywords limit = Ok out ∨
  search_jobs_adzuna cfg w keywords location limit = Ok out →
  Forall (fun j => length (description j) ≤ 400) out.
Proof.
  intros H.
  assert (Forall sanitized out ∨
          search_jobs_adzuna cfg w keywords location limit = Ok out)
    as [Hs|Ha].
  { destruct H as [H|[H|[H|H]]]; [left..|by right];
      apply (free_adapters_sanitize cfg w keywords limit out); tauto. }
  - eapply Forall_impl; [exact Hs|]. apply sanitized_bounded.
  - unfold search_jobs_adzuna in Ha.
    destruct (negb _); [simplify_eq; constructor|].
    destruct (adzuna_response w); [simplify_eq; constructor|].
    repeat bind_ok Ha. by eapply mapM_adzuna_bounded.
Qed.

(** C5.  The Adzuna adapter cuts the description at 400 characters but
    does not strip markup: a description with tags reaches the posting
    unchanged, whereas the Remotive adapter sanitizes the same record. *)
Theorem search_jobs_adzuna_keeps_markup :
  fmap (M := list) description <$>
    search_jobs_adzuna adzuna_keys marked_up_world (lit "developer") None 20
  = Ok [lit "<b>Senior</b> developer<br>Remote"] ∧
  fmap (M := list) description <$>
    search_jobs_remotive marked_up_world (lit "developer") 20
  = Ok [_strip_html (lit "<b>Senior</b> developer<br>Remote")] ∧
  _strip_html (lit "<b>Senior</b> developer<br>Remote")
  = lit "Senior developer" ++ [newline] ++ lit "Remote".
Proof. split_and!; vm_compute; reflexivity. Qed.

(** C6.  A response whose body is a JSON list instead of an object makes
    the Remotive and the Adzuna adapter raise [AttributeError] to the
    caller, and [find_jobs] with them, whereas the Arbeitnow and Remote OK
    adapters, which test the shape, return no posting. *)
Theorem adapters_raise_on_list_body (keywords : str) (limit : Z) :
  search_jobs_remotive bare_lists keywords limit = Raise AttributeError ∧
  search_jobs_adzuna adzuna_keys bare_lists keywords None limit
    = Raise AttributeError ∧
  search_jobs_arbeitnow adzuna_keys bare_lists keywords limit = Ok [] ∧
  search_jobs_remoteok bare_lists keywords limit = Ok [] ∧
  ∀ request, find_jobs adzuna_keys bare_lists request = Raise AttributeError.
Proof. split_and!; reflexivity. Qed.

(** The adapters that test the shape of the body still raise on a
    malformed record: tags that are not strings make [join] fail. *)
Example search_jobs_arbeitnow_raises (keywords : str) (limit : Z) :
  search_jobs_arbeitnow no_keys numeric_tags keywords limit = Raise TypeError.
Proof. reflexivity. Qed.

(** ** Recommended job types *)

Lemma job_types_offline (order : gset str → list str) (cv_text : str) :
  recommended_job_types (analyze_cv_rule_based order cv_text) =
  match job_types_of (lower cv_text) with
  | [] => [lit "any"]
  | types => types
  end.
Proof.
  unfold analyze_cv_rule_based. cbn [recommended_job_types].
  rewrite str_or_empty. by destruct (job_types_of _).
Qed.

Lemma wrapped_types_empty (v : json) (types : list str) :
  as_str_list (wrap_str (py_or v (JList []))) = Ok types →
  truthy v = false ↔ types = [].
Proof.
  unfold py_or. intros Ht.
  destruct (truthy v) eqn:Htr; cbn in Ht; [|by simplify_eq].
  split; [done|intros ->].
  destruct v as [| | |s|[|x l]|]; cbn in Ht, Htr; try done.
  repeat bind_ok Ht. simplify_eq.
Qed.

(** C7, as the code has it.  The offline extractor, which is also what
    [call_hf_for_analysis] returns when no token is configured, never
    returns an empty [recommended_job_types]: it returns the matched
    types, and [any] alone when none matched.  With a token configured,
    a returned profile carries the decoded field (a lone string wrapped
    into a list), and the empty list when the field is missing, null or
    empty. *)
Theorem recommended_job_types_by_mode (cfg : Config) (w : World)
    (order : gset str → list str) (cv_text : str) :
  recommended_job_types (analyze_cv_rule_based order cv_text) ≠ [] ∧
  recommended_job_types (analyze_cv_rule_based order cv_text) =
    match job_types_of (lower cv_text) with
    | [] => [lit "any"]
    | types => types
    end ∧
  if configured (HF_TOKEN cfg)
  then match call_hf_for_analysis cfg w order cv_text with
       | Ok p =>
           ∃ v, py_get (hf_data w) (lit "recommended_job_types") = Ok v ∧
                as_str_list (wrap_str (py_or v (JList []))) =
                  Ok (recommended_job_types p) ∧
                (truthy v = false ↔ recommended_job_types p = [])
       | Raise _ => True
       end
  else call_hf_for_analysis cfg w order cv_text =
       Ok (analyze_cv_rule_based order cv_text).
Proof.
  split_and!.
  - rewrite job_types_offline. by destruct (job_types_of _).
  - apply job_types_offline.
  - unfold call_hf_for_analysis.
    destruct (configured (HF_TOKEN cfg)); [|done]. cbn [negb].
    destruct (_ ≫= _) as [p|e] eqn:H; [|done].
    repeat bind_ok H. simplify_eq. cbn [recommended_job_types].
    eexists. split; [reflexivity|].
    match goal with
    | |- as_str_list (wrap_str (py_or ?v _)) = Ok ?types ∧ _ =>
        assert (as_str_list (wrap_str (py_or v (JList []))) = Ok types)
          as Ht by assumption;
        split; [exact Ht|]; apply (wrapped_types_empty v types Ht)
    end.
Qed.

(** C7, as the specification words it, fails: with a token configured and
    the external call failing, the returned profile has no recommended job
    type at all. *)
Lemma call_hf_for_analysis_empty_types :
  call_hf_for_analysis hf_key offline elements
    (lit "Remote Python developer, 5 years of experience, full-time.")
  = Ok {| job_titles := []; skills := []; experience_level := lit "unknown";
          recommended_job_types := []; summary := Some [] |}.
Proof. vm_compute. reflexivity. Qed.

(** ** The matcher *)

Lemma starts_with_app (p s : str) :
  starts_with p s = true ↔ ∃ r, s = p ++ r.
Proof.
  revert s. induction p as [|a p IH]; intros s; cbn.
  { split; [eauto|done]. }
  destruct s as [|b s]; [split; [done|by intros [r ?]]|].
  rewrite andb_true_iff, bool_decide_eq_true, IH. split.
  - intros [-> [r ->]]. eauto.
  - intros [r [= -> ->]]. eauto.
Qed.

Lemma forallb_app_iff (p : ascii → bool) (a b : str) :
  all_of p (a ++ b) ↔ all_of p a ∧ all_of p b.
Proof. unfold all_of. rewrite forallb_app, andb_true_iff. done. Qed.

Lemma all_of_elem_of (p : ascii → bool) (s : str) c :
  all_of p s → c ∈ s → p c = true.
Proof.
  unfold all_of. rewrite forallb_forall. intros H Hc.
  apply H. by apply list_elem_of_In.
Qed.

Lemma span_length p hi s : span p hi s ≤ length s.
Proof.
  revert hi. induction s as [|c r IH]; intros hi.
  { by destruct hi as [[|h]|]. }
  destruct hi as [[|h]|]; cbn; [lia| |]; destruct (p c); cbn; try lia.
  - specialize (IH (Some h)). cbn in IH. lia.
  - specialize (IH None). cbn in IH. lia.
Qed.

Lemma span_within p hi s : within hi (span p hi s).
Proof.
  revert hi. induction s as [|c r IH]; intros hi.
  { destruct hi as [[|h]|]; cbn; lia. }
  destruct hi as [[|h]|]; cbn; [lia| |done]. destruct (p c); [|lia].
  specialize (IH (Some h)). cbn in IH. lia.
Qed.

(** Every prefix not longer than the span lies in the class. *)
Lemma span_take p hi s j : j ≤ span p hi s → all_of p (take j s).
Proof.
  revert hi j. induction s as [|c r IH]; intros hi j Hj.
  { by destruct j. }
  destruct j as [|j]; [done|].
  destruct hi as [[|h]|]; cbn in Hj; [lia| |];
    destruct (p c) eqn:Hc; try lia; unfold all_of; cbn; rewrite Hc; cbn;
    eapply IH; apply Nat.succ_le_mono, Hj.
Qed.

(** The span is the longest prefix in the class that the bound allows. *)
Lemma span_longest p hi (cs r : str) :
  all_of p cs → within hi (length cs) → length cs ≤ span p hi (cs ++ r).
Proof.
  revert hi. induction cs as [|c cs IH]; intros hi Hall Hw; [cbn; lia|].
  unfold all_of in Hall. cbn in Hall. apply andb_true_iff in Hall as [Hc Hall].
  destruct hi as [[|h]|]; cbn in *; [lia| |]; rewrite Hc; cbn.
  - apply le_n_S, (IH (Some h)); [done|cbn; lia].
  - apply le_n_S, (IH None); done.
Qed.

Lemma advance_reach (st : mstate) (j : nat) :
  j ≤ length (m_rest st) → reach st (advance st j) (take j (m_rest st)).
Proof.
  intros Hj. unfold reach, advance. cbn.
  rewrite take_drop, length_take. split_and!; [done|lia|done|done].
Qed.

Lemma reach_refl st : reach st st [].
Proof. unfold reach. cbn. split_and!; [done|lia|done|done]. Qed.

Lemma reach_trans st1 st2 st3 cs1 cs2 :
  reach st1 st2 cs1 → reach st2 st3 cs2 → reach st1 st3 (cs1 ++ cs2).
Proof.
  intros (R1 & L1 & G1 & P1) (R2 & L2 & G2 & P2). unfold reach.
  rewrite length_app, last_app, <-app_assoc. split_and!.
  - by rewrite R1, R2.
  - lia.
  - congruence.
  - rewrite P2, P1. by destruct (last cs2).
Qed.

Lemma elem_of_flat_map {A B} (f : A → list B) (l : list A) (y : B) :
  y ∈ flat_map f l ↔ ∃ x, x ∈ l ∧ y ∈ f x.
Proof.
  rewrite list_elem_of_In, in_flat_map. split.
  - intros (x & ? & ?). exists x. by rewrite !list_elem_of_In.
  - intros (x & ? & ?). exists x. by rewrite <-!list_elem_of_In.
Qed.

Lemma elem_of_step_Rep p lo hi st st' :
  st' ∈ step (Rep p lo hi) st ↔
  ∃ j, st' = advance st j ∧ lo ≤ j ≤ span p hi (m_rest st).
Proof.
  cbn. destruct (Nat.leb_spec lo (span p hi (m_rest st))) as [Hle|Hgt].
  - rewrite list_elem_of_fmap. split.
    + intros (j & -> & Hj). exists j. split; [done|].
      rewrite list_elem_of_In, <-in_rev, in_seq in Hj. lia.
    + intros (j & -> & Hj). exists j. split; [done|].
      rewrite list_elem_of_In, <-in_rev, in_seq. lia.
  - split; [by intros ?%elem_of_nil|]. intros (j & _ & Hj). lia.
Qed.

Lemma step_Rep_sound p lo hi st st' :
  st' ∈ step (Rep p lo hi) st →
  ∃ cs, reach st st' cs ∧ all_of p cs ∧ lo ≤ length cs ∧
        within hi (length cs).
Proof.
  intros (j & -> & Hlo & Hhi)%elem_of_step_Rep.
  pose proof (span_length p hi (m_rest st)) as Hlen.
  pose proof (span_within p hi (m_rest st)) as Hw.
  exists (take j (m_rest st)). rewrite length_take.
  split_and!; [apply advance_reach; lia|by eapply span_take|lia|].
  destruct hi; cbn in *; lia.
Qed.

Lemma step_Rep_complete p lo hi st (cs r : str) :
  m_rest st = cs ++ r → all_of p cs → lo ≤ length cs →
  within hi (length cs) →
  advance st (length cs) ∈ step (Rep p lo hi) st.
Proof.
  intros Hr Hall Hlo Hw. apply elem_of_step_Rep. eexists. split; [done|].
  split; [done|]. rewrite Hr. by apply span_longest.
Qed.

Lemma advance_rest st (cs r : str) :
  m_rest st = cs ++ r → m_rest (advance st (length cs)) = r.
Proof. intros Hr. cbn. by rewrite Hr, drop_app_length. Qed.

Lemma advance_group st j : m_group (advance st j) = m_group st.
Proof. done. Qed.

Lemma advance_prev st (cs r : str) c :
  m_rest st = cs ++ r → last cs = Some c →
  m_prev (advance st (length cs)) = Some c.
Proof. intros Hr Hc. cbn. by rewrite Hr, take_app_length, Hc. Qed.

Lemma elem_of_step_lit l st st' :
  st' ∈ step_lit l st ↔
  st' = advance st (length l) ∧ ∃ r, m_rest st = l ++ r.
Proof.
  unfold step_lit. rewrite <-starts_with_app.
  destruct (starts_with l (m_rest st)).
  - rewrite list_elem_of_singleton. tauto.
  - split; [by intros ?%elem_of_nil|]. by intros [_ ?].
Qed.

Lemma step_lit_sound l st st' :
  st' ∈ step_lit l st → reach st st' l.
Proof.
  intros [-> [r Hr]]%elem_of_step_lit.
  pose proof (advance_reach st (length l)) as H.
  rewrite Hr, take_app_length, length_app in H. apply H. lia.
Qed.

Lemma elem_of_step_Alt alts st st' :
  st' ∈ step (Alt alts) st ↔ ∃ l, l ∈ alts ∧ st' ∈ step_lit l st.
Proof. cbn. apply elem_of_flat_map. Qed.

Lemma elem_of_step_WordBoundary st st' :
  st' ∈ step WordBoundary st ↔
  st' = st ∧ xorb (word_before st) (word_after st) = true.
Proof.
  cbn. destruct (xorb _ _).
  - rewrite list_elem_of_singleton. tauto.
  - split; [by intros ?%elem_of_nil|]. by intros [_ ?].
Qed.

Lemma elem_of_step_Group a st st' :
  st' ∈ step (Group a) st ↔ ∃ st1, st1 ∈ step a st ∧ st' = set_group st st1.
Proof.
  cbn [step]. rewrite list_elem_of_fmap. unfold set_group.
  split; intros (st1 & ? & ?); exists st1; done.
Qed.

Lemma elem_of_run_cons a re st st' :
  st' ∈ run (a :: re) st ↔ ∃ st1, st1 ∈ step a st ∧ st' ∈ run re st1.
Proof. cbn [run]. apply elem_of_flat_map. Qed.

Lemma elem_of_run_nil st st' : st' ∈ run [] st ↔ st' = st.
Proof. cbn. apply list_elem_of_singleton. Qed.

Lemma head_elem_of {A} (l : list A) x : head l = Some x → x ∈ l.
Proof. destruct l; intros [= ->]. by left. Qed.

Lemma head_is_Some {A} (l : list A) x : x ∈ l → ∃ y, head l = Some y.
Proof. destruct l; [by intros ?%elem_of_nil|]. eauto. Qed.

(** ** The pattern of the years *)

Lemma RE_YEARS_split :
  RE_YEARS = Group (Rep is_digit 1 (Some 2)) :: YEARS_TAIL.
Proof. reflexivity. Qed.

Lemma plus_sign (cs : str) :
  all_of (is_char "+") cs → length cs ≤ 1 → cs = [] ∨ cs = lit "+".
Proof.
  destruct cs as [|c [|c' cs]]; cbn; intros Hall Hlen; [by left| |lia].
  right. unfold all_of in Hall. cbn in Hall.
  rewrite andb_true_r in Hall. unfold is_char in Hall.
  apply bool_decide_eq_true in Hall. by subst.
Qed.

Lemma unit_last (unit : str) :
  unit = lit "years" ∨ unit = lit "yrs" → last unit = Some "s"%char.
Proof. by intros [-> | ->]. Qed.

Lemma tail_sound st st' :
  st' ∈ run YEARS_TAIL st →
  ∃ mid, reach st st' mid ∧ years_suffix mid ∧ word_end (m_rest st').
Proof.
  unfold YEARS_TAIL.
  intros (st1 & H1 & H)%elem_of_run_cons.
  apply elem_of_run_cons in H as (st2 & H2 & H).
  apply elem_of_run_cons in H as (st3 & H3 & H).
  apply elem_of_run_cons in H as (st4 & H4 & H).
  apply elem_of_run_cons in H as (st5 & H5 & H).
  apply elem_of_run_nil in H as ->.
  apply step_Rep_sound in H1 as (ws1 & R1 & A1 & _ & _).
  apply step_Rep_sound in H2 as (plus & R2 & A2 & _ & W2).
  apply step_Rep_sound in H3 as (ws2 & R3 & A3 & _ & _).
  apply elem_of_step_Alt in H4 as (unit & Hunit & H4).
  apply step_lit_sound in H4 as R4.
  apply elem_of_step_WordBoundary in H5 as [-> Hb].
  assert (unit = lit "years" ∨ unit = lit "yrs") as Hu.
  { apply elem_of_cons in Hunit as [?|Hunit]; [by left|].
    apply list_elem_of_singleton in Hunit. by right. }
  exists (ws1 ++ plus ++ ws2 ++ unit). split_and!.
  - eauto using reach_trans.
  - exists ws1, plus, ws2, unit. split_and!; try done.
    by apply plus_sign.
  - destruct R4 as (_ & _ & _ & P4). rewrite (unit_last unit Hu) in P4.
    unfold word_before in Hb. rewrite P4 in Hb.
    change (is_word "s") with true in Hb. cbn [xorb] in Hb.
    unfold word_after in Hb. unfold word_end.
    destruct (m_rest st4); [done|]. by apply negb_true_iff.
Qed.

Lemma all_of_plus (plus : str) :
  plus = [] ∨ plus = lit "+" →
  all_of (is_char "+") plus ∧ length plus ≤ 1.
Proof. intros [-> | ->]; split; try done; cbn; lia. Qed.

Lemma tail_complete st (mid rest : str) :
  m_rest st = mid ++ rest → years_suffix mid → word_end rest →
  ∃ st', st' ∈ run YEARS_TAIL st ∧ m_group st' = m_group st.
Proof.
  intros Hr (ws1 & plus & ws2 & unit & -> & A1 & Hp & A3 & Hu) Hend.
  rewrite <-!app_assoc in Hr.
  apply all_of_plus in Hp as [A2 L2].
  set (st1 := advance st (length ws1)).
  set (st2 := advance st1 (length plus)).
  set (st3 := advance st2 (length ws2)).
  set (st4 := advance st3 (length unit)).
  pose proof (advance_rest st _ _ Hr) as Hr1. fold st1 in Hr1.
  pose proof (advance_rest st1 _ _ Hr1) as Hr2. fold st2 in Hr2.
  pose proof (advance_rest st2 _ _ Hr2) as Hr3. fold st3 in Hr3.
  pose proof (advance_rest st3 _ _ Hr3) as Hr4. fold st4 in Hr4.
  exists st4. split; [|done]. unfold YEARS_TAIL.
  apply elem_of_run_cons. exists st1. split.
  { eapply step_Rep_complete; [exact Hr|done|lia|done]. }
  apply elem_of_run_cons. exists st2. split.
  { eapply step_Rep_complete; [exact Hr1|done|lia|done]. }
  apply elem_of_run_cons. exists st3. split.
  { eapply step_Rep_complete; [exact Hr2|done|lia|done]. }
  apply elem_of_run_cons. exists st4. split.
  { apply elem_of_step_Alt. exists unit. split.
    - destruct Hu as [-> | ->]; [by left|by right; left].
    - apply elem_of_step_lit. eauto. }
  apply elem_of_run_cons. exists st4. split; [|by apply elem_of_run_nil].
  apply elem_of_step_WordBoundary. split; [done|].
  pose proof (advance_prev st3 unit rest "s" Hr3 (unit_last unit Hu)) as Hp4.
  fold st4 in Hp4. unfold word_before, word_after. rewrite Hp4, Hr4.
  change (is_word "s") with true.
  destruct rest; [done|]. cbn in Hend. by rewrite Hend.
Qed.

Lemma digits_sound st st1 :
  st1 ∈ step (Group (Rep is_digit 1 (Some 2))) st →
  ∃ ds, m_rest st = ds ++ m_rest st1 ∧ m_len st1 = m_len st + length ds ∧
        m_group st1 = ds ∧ m_prev st1 = last ds ∧
        all_of is_digit ds ∧ 1 ≤ length ds ≤ 2.
Proof.
  intros (st0 & H0 & ->)%elem_of_step_Group.
  apply step_Rep_sound in H0 as (ds & (R & L & G & P) & A & Hlo & Hhi).
  exists ds. unfold set_group. cbn. cbn in Hhi.
  split_and!; try done.
  - rewrite L, R. replace (m_len st + length ds - m_len st) with (length ds)
      by lia. apply take_app_length.
  - rewrite P. destruct ds; [cbn in Hlo; lia|].
    by destruct (last (a :: ds)) eqn:E; [|apply last_None in E].
Qed.

(** The shape of every way [RE_YEARS] matches at the start of [s]. *)
Lemma years_match_shape prev s m :
  m ∈ run RE_YEARS (MState prev s 0 []) →
  ∃ ds mid,
    s = ds ++ mid ++ m_rest m ∧ m_group m = ds ∧
    m_len m = length ds + length mid ∧
    all_of is_digit ds ∧ 1 ≤ length ds ≤ 2 ∧
    years_suffix mid ∧ word_end (m_rest m).
Proof.
  rewrite RE_YEARS_split. intros (st1 & H1 & H)%elem_of_run_cons.
  apply digits_sound in H1 as (ds & R1 & L1 & G1 & _ & A & Hlen).
  apply tail_sound in H as (mid & (R & L & G & _) & Hmid & Hend).
  exists ds, mid. cbn in R1, L1.
  split_and!; try done; [by rewrite R1, R|congruence|lia..].
Qed.

Lemma digit_value_nonneg c : (0 ≤ digit_value c)%Z.
Proof. unfold digit_value. lia. Qed.

Lemma int_of_digits_one d : int_of_digits [d] = digit_value d.
Proof. unfold int_of_digits. cbn. lia. Qed.

Lemma int_of_digits_two d1 d2 :
  int_of_digits [d1; d2] = (digit_value d1 * 10 + digit_value d2)%Z.
Proof. unfold int_of_digits. cbn. lia. Qed.

Lemma foldl_digits_nonneg ds (acc : Z) :
  (0 ≤ acc)%Z →
  (0 ≤ foldl (fun a c => (a * 10 + digit_value c)%Z) acc ds)%Z.
Proof.
  revert acc. induction ds as [|d ds IH]; intros acc Hacc; cbn; [done|].
  apply IH. pose proof (digit_value_nonneg d). lia.
Qed.

Lemma int_of_digits_nonneg ds : (0 ≤ int_of_digits ds)%Z.
Proof. by apply foldl_digits_nonneg. Qed.

(** Two readings of the number at the same place: the longer is the
    larger. *)
Lemma digits_prefix_le (ds ds' r r' : str) :
  ds ++ r = ds' ++ r' → length ds = 1 → 1 ≤ length ds' ≤ 2 →
  (int_of_digits ds ≤ int_of_digits ds')%Z.
Proof.
  intros E H1 H2.
  destruct ds as [|d [|]]; cbn in H1; try lia.
  destruct ds' as [|d1 [|d2 [|]]]; cbn in H2; try lia;
    cbn in E; injection E as <- _.
  - done.
  - rewrite int_of_digits_one, int_of_digits_two.
    pose proof (digit_value_nonneg d). pose proof (digit_value_nonneg d2). lia.
Qed.

Lemma span_zero p s : span p (Some 0) s = 0.
Proof. by destruct s. Qed.

Lemma digits_two prev d1 d2 r :
  is_digit d1 = true → is_digit d2 = true →
  step (Group (Rep is_digit 1 (Some 2))) (MState prev (d1 :: d2 :: r) 0 []) =
  [ MState (Some d2) r 2 [d1; d2]; MState (Some d1) (d2 :: r) 1 [d1] ].
Proof.
  intros H1 H2. cbn. rewrite H1. cbn. rewrite H2. cbn.
  by rewrite span_zero.
Qed.

(** Where a phrase starts, the pattern matches, and the number it captures
    is at least the number of the phrase. *)
Lemma years_match_complete prev s v :
  years_phrase s v →
  ∃ m, match_at RE_YEARS prev s = Some m ∧ (v ≤ int_of_digits (m_group m))%Z.
Proof.
  intros (ds & mid & rest & -> & Hlen & Hds & Hmid & Hend & ->).
  set (st0 := MState prev (ds ++ mid ++ rest) 0 []).
  set (st1 := set_group st0 (advance st0 (length ds))).
  assert (st1 ∈ step (Group (Rep is_digit 1 (Some 2))) st0) as H1.
  { apply elem_of_step_Group. eexists. split; [|done].
    eapply (step_Rep_complete _ _ _ st0 ds); [done|done|lia|cbn; lia]. }
  assert (m_rest st1 = mid ++ rest) as Hr1.
  { unfold st1, set_group. cbn. by rewrite drop_app_length. }
  assert (m_group st1 = ds) as Hg1.
  { unfold st1, set_group. cbn.
    replace (length ds - 0) with (length ds) by lia. apply take_app_length. }
  destruct (tail_complete st1 mid rest Hr1 Hmid Hend) as (st' & Hst' & Hg').
  assert (st' ∈ run RE_YEARS st0) as Hrun.
  { rewrite RE_YEARS_split. apply elem_of_run_cons. eauto. }
  unfold match_at. fold st0.
  destruct (head_is_Some _ _ Hrun) as (m & Hm). exists m. split; [done|].
  destruct (decide (length ds = 1)) as [Hone|Htwo].
  - apply head_elem_of, years_match_shape in Hm
      as (ds' & mid' & E & -> & _ & _ & Hlen' & _).
    by eapply digits_prefix_le.
  - destruct ds as [|d1 [|d2 [|]]]; cbn in Hlen, Htwo; try lia.
    unfold all_of in Hds. cbn in Hds. rewrite andb_true_r in Hds.
    apply andb_true_iff in Hds as [Hd1 Hd2].
    rewrite RE_YEARS_split in Hm. cbn [run] in Hm.
    unfold st0 in Hm. cbn [app] in Hm.
    rewrite (digits_two prev d1 d2 _ Hd1 Hd2) in Hm. cbn [flat_map] in Hm.
    assert (st1 = MState (Some d2) (mid ++ rest) 2 [d1; d2]) as Est1
      by reflexivity.
    rewrite Est1 in Hst'.
    destruct (run YEARS_TAIL (MState (Some d2) (mid ++ rest) 2 [d1; d2]))
      as [|x xs] eqn:Ex; [by apply elem_of_nil in Hst'|].
    cbn in Hm. simplify_eq.
    assert (m ∈ run YEARS_TAIL (MState (Some d2) (mid ++ rest) 2 [d1; d2]))
      as Hin by (rewrite Ex; by left).
    apply tail_sound in Hin as (mid' & (_ & _ & G & _) & _). rewrite G. done.
Qed.

Lemma phrase_starts_with_digit s v :
  years_phrase s v → ∃ c t, s = c :: t ∧ is_digit c = true.
Proof.
  intros (ds & mid & rest & -> & Hlen & Hds & _).
  destruct ds as [|c ds]; [cbn in Hlen; lia|].
  unfold all_of in Hds. cbn in Hds. apply andb_true_iff in Hds as [Hc _].
  eauto.
Qed.

Lemma space_not_digit c : is_space c = true → is_digit c = false.
Proof. destruct c as [[] [] [] [] [] [] [] []]; by vm_compute. Qed.

Lemma suffix_no_digit mid c :
  years_suffix mid → c ∈ mid → is_digit c = false.
Proof.
  intros (ws1 & plus & ws2 & unit & -> & A1 & Hp & A2 & Hu).
  rewrite !elem_of_app. intros [H|[H|[H|H]]].
  - eauto using space_not_digit, all_of_elem_of.
  - destruct Hp as [-> | ->]; [by apply elem_of_nil in H|].
    apply list_elem_of_singleton in H. by subst.
  - eauto using space_not_digit, all_of_elem_of.
  - destruct Hu as [-> | ->]; repeat (apply elem_of_cons in H as [->|H]);
      try done; by apply elem_of_nil in H.
Qed.

Lemma suffix_nonempty mid : years_suffix mid → mid ≠ [].
Proof.
  intros (ws1 & plus & ws2 & unit & -> & _ & _ & _ & Hu) E.
  apply app_eq_nil in E as [_ E]. apply app_eq_nil in E as [_ E].
  apply app_eq_nil in E as [_ E]. by destruct Hu; subst.
Qed.

(** A phrase that starts inside a match does not exceed it. *)
Lemma years_match_overlap prev s m i v :
  match_at RE_YEARS prev s = Some m → 1 ≤ i < m_len m →
  years_phrase (drop i s) v → (v ≤ int_of_digits (m_group m))%Z.
Proof.
  intros Hm Hi Hv. unfold match_at in Hm.
  apply head_elem_of, years_match_shape in Hm
    as (ds & mid & -> & -> & Hlen & Hds & Hds2 & Hmid & _).
  pose proof (suffix_nonempty mid Hmid) as Hne.
  destruct (decide (i < length ds)) as [Hlt|Hge].
  - destruct ds as [|d1 [|d2 [|]]]; cbn in Hds2, Hlt; try lia.
    assert (i = 1) as -> by lia. cbn [app drop] in Hv.
    destruct Hv as (ds' & mid' & rest' & E & Hlen' & Hds' & _ & _ & ->).
    destruct ds' as [|c1 [|c2 [|]]]; cbn in Hlen'; try lia.
    + injection E as <-. rewrite int_of_digits_one, int_of_digits_two.
      pose proof (digit_value_nonneg d1). lia.
    + destruct mid as [|c mid]; [done|]. cbn in E. simplify_eq.
      unfold all_of in Hds'. cbn in Hds'.
      rewrite andb_true_r in Hds'. apply andb_true_iff in Hds' as [_ Hc].
      rewrite (suffix_no_digit (c2 :: mid) c2) in Hc; [done|done|by left].
  - apply phrase_starts_with_digit in Hv as (c & t & E & Hc).
    rewrite drop_app_ge in E by lia.
    rewrite drop_app_le in E by lia.
    destruct (drop (i - length ds) mid) as [|c' t'] eqn:Ed.
    { apply (f_equal length) in Ed. rewrite length_drop in Ed. cbn in Ed. lia. }
    cbn in E. simplify_eq.
    rewrite (suffix_no_digit mid c) in Hc; [done|done|].
    apply (subseteq_drop (i - length ds) mid). rewrite Ed. by left.
Qed.

Lemma years_match_phrase prev s m :
  match_at RE_YEARS prev s = Some m →
  years_phrase s (int_of_digits (m_group m)).
Proof.
  unfold match_at. intros Hm.
  apply head_elem_of, years_match_shape in Hm
    as (ds & mid & E & -> & _ & Hds & Hlen & Hmid & Hend).
  by exists ds, mid, (m_rest m).
Qed.

Lemma years_mentioned_cons c s v :
  years_mentioned s v → years_mentioned (c :: s) v.
Proof. intros (before & t & -> & H). by exists (c :: before), t. Qed.

Lemma years_mentioned_drop text v :
  years_mentioned text v ↔ ∃ i, years_phrase (drop i text) v.
Proof.
  split.
  - intros (before & s & -> & H). exists (length before).
    by rewrite drop_app_length.
  - intros (i & H). exists (take i text), (drop i text).
    by rewrite take_drop.
Qed.

Lemma hits_Hit m ts : hits (Hit m :: ts) = m :: hits ts.
Proof. reflexivity. Qed.

Lemma hits_Gap c ts : hits (Gap c :: ts) = hits ts.
Proof. reflexivity. Qed.

(** Every match of the scan is a phrase of the text. *)
Lemma scan_sound skip prev s m :
  m ∈ hits (scan RE_YEARS skip prev s) →
  years_mentioned s (int_of_digits (m_group m)).
Proof.
  revert skip prev. induction s as [|c s IH]; intros skip prev Hm.
  { by apply elem_of_nil in Hm. }
  cbn [scan] in Hm. destruct skip as [|k].
  - destruct (match_at RE_YEARS prev (c :: s)) as [m0|] eqn:E.
    + rewrite hits_Hit in Hm. apply elem_of_cons in Hm as [->|Hm].
      * exists [], (c :: s). split; [done|]. by eapply years_match_phrase.
      * by eapply years_mentioned_cons, IH.
    + rewrite hits_Gap in Hm. by eapply years_mentioned_cons, IH.
  - by eapply years_mentioned_cons, IH.
Qed.

(** Every phrase of the text is matched by the scan or lies under a match
    that captured at least its number. *)
Lemma scan_cover skip prev s (bound : Z) :
  (∀ i v, i < skip → years_phrase (drop i s) v → (v ≤ bound)%Z) →
  ∀ i v, years_phrase (drop i s) v →
    (v ≤ bound)%Z ∨
    ∃ m, m ∈ hits (scan RE_YEARS skip prev s) ∧
         (v ≤ int_of_digits (m_group m))%Z.
Proof.
  revert skip prev bound.
  induction s as [|c s IH]; intros skip prev bound Hskip i v Hv.
  { rewrite drop_nil in Hv.
    by apply phrase_starts_with_digit in Hv as (? & ? & ? & _). }
  cbn [scan]. destruct skip as [|k].
  - destruct (match_at RE_YEARS prev (c :: s)) as [m|] eqn:E.
    + destruct i as [|i].
      * cbn [drop] in Hv. right.
        destruct (years_match_complete prev _ _ Hv) as (m' & E' & Hle).
        rewrite E in E'. simplify_eq. exists m'. split; [by left|done].
      * cbn [drop] in Hv.
        destruct (IH (m_len m - 1) (Some c)
                    (Z.max bound (int_of_digits (m_group m)))) with i v
          as [Hle|(m' & Hm' & Hle)]; [|done| |].
        -- intros j u Hj Hu.
           pose proof (years_match_overlap prev (c :: s) m (S j) u E) as Ho.
           cbn [drop] in Ho. specialize (Ho ltac:(lia) Hu). lia.
        -- destruct (Z.max_spec bound (int_of_digits (m_group m)))
             as [[_ Hmax]|[_ Hmax]]; rewrite Hmax in Hle.
           ++ right. exists m. split; [by left|done].
           ++ by left.
        -- right. exists m'. split; [by right|done].
    + destruct i as [|i].
      * cbn [drop] in Hv.
        destruct (years_match_complete prev _ _ Hv) as (m' & E' & _).
        by rewrite E in E'.
      * cbn [drop] in Hv. rewrite hits_Gap.
        apply (IH 0 (Some c) bound) with i; [|done]. intros; lia.
  - destruct i as [|i]; [left; by apply (Hskip 0); [lia|]|].
    cbn [drop] in Hv. apply (IH k (Some c) bound) with i; [|done].
    intros j u Hj Hu. apply (Hskip (S j)); [lia|done].
Qed.

Lemma foldl_max_init (y : Z) (ys : list Z) : (y ≤ foldl Z.max y ys)%Z.
Proof.
  revert y. induction ys as [|z ys IH]; intros y; cbn [foldl]; [done|].
  etrans; [|apply IH]. lia.
Qed.

Lemma foldl_max_ge (y : Z) (ys : list Z) (x : Z) :
  x ∈ y :: ys → (x ≤ foldl Z.max y ys)%Z.
Proof.
  revert y. induction ys as [|z ys IH]; intros y Hx.
  - apply list_elem_of_singleton in Hx. subst. done.
  - cbn [foldl]. pose proof (foldl_max_init (Z.max y z) ys) as Hinit.
    apply elem_of_cons in Hx as [Hx|Hx]; [subst; lia|].
    apply elem_of_cons in Hx as [Hx|Hx]; [subst; lia|].
    apply IH. by right.
Qed.

Lemma foldl_max_elem_of (y : Z) (ys : list Z) :
  foldl Z.max y ys ∈ y :: ys.
Proof.
  revert y. induction ys as [|z ys IH]; intros y; [by left|].
  cbn [foldl]. specialize (IH (Z.max y z)).
  apply elem_of_cons in IH as [E|IH]; [|by do 2 right].
  rewrite E. destruct (Z.max_spec y z) as [[_ ->]|[_ ->]];
    [right; left|left]; done.
Qed.

(** [max_years] is the largest number of a phrase of the text, and 0 when
    there is none. *)
Lemma max_years_spec (text : str) :
  (∀ v, years_mentioned text v → (v ≤ max_years text)%Z) ∧
  (years_mentioned text (max_years text) ∨
   (max_years text = 0%Z ∧ ∀ v, ¬ years_mentioned text v)).
Proof.
  assert (∀ v, years_mentioned text v →
               ∃ y, y ∈ years_found text ∧ (v ≤ y)%Z) as Hcover.
  { intros v (i & Hv)%years_mentioned_drop.
    destruct (scan_cover 0 None text (-1)) with i v
      as [Hneg|(m & Hm & Hle)]; [intros; lia|done| |].
    - destruct Hv as (ds & _ & _ & _ & _ & _ & _ & _ & ->).
      pose proof (int_of_digits_nonneg ds). lia.
    - exists (int_of_digits (m_group m)). split; [|done].
      unfold years_found, finditer. apply list_elem_of_fmap. eauto. }
  assert (∀ y, y ∈ years_found text → years_mentioned text y) as Hsound.
  { intros y (m & -> & Hm)%list_elem_of_fmap. by eapply scan_sound. }
  unfold max_years. destruct (years_found text) as [|y ys] eqn:E.
  - split.
    + intros v (y & Hy & _)%Hcover. by apply elem_of_nil in Hy.
    + right. split; [done|]. intros v (y & Hy & _)%Hcover.
      by apply elem_of_nil in Hy.
  - split.
    + intros v (z & Hz & Hle)%Hcover.
      etrans; [exact Hle|]. by apply foldl_max_ge.
    + left. apply Hsound, foldl_max_elem_of.
Qed.




(** The examples of the specification. *)
Example experience_level_examples :
  experience_level (analyze_cv_rule_based elements
    (lit "I have 5 years of experience in Python and enjoy remote work"))
    = lit "mid" ∧
  experience_level (analyze_cv_rule_based elements
    (lit "Intern, then 10 years as a software engineer")) = lit "student" ∧
  experience_level (analyze_cv_rule_based elements
    (lit "12+ yrs of Java")) = lit "senior" ∧
  experience_level (analyze_cv_rule_based elements
    (lit "2 yearsold projects")) = lit "unknown".
Proof. split_and!; vm_compute; reflexivity. Qed.

(** ** No pattern of the program matches the empty string *)

Lemma step_len a st st' : st' ∈ step a st → m_len st ≤ m_len st'.
Proof.
  revert st st'. induction a as [l|p lo hi|alts|a IH|]; intros st st' H.
  - apply elem_of_step_lit in H as [-> _]. cbn. lia.
  - apply elem_of_step_Rep in H as (j & -> & _). cbn. lia.
  - apply elem_of_step_Alt in H as (l & _ & H).
    apply elem_of_step_lit in H as [-> _]. cbn. lia.
  - apply elem_of_step_Group in H as (st1 & H & ->). cbn. by apply IH.
  - by apply elem_of_step_WordBoundary in H as [-> _].
Qed.

Lemma run_len re st st' : st' ∈ run re st → m_len st ≤ m_len st'.
Proof.
  revert st. induction re as [|a re IH]; intros st H.
  - by apply elem_of_run_nil in H as ->.
  - apply elem_of_run_cons in H as (st1 & H1 & H).
    apply step_len in H1. apply IH in H. lia.
Qed.

Lemma run_consuming a re st st' :
  consuming a → st' ∈ run (a :: re) st → m_len st < m_len st'.
Proof.
  intros Ha (st1 & H1 & H)%elem_of_run_cons. apply run_len in H.
  enough (m_len st < m_len st1) by lia. clear H.
  destruct a as [l|p lo hi|alts|[| p lo hi | | |]|]; cbn in Ha; try done.
  - apply elem_of_step_lit in H1 as [-> _]. cbn. lia.
  - apply elem_of_step_Rep in H1 as (j & -> & Hj & _). cbn. lia.
  - apply elem_of_step_Group in H1 as (st0 & H0 & ->).
    apply elem_of_step_Rep in H0 as (j & -> & Hj & _). cbn. lia.
Qed.

Lemma patterns_consume re prev s m :
  re ∈ [RE_YEARS; RE_BR; RE_TAG; RE_BLANK_LINES; RE_SPACES] →
  match_at re prev s = Some m → 1 ≤ m_len m.
Proof.
  intros Hre Hm. unfold match_at in Hm. apply head_elem_of in Hm.
  enough (m_len (MState prev s 0 []) < m_len m) by (cbn in *; lia).
  repeat (apply elem_of_cons in Hre as [->|Hre]);
    [eapply run_consuming; [|exact Hm]; cbn; lia..|].
  by apply elem_of_nil in Hre.
Qed.

(** * Further properties *)

(** ** Strings *)

Lemma lower_char_idemp c : lower_char (lower_char c) = lower_char c.
Proof. destruct c as [[] [] [] [] [] [] [] []]; by vm_compute. Qed.

Lemma lower_idemp s : lower (lower s) = lower s.
Proof.
  unfold lower. rewrite map_map. apply map_ext. intros c.
  apply lower_char_idemp.
Qed.

Lemma is_space_lower_char c : is_space (lower_char c) = is_space c.
Proof. destruct c as [[] [] [] [] [] [] [] []]; by vm_compute. Qed.

Lemma lower_app a b : lower (a ++ b) = lower a ++ lower b.
Proof. apply map_app. Qed.

Lemma contains_occurs_in n h : contains n h = true ↔ occurs_in n h.
Proof.
  unfold occurs_in. induction h as [|c h IH]; cbn [contains].
  - rewrite orb_false_r, starts_with_app. split.
    + intros [r E]. exists [], r. done.
    + intros (a & b & E). symmetry in E.
      apply app_eq_nil in E as [-> E]. apply app_eq_nil in E as [-> ->].
      by exists [].
  - rewrite orb_true_iff, starts_with_app, IH. split.
    + intros [[r E]|(a & b & E)].
      * by exists [], r.
      * exists (c :: a), b. by rewrite E.
    + intros ([|x a] & b & E).
      * left. by exists b.
      * right. injection E as -> E. by exists a, b.
Qed.

Lemma lstrip_split s :
  ∃ a, s = a ++ lstrip s ∧ all_of is_space a.
Proof.
  induction s as [|c s (a & E & Ha)]; [by exists []|].
  cbn [lstrip]. destruct (is_space c) eqn:Hc.
  - exists (c :: a). split; [by rewrite E at 1|].
    unfold all_of in *. cbn. by rewrite Hc, Ha.
  - by exists [].
Qed.

Lemma lstrip_head s :
  match lstrip s with [] => True | c :: _ => is_space c = false end.
Proof.
  induction s as [|c s IH]; [done|]. cbn [lstrip].
  by destruct (is_space c) eqn:Hc.
Qed.

Lemma lstrip_id s :
  match s with [] => True | c :: _ => is_space c = false end → lstrip s = s.
Proof. destruct s as [|c s]; [done|]. cbn. by intros ->. Qed.

Lemma rstrip_split s :
  ∃ b, s = rstrip s ++ b ∧ all_of is_space b.
Proof.
  unfold rstrip. destruct (lstrip_split (rev s)) as (a & E & Ha).
  exists (rev a). split.
  - rewrite <-rev_app_distr, <-E. by rewrite rev_involutive.
  - unfold all_of in *. rewrite forallb_forall in *.
    intros c Hc. apply Ha. by apply in_rev in Hc.
Qed.

Lemma rstrip_last s :
  match last (rstrip s) with None => True | Some c => is_space c = false end.
Proof.
  unfold rstrip. pose proof (lstrip_head (rev s)) as H.
  destruct (lstrip (rev s)) as [|c r]; [done|].
  change (rev (c :: r)) with (rev r ++ [c]). by rewrite last_snoc.
Qed.

(** [strip] removes white space at both ends and nothing else. *)
Lemma strip_split s :
  ∃ a b, s = a ++ strip s ++ b ∧ all_of is_space a ∧ all_of is_space b.
Proof.
  unfold strip. destruct (lstrip_split s) as (a & Ea & Ha).
  destruct (rstrip_split (lstrip s)) as (b & Eb & Hb).
  exists a, b. split_and!; [|done..]. by rewrite <-Eb.
Qed.

Lemma strip_trimmed s : trimmed (strip s).
Proof.
  unfold strip. split; [|apply rstrip_last].
  pose proof (lstrip_head s) as H.
  destruct (rstrip_split (lstrip s)) as (b & E & _).
  destruct (rstrip (lstrip s)) as [|c r]; [done|].
  rewrite E in H. done.
Qed.

Lemma trimmed_strip s : trimmed s → strip s = s.
Proof.
  intros [Hhead Hlast]. unfold strip. rewrite (lstrip_id s Hhead).
  unfold rstrip. rewrite lstrip_id; [apply rev_involutive|].
  destruct s as [|c s] using rev_ind; [done|].
  rewrite rev_app_distr. cbn. by rewrite last_snoc in Hlast.
Qed.

Lemma strip_idemp s : strip (strip s) = strip s.
Proof. apply trimmed_strip, strip_trimmed. Qed.

(** ** Scans without a match, and repetitions alone *)

Lemma re_sub_sub_out re repl s :
  re_sub re repl s = sub_out repl (scan re 0 None s).
Proof. reflexivity. Qed.

Lemma sub_out_Gap repl c ts : sub_out repl (Gap c :: ts) = c :: sub_out repl ts.
Proof. reflexivity. Qed.

Lemma sub_out_Hit repl m ts :
  sub_out repl (Hit m :: ts) = repl ++ sub_out repl ts.
Proof. reflexivity. Qed.

(** Where the pattern matches nowhere, [re.sub] changes nothing. *)
Lemma scan_no_match re repl s prev :
  (∀ a b p, s = a ++ b → match_at re p b = None) →
  sub_out repl (scan re 0 prev s) = s.
Proof.
  revert prev. induction s as [|c s IH]; intros prev Hnone; [done|].
  cbn [scan]. rewrite (Hnone [] (c :: s) prev eq_refl), sub_out_Gap.
  f_equal. apply IH. intros a b p ->. by apply (Hnone (c :: a) b p).
Qed.

Lemma rev_seq_S lo n : rev (seq lo (S n)) = (lo + n) :: rev (seq lo n).
Proof. by rewrite seq_S, rev_app_distr. Qed.

(** A greedy repetition alone matches the longest run of its class. *)
Lemma match_at_Rep p lo prev s :
  match_at [Rep p lo None] prev s =
  if lo <=? span p None s
  then Some (advance (MState prev s 0 []) (span p None s))
  else None.
Proof.
  unfold match_at. cbn [run step m_rest].
  destruct (Nat.leb_spec lo (span p None s)) as [Hle|Hgt]; [|done].
  replace (S (span p None s) - lo) with (S (span p None s - lo)) by lia.
  rewrite rev_seq_S. cbn [map flat_map app head]. do 2 f_equal. lia.
Qed.

Lemma span_drop p s : span p None (drop (span p None s) s) = 0.
Proof.
  induction s as [|c s IH]; [done|]. cbn. destruct (p c) eqn:Hc; cbn.
  - exact IH.
  - by rewrite Hc.
Qed.

Lemma span_all p s : all_of p (take (span p None s) s).
Proof. by apply (span_take p None). Qed.

Lemma span_split p s :
  s = take (span p None s) s ++ drop (span p None s) s.
Proof. by rewrite take_drop. Qed.

(** ** Markup *)

Lemma all_of_not_gt body : all_of not_gt body ↔ ">"%char ∉ body.
Proof.
  unfold all_of. rewrite forallb_forall. split.
  - intros H Hin. apply list_elem_of_In, H in Hin.
    unfold not_gt, is_char in Hin. by rewrite bool_decide_eq_true_2 in Hin.
  - intros H c Hc. unfold not_gt, is_char. apply negb_true_iff.
    apply bool_decide_eq_false. intros ->. by apply H, list_elem_of_In.
Qed.

Lemma opens_spec r :
  opens r = true ↔ ∃ x r', r = x :: r' ∧ x ≠ ">"%char ∧ ">"%char ∈ r'.
Proof.
  destruct r as [|x r']; cbn.
  { split; [done|]. by intros (? & ? & ? & _). }
  rewrite andb_true_iff, negb_true_iff, bool_decide_eq_true. unfold is_char.
  rewrite bool_decide_eq_false. split.
  - intros [? ?]. by exists x, r'.
  - intros (x' & r'' & E & ? & ?). by simplify_eq.
Qed.

Lemma has_tag_app a b : has_tag b = true → has_tag (a ++ b) = true.
Proof.
  intros H. induction a as [|c a IH]; [done|]. cbn. by rewrite IH, orb_true_r.
Qed.

Lemma opens_app r b : opens r = true → opens (r ++ b) = true.
Proof.
  rewrite !opens_spec. intros (x & r' & -> & ? & ?).
  exists x, (r' ++ b). split_and!; [done..|]. apply elem_of_app. by left.
Qed.

Lemma has_tag_app_l a b : has_tag a = true → has_tag (a ++ b) = true.
Proof.
  induction a as [|c a IH]; [done|]. cbn.
  rewrite !orb_true_iff, !andb_true_iff. intros [[? ?]|?].
  - left. split; [done|]. by apply opens_app.
  - right. by apply IH.
Qed.

(** The test decides the presence of a tag. *)
Lemma has_tag_markup t : has_tag t = true ↔ markup t.
Proof.
  split.
  - induction t as [|c t IH]; [done|]. cbn.
    rewrite orb_true_iff, andb_true_iff. intros [[Hc Ho]|Ht].
    + apply bool_decide_eq_true in Hc as ->.
      apply opens_spec in Ho as (x & r' & -> & Hx & Hin).
      apply list_elem_of_split_l in Hin as (pre & post & -> & Hpre).
      exists [], (x :: pre), post. split_and!; [done..|].
      rewrite not_elem_of_cons. split; [congruence|done].
    + destruct (IH Ht) as (a & body & b & -> & ? & ?).
      by exists (c :: a), body, b.
  - intros (a & body & b & -> & Hne & Hnotin). apply has_tag_app.
    destruct body as [|x body]; [done|]. cbn.
    apply not_elem_of_cons in Hnotin as [Hx _].
    apply orb_true_iff. left. apply andb_true_iff. split; [done|].
    apply andb_true_iff. split.
    + apply negb_true_iff, bool_decide_eq_false. congruence.
    + apply bool_decide_eq_true, elem_of_app. right. by left.
Qed.

Lemma step_Lit l st : step (Lit l) st = step_lit l st.
Proof. reflexivity. Qed.

(** Where [RE_TAG] matches, a tag starts. *)
Lemma tag_match_sound prev s m :
  match_at RE_TAG prev s = Some m →
  ∃ body rest, s = "<"%char :: body ++ ">"%char :: rest ∧
               body ≠ [] ∧ ">"%char ∉ body.
Proof.
  unfold match_at, RE_TAG. intros Hm%head_elem_of.
  apply elem_of_run_cons in Hm as (st1 & H1 & Hm).
  apply elem_of_run_cons in Hm as (st2 & H2 & Hm).
  apply elem_of_run_cons in Hm as (st3 & H3 & Hm).
  apply elem_of_run_nil in Hm as ->.
  rewrite step_Lit in H1, H3.
  apply step_lit_sound in H1 as (R1 & _).
  apply step_Rep_sound in H2 as (body & (R2 & _) & A2 & L2 & _).
  apply step_lit_sound in H3 as (R3 & _).
  cbn in R1. exists body, (m_rest st3). split_and!.
  - by rewrite R1, R2, R3.
  - destruct body; [cbn in L2; lia|done].
  - by apply all_of_not_gt.
Qed.

(** Where a tag starts, [RE_TAG] matches. *)
Lemma tag_match_complete prev x r :
  x ≠ ">"%char → ">"%char ∈ r →
  ∃ m, match_at RE_TAG prev ("<"%char :: x :: r) = Some m.
Proof.
  intros Hx (pre & post & -> & Hpre)%list_elem_of_split_l.
  set (st0 := MState prev ("<"%char :: x :: pre ++ ">"%char :: post) 0 []).
  set (body := x :: pre).
  assert (m_rest st0 = lit "<" ++ body ++ lit ">" ++ post) as R0 by done.
  set (st1 := advance st0 (length (lit "<"))).
  pose proof (advance_rest st0 _ _ R0) as R1. fold st1 in R1.
  set (st2 := advance st1 (length body)).
  pose proof (advance_rest st1 _ _ R1) as R2. fold st2 in R2.
  set (st3 := advance st2 (length (lit ">"))).
  apply (head_is_Some _ st3). unfold RE_TAG.
  apply elem_of_run_cons. exists st1. split.
  { rewrite step_Lit. apply elem_of_step_lit. eauto. }
  apply elem_of_run_cons. exists st2. split.
  { eapply step_Rep_complete; [exact R1| |cbn; lia|done].
    apply all_of_not_gt. apply not_elem_of_cons. done. }
  apply elem_of_run_cons. exists st3. split.
  { rewrite step_Lit. apply elem_of_step_lit. eauto. }
  by apply elem_of_run_nil.
Qed.

(** What is left after the tags are removed holds no tag. *)
Lemma tag_scan_clean s skip prev :
  let o := sub_out [] (scan RE_TAG skip prev s) in
  has_tag o = false ∧
  (">"%char ∈ o → ">"%char ∈ drop skip s) ∧
  (skip = 0 → ∀ r, s = ">"%char :: r → ∃ o', o = ">"%char :: o').
Proof.
  revert skip prev. induction s as [|c s IH]; intros skip prev.
  { cbn. split_and!; [done|by intros ?%elem_of_nil|done]. }
  cbn [scan]. destruct skip as [|k].
  - destruct (match_at RE_TAG prev (c :: s)) as [m|] eqn:E.
    + rewrite sub_out_Hit, app_nil_l.
      destruct (IH (m_len m - 1) (Some c)) as (Ht & Hgt & _).
      split_and!; [done| |].
      * intros Hin. cbn [drop]. right.
        by apply (subseteq_drop (m_len m - 1) s), Hgt.
      * intros _ r [= -> ->].
        by apply tag_match_sound in E as (? & ? & ? & _).
    + rewrite sub_out_Gap.
      destruct (IH 0 (Some c)) as (Ht & Hgt & Hhead).
      set (o' := sub_out [] (scan RE_TAG 0 (Some c) s)) in *.
      rewrite drop_0 in Hgt. cbn [drop]. split_and!.
      * cbn [has_tag]. rewrite Ht, orb_false_r.
        apply andb_false_iff.
        destruct (decide (c = "<"%char)) as [->|Hc];
          [right|left; by apply bool_decide_eq_false].
        apply not_true_is_false. intros Ho.
        apply opens_spec in Ho as (x & o'' & Eo & Hx & Hin).
        assert (">"%char ∈ s) as Hs
          by (apply Hgt; rewrite Eo; by right).
        destruct s as [|y r]; [by apply elem_of_nil in Hs|].
        destruct (decide (y = ">"%char)) as [->|Hy].
        -- destruct (Hhead eq_refl r eq_refl) as (? & Eo').
           rewrite Eo' in Eo. by simplify_eq.
        -- apply elem_of_cons in Hs as [?|Hs]; [done|].
           destruct (tag_match_complete prev y r Hy Hs) as (m & Em).
           by rewrite Em in E.
      * intros [->|Hin]%elem_of_cons; [by left|]. right. by apply Hgt.
      * intros _ r [= -> ->]. eauto.
  - destruct (IH k (Some c)) as (Ht & Hgt & _). cbn [drop].
    split_and!; [done|done|]. intros [=].
Qed.

Lemma thinned_elem_of t o c : thinned t o → c ∈ o → c ∈ t.
Proof.
  induction 1 as [|x t o _ IH|t o _ IH]; [done| |].
  - intros [->|?]%elem_of_cons; [by left|right; auto].
  - intros ?. right. auto.
Qed.

Lemma thinned_opens t o : thinned t o → opens o = true → opens t = true.
Proof.
  intros Ht (x & o' & -> & Hx & Hin)%opens_spec. apply opens_spec.
  inversion Ht as [|c t' o'' Ht' |t' o'' Ht']; subst.
  - exists x, t'. split_and!; [done..|]. by eapply thinned_elem_of.
  - exists newline, t'. split_and!; [done..|].
    eapply thinned_elem_of; [done|]. by right.
Qed.

(** Removing line breaks creates no tag. *)
Lemma thinned_has_tag t o : thinned t o → has_tag o = true → has_tag t = true.
Proof.
  induction 1 as [|c t o Ht IH|t o Ht IH]; [done| |].
  - cbn. rewrite !orb_true_iff, !andb_true_iff. intros [[? ?]|?].
    + left. split; [done|]. by eapply thinned_opens.
    + right. auto.
  - intros ?. cbn. auto.
Qed.

Lemma thinned_refl t : thinned t t.
Proof. induction t; by constructor. Qed.

Lemma thinned_breaks nls rest o :
  all_of (is_char newline) nls → 2 ≤ length nls → thinned rest o →
  thinned (nls ++ rest) (newline :: newline :: o).
Proof.
  intros Hall Hlen Ho. induction nls as [|c nls IH]; [cbn in Hlen; lia|].
  unfold all_of in Hall. cbn in Hall. apply andb_true_iff in Hall as [Hc Hall].
  apply bool_decide_eq_true in Hc as ->.
  destruct (decide (2 ≤ length nls)) as [Hge|Hlt].
  - cbn. apply thinned_drop. by apply IH.
  - destruct nls as [|c' [|]]; cbn in Hlen, Hlt; try lia.
    cbn in Hall. rewrite andb_true_r in Hall.
    apply bool_decide_eq_true in Hall as ->.
    cbn. by do 2 apply thinned_keep.
Qed.

Lemma blank_match_sound prev s m :
  match_at RE_BLANK_LINES prev s = Some m →
  m_len m = leading_breaks s ∧ 3 ≤ leading_breaks s.
Proof.
  unfold RE_BLANK_LINES. rewrite match_at_Rep. fold (leading_breaks s).
  destruct (Nat.leb_spec 3 (leading_breaks s)); [|done].
  intros [= <-]. cbn. done.
Qed.

(** Collapsing the blank lines only removes line breaks. *)
Lemma blank_scan_thinned s skip prev :
  thinned (drop skip s)
          (sub_out [newline; newline] (scan RE_BLANK_LINES skip prev s)).
Proof.
  revert skip prev. induction s as [|c s IH]; intros skip prev.
  { rewrite drop_nil. constructor. }
  cbn [scan]. destruct skip as [|k]; [|apply IH].
  destruct (match_at RE_BLANK_LINES prev (c :: s)) as [m|] eqn:E.
  - apply blank_match_sound in E as [Hlen Hthree].
    rewrite sub_out_Hit. cbn [app drop].
    rewrite (span_split (is_char newline) (c :: s)).
    fold (leading_breaks (c :: s)).
    apply thinned_breaks.
    + apply span_all.
    + rewrite length_take.
      pose proof (span_length (is_char newline) None (c :: s)).
      unfold leading_breaks in *. lia.
    + specialize (IH (m_len m - 1) (Some c)). rewrite Hlen in *.
      destruct (leading_breaks (c :: s)) as [|n] eqn:En; [lia|].
      cbn [drop]. replace (S n - 1) with n in IH |- * by lia. exact IH.
  - rewrite sub_out_Gap. cbn [drop]. apply thinned_keep.
    specialize (IH 0 (Some c)). by rewrite drop_0 in IH.
Qed.

Lemma leading_breaks_cons c t :
  leading_breaks (c :: t) =
  if is_char newline c then S (leading_breaks t) else 0.
Proof. reflexivity. Qed.

Lemma leading_breaks_newline t :
  leading_breaks (newline :: t) = S (leading_breaks t).
Proof. reflexivity. Qed.

Lemma three_breaks_leading o :
  starts_with three_breaks o = true ↔ 3 ≤ leading_breaks o.
Proof.
  rewrite starts_with_app. split.
  - intros [r ->]. unfold leading_breaks, three_breaks. cbn.
    change (is_char newline newline) with true. cbn. lia.
  - intros H. destruct o as [|c1 [|c2 [|c3 r]]]; unfold leading_breaks in H;
      cbn in H; unfold is_char in H; repeat case_bool_decide; cbn in H;
      try lia.
    subst. by exists r.
Qed.

(** Collapsing the blank lines leaves no three line breaks in a row. *)
Lemma blank_scan_no_triple s skip prev :
  let o := sub_out [newline; newline] (scan RE_BLANK_LINES skip prev s) in
  contains three_breaks o = false ∧
  leading_breaks o ≤ leading_breaks (drop skip s) ∧ leading_breaks o ≤ 2.
Proof.
  revert skip prev. induction s as [|c s IH]; intros skip prev.
  { cbn. split_and!; [done|lia..]. }
  cbn [scan]. destruct skip as [|k]; [|apply IH].
  destruct (match_at RE_BLANK_LINES prev (c :: s)) as [m|] eqn:E.
  - apply blank_match_sound in E as [Hlen Hthree].
    rewrite sub_out_Hit. cbn [app drop].
    destruct (IH (m_len m - 1) (Some c)) as (Hno & Hlb & _).
    set (o' := sub_out _ _) in *.
    assert (leading_breaks o' = 0) as Hzero.
    { pose proof (span_drop (is_char newline) (c :: s)) as Hd.
      fold (leading_breaks (c :: s)) in Hd. rewrite Hlen in Hlb.
      destruct (leading_breaks (c :: s)) as [|n]; [lia|].
      cbn [drop] in Hd. replace (S n - 1) with n in Hlb by lia.
      unfold leading_breaks in *. lia. }
    assert (leading_breaks (newline :: newline :: o') = 2) as Htwo.
    { by rewrite !leading_breaks_newline, Hzero. }
    split_and!; [|lia..].
    cbn [contains]. rewrite Hno, !orb_false_r. apply orb_false_iff. split.
    + apply not_true_is_false. rewrite three_breaks_leading. lia.
    + apply not_true_is_false. rewrite three_breaks_leading.
      rewrite leading_breaks_newline. lia.
  - rewrite sub_out_Gap. cbn [drop].
    destruct (IH 0 (Some c)) as (Hno & Hlb & Hle). rewrite drop_0 in Hlb.
    set (o' := sub_out _ _) in *.
    assert (leading_breaks (c :: s) < 3) as Hlt.
    { unfold RE_BLANK_LINES in E. rewrite match_at_Rep in E.
      fold (leading_breaks (c :: s)) in E.
      destruct (Nat.leb_spec 3 (leading_breaks (c :: s))); [done|lia]. }
    rewrite !leading_breaks_cons in *.
    destruct (is_char newline c) eqn:Hc; (split_and!; [|lia..]);
      cbn [contains]; rewrite Hno, orb_false_r; apply not_true_is_false;
      rewrite three_breaks_leading, leading_breaks_cons, Hc; lia.
Qed.

Lemma occurs_in_strip n s : occurs_in n (strip s) → occurs_in n s.
Proof.
  destruct (strip_split s) as (a & b & E & _). intros (a' & b' & E').
  exists (a ++ a'), (b' ++ b). rewrite E at 1. rewrite E'.
  by rewrite <-!app_assoc.
Qed.

Lemma has_tag_strip s : has_tag s = false → has_tag (strip s) = false.
Proof.
  destruct (strip_split s) as (a & b & E & _). intros H.
  apply not_true_is_false. intros Ht. rewrite E in H.
  by rewrite (has_tag_app a _ (has_tag_app_l _ b Ht)) in H.
Qed.

(** Where [RE_BR] matches, a tag starts. *)
Lemma br_match_sound prev s m :
  match_at RE_BR prev s = Some m → has_tag s = true.
Proof.
  unfold match_at, RE_BR. intros Hm%head_elem_of.
  apply elem_of_run_cons in Hm as (st1 & H1 & Hm).
  apply elem_of_run_cons in Hm as (st2 & H2 & Hm).
  apply elem_of_run_cons in Hm as (st3 & H3 & Hm).
  apply elem_of_run_cons in Hm as (st4 & H4 & Hm).
  apply elem_of_run_cons in Hm as (st5 & H5 & Hm).
  apply elem_of_run_cons in Hm as (st6 & H6 & Hm).
  apply elem_of_run_cons in Hm as (st7 & H7 & Hm).
  apply elem_of_run_nil in Hm as ->.
  rewrite step_Lit in H1, H7.
  apply step_lit_sound in H1 as (R1 & _).
  apply step_Rep_sound in H2 as (c2 & (R2 & _) & A2 & _).
  apply step_Rep_sound in H3 as (c3 & (R3 & _) & A3 & L3 & _).
  apply step_Rep_sound in H4 as (c4 & (R4 & _) & A4 & _).
  apply step_Rep_sound in H5 as (c5 & (R5 & _) & A5 & _).
  apply step_Rep_sound in H6 as (c6 & (R6 & _) & A6 & _).
  apply step_lit_sound in H7 as (R7 & _).
  cbn in R1. apply has_tag_markup.
  exists [], (c2 ++ c3 ++ c4 ++ c5 ++ c6), (m_rest st7). split_and!.
  - rewrite R1, R2, R3, R4, R5, R6, R7. cbn. by rewrite <-!app_assoc.
  - destruct c3; [cbn in L3; lia|]. by destruct c2.
  - rewrite !elem_of_app. intros Hin.
    assert (∀ p (cs : str), all_of p cs → p ">"%char = false →
                            ">"%char ∈ cs → False) as Hno.
    { intros p cs Hall Hp Hc.
      by rewrite (all_of_elem_of p cs _ Hall Hc) in Hp. }
    destruct Hin as [H|[H|[H|[H|H]]]];
      [exact (Hno _ _ A2 eq_refl H)|exact (Hno _ _ A3 eq_refl H)
      |exact (Hno _ _ A4 eq_refl H)|exact (Hno _ _ A5 eq_refl H)
      |exact (Hno _ _ A6 eq_refl H)].
Qed.

Lemma strip_html_has_tag s : has_tag (_strip_html s) = false.
Proof.
  unfold _strip_html. destruct (nonempty s); [|done].
  apply has_tag_strip, not_true_is_false. rewrite re_sub_sub_out.
  intros H%(thinned_has_tag _ _ (blank_scan_thinned _ 0 None)).
  rewrite drop_0, re_sub_sub_out in H.
  by rewrite (proj1 (tag_scan_clean _ 0 None)) in H.
Qed.

Lemma strip_html_breaks s : ¬ occurs_in three_breaks (_strip_html s).
Proof.
  unfold _strip_html. destruct (nonempty s).
  - intros H%occurs_in_strip%contains_occurs_in. rewrite re_sub_sub_out in H.
    by rewrite (proj1 (blank_scan_no_triple _ 0 None)) in H.
  - intros ([|? ?] & ? & ?); done.
Qed.

Lemma strip_html_trimmed s : trimmed (_strip_html s).
Proof.
  unfold _strip_html. destruct (nonempty s); [apply strip_trimmed|done].
Qed.

(** Text without tags and without three line breaks in a row is only
    trimmed. *)
Lemma strip_html_plain s :
  has_tag s = false → ¬ occurs_in three_breaks s → _strip_html s = strip s.
Proof.
  intros Htag Hbreaks. unfold _strip_html.
  destruct (nonempty s) eqn:Hs; [|by destruct s].
  assert (re_sub RE_BR [newline] s = s) as ->.
  { apply scan_no_match. intros a b p ->.
    destruct (match_at RE_BR p b) as [m|] eqn:E; [|done].
    apply br_match_sound in E. by rewrite (has_tag_app a b E) in Htag. }
  assert (re_sub RE_TAG [] s = s) as ->.
  { apply scan_no_match. intros a b p ->.
    destruct (match_at RE_TAG p b) as [m|] eqn:E; [|done].
    apply tag_match_sound in E as (body & rest & -> & Hne & Hnotin).
    assert (markup (a ++ "<"%char :: body ++ ">"%char :: rest)) as Hm
      by (by exists a, body, rest).
    apply has_tag_markup in Hm. by rewrite Hm in Htag. }
  assert (re_sub RE_BLANK_LINES [newline; newline] s = s) as ->; [|done].
  apply scan_no_match. intros a b p ->.
  destruct (match_at RE_BLANK_LINES p b) as [m|] eqn:E; [|done].
  apply blank_match_sound in E as [_ Hthree].
  apply three_breaks_leading, starts_with_app in Hthree as [r ->].
  destruct Hbreaks. by exists a, r.
Qed.

(** X1.  Whatever the text, [_strip_html] returns a text that holds no tag:
    nowhere in it does a [<] come before a [>] with at least one character
    and no other [>] in between. *)
Theorem _strip_html_no_markup s : ¬ markup (_strip_html s).
Proof.
  intros H%has_tag_markup. by rewrite strip_html_has_tag in H.
Qed.

(** X2.  The text that [_strip_html] returns never holds three line breaks
    in a row, and neither starts nor ends with white space. *)
Theorem _strip_html_no_blank_run s :
  ¬ occurs_in three_breaks (_strip_html s) ∧ trimmed (_strip_html s).
Proof. split; [apply strip_html_breaks|apply strip_html_trimmed]. Qed.

(** X3.  [_strip_html] is idempotent: cleaning a cleaned text changes
    nothing. *)
Theorem _strip_html_idempotent s : _strip_html (_strip_html s) = _strip_html s.
Proof.
  rewrite strip_html_plain;
    [|apply strip_html_has_tag|apply strip_html_breaks].
  apply trimmed_strip, strip_html_trimmed.
Qed.

(** X4.  On a text that holds no tag and no three line breaks in a row,
    [_strip_html] only removes the white space at both ends. *)
Theorem _strip_html_plain_text s :
  ¬ markup s → ¬ occurs_in three_breaks s → _strip_html s = strip s.
Proof.
  intros Hm Hb. apply strip_html_plain; [|done].
  apply not_true_is_false. by rewrite has_tag_markup.
Qed.

Lemma _strip_html_plain_text_witness :
  _strip_html (lit " a > b and c < d ") = lit "a > b and c < d".
Proof.
  rewrite _strip_html_plain_text; [reflexivity| |].
  - intros H%has_tag_markup. vm_compute in H. discriminate H.
  - intros H%contains_occurs_in. vm_compute in H. discriminate H.
Defined.

(** ** Matching of the keywords *)

Lemma span_zero_head p c s : span p None (c :: s) = 0 ↔ p c = false.
Proof. cbn. destruct (p c); split; intros; done || lia. Qed.

Lemma words_from_spaces sp r :
  all_of is_space sp → words_from [] (sp ++ r) = words_from [] r.
Proof.
  induction sp as [|c sp IH]; [done|]. unfold all_of. cbn.
  intros [-> Hsp]%andb_true_iff. cbn. by apply IH.
Qed.

Lemma split_tokens_words s skip prev cur :
  List.filter nonempty (split_tokens cur (scan RE_SPACES skip prev s)) =
  words_from cur (drop skip s).
Proof.
  revert skip prev cur. induction s as [|c s IH]; intros skip prev cur.
  { rewrite drop_nil. cbn. by destruct (nonempty cur). }
  cbn [scan]. destruct skip as [|k]; [|apply IH].
  unfold RE_SPACES. rewrite match_at_Rep. cbn [drop words_from].
  destruct (Nat.leb_spec 1 (span is_space None (c :: s))) as [Hle|Hlt].
  - assert (is_space c = true) as Hc.
    { destruct (is_space c) eqn:Hc; [done|].
      apply (span_zero_head is_space c s) in Hc. lia. }
    rewrite Hc. cbn [split_tokens List.filter m_len advance]. f_equal.
    fold RE_SPACES. rewrite IH.
    pose proof (span_all is_space (c :: s)) as Hall.
    cbn [span fmap option_fmap option_map] in *. rewrite Hc in *.
    cbn [take] in Hall.
    apply forallb_app_iff with (a := [c]) in Hall as [_ Hall].
    replace (0 + S (span is_space None s) - 1) with (span is_space None s)
      by lia.
    rewrite <-(words_from_spaces _ _ Hall), take_drop.
    by destruct (nonempty cur).
  - assert (is_space c = false) as Hc
      by (apply (span_zero_head is_space c s); lia).
    rewrite Hc. cbn [split_tokens]. fold RE_SPACES. rewrite IH.
    by rewrite drop_0.
Qed.

(** The tokens of the keywords are their words. *)
Lemma keyword_tokens_words s :
  List.filter nonempty (re_split RE_SPACES s) = words s.
Proof. unfold re_split, words. by rewrite split_tokens_words, drop_0. Qed.

Lemma keyword_match_words keywords hay :
  _keyword_match keywords hay = true ↔
  keywords = [] ∨ ∃ w, w ∈ words (lower keywords) ∧ occurs_in w (lower hay).
Proof.
  unfold _keyword_match. rewrite str_or_empty, keyword_tokens_words.
  destruct keywords as [|c k]; [by split; [left|]|].
  change (nonempty (c :: k)) with true. cbn match.
  rewrite existsb_exists. split.
  - intros (w & Hw%list_elem_of_In & Hin%contains_occurs_in). right. eauto.
  - intros [?|(w & Hw%list_elem_of_In & Hin%contains_occurs_in)]; [done|eauto].
Qed.

Lemma all_of_lower_space s : all_of is_space s → all_of is_space (lower s).
Proof.
  unfold all_of, lower. rewrite !forallb_forall. intros H c Hc.
  apply in_map_iff in Hc as (x & <- & Hx). rewrite is_space_lower_char. auto.
Qed.

Lemma occurs_in_app n h a b : occurs_in n h → occurs_in n (a ++ h ++ b).
Proof.
  intros (x & y & ->). exists (a ++ x), (y ++ b). by rewrite <-!app_assoc.
Qed.

(** X5.  [_keyword_match] accepts every text when the keywords are the
    empty string; otherwise it accepts a text exactly when one of the words
    of the keywords (the runs of characters between white space, in lower
    case) occurs in the text in lower case. *)
Theorem _keyword_match_spec keywords hay :
  _keyword_match keywords hay = true ↔
  keywords = [] ∨ ∃ w, w ∈ words (lower keywords) ∧ occurs_in w (lower hay).
Proof. apply keyword_match_words. Qed.

(** X6.  Keywords that are not empty but hold white space only match no
    text at all, although the empty keywords match every text. *)
Theorem _keyword_match_blank keywords hay :
  keywords ≠ [] → all_of is_space keywords →
  _keyword_match keywords hay = false.
Proof.
  intros Hne Hsp. apply not_true_is_false.
  intros [?|(w & Hw & _)]%keyword_match_words; [done|].
  apply all_of_lower_space in Hsp.
  unfold words in Hw. rewrite <-(app_nil_r (lower keywords)) in Hw.
  rewrite words_from_spaces in Hw by done. by apply elem_of_nil in Hw.
Qed.

Lemma _keyword_match_blank_witness :
  _keyword_match [] (lit "Data Analyst") = true ∧
  _keyword_match (lit "  ") (lit "Data Analyst") = false.
Proof.
  split; [reflexivity|]. apply _keyword_match_blank; [done|reflexivity].
Defined.

(** In this model a text accepted by [_keyword_match] stays accepted when
    text is put around it: lower-casing goes character by character. *)
Lemma keyword_match_around keywords hay before after :
  _keyword_match keywords hay = true →
  _keyword_match keywords (before ++ hay ++ after) = true.
Proof.
  rewrite !keyword_match_words. intros [?|(w & Hw & Hin)]; [by left|].
  right. exists w. split; [done|]. rewrite !lower_app. by apply occurs_in_app.
Qed.

(** X7.  A text that [_keyword_match] accepts is still accepted when it is
    joined with other texts by single spaces, as the adapters join the
    fields of a record: with a text before it, with a text after it, or
    with both. *)
Theorem _keyword_match_monotone keywords hay before after :
  _keyword_match keywords hay = true →
  _keyword_match keywords (join (lit " ") [before; hay]) = true ∧
  _keyword_match keywords (join (lit " ") [hay; after]) = true ∧
  _keyword_match keywords (join (lit " ") [before; hay; after]) = true.
Proof.
  intros H. cbn [join]. split_and!.
  - rewrite <-(app_nil_r hay), !app_assoc, <-(app_assoc _ hay []).
    by apply keyword_match_around.
  - by apply (keyword_match_around keywords hay []).
  - rewrite (app_assoc before). by apply keyword_match_around.
Qed.

Lemma _keyword_match_monotone_witness :
  _keyword_match (lit "Data  Analyst") (lit "Senior ANALYST") = true ∧
  _keyword_match (lit "Data  Analyst")
    (join (lit " ") [lit "Acme"; lit "Senior ANALYST"; lit "Remote"]) = true.
Proof.
  split; [reflexivity|].
  by apply (_keyword_match_monotone (lit "Data  Analyst")
              (lit "Senior ANALYST") (lit "Acme") (lit "Remote")).
Defined.

(** X8.  [_keyword_match] ignores case: keywords that differ only in the
    case of their letters, and texts that differ only in the case of their
    letters, get the same answer. *)
Theorem _keyword_match_ignores_case keywords1 keywords2 hay1 hay2 :
  lower keywords1 = lower keywords2 → lower hay1 = lower hay2 →
  _keyword_match keywords1 hay1 = _keyword_match keywords2 hay2.
Proof.
  intros Hk Hh. unfold _keyword_match. rewrite !str_or_empty, Hk, Hh.
  destruct keywords1, keywords2; done.
Qed.

Lemma _keyword_match_ignores_case_witness :
  _keyword_match (lit "PYTHON developer") (lit "Python Developer (m/f)") =
  _keyword_match (lit "python Developer") (lit "python developer (M/F)").
Proof. by apply _keyword_match_ignores_case. Defined.

(** ** Deduplication and the placeholders *)

Lemma filter_all {A} (P : A → Prop) `{∀ x, Decision (P x)} (l : list A) :
  Forall P l → filter P l = l.
Proof.
  induction 1 as [|x l Hx _ IH]; [done|].
  by rewrite filter_cons_True, IH.
Qed.

Lemma first_occurrences_id {A} (key : A → str) (l : list A) :
  NoDup (key <$> l) → first_occurrences key l = l.
Proof.
  induction l as [|x r IH]; [done|]. cbn. intros [Hx Hr]%NoDup_cons.
  f_equal. rewrite IH by done. apply filter_all, Forall_forall.
  intros y Hy E. apply Hx. rewrite <-E. by apply list_elem_of_fmap_2.
Qed.

Lemma dedupe_jobs_small (jobs : list JobItem) (limit : Z) :
  (limit ≤ 1)%Z → _dedupe_jobs jobs limit = take 1 jobs.
Proof.
  intros Hl. destruct jobs as [|j rest]; [done|].
  unfold _dedupe_jobs. cbn [dedupe_loop].
  rewrite decide_False by set_solver. cbn.
  by rewrite (proj2 (Z.leb_le _ _)) by lia.
Qed.

Lemma dedupe_jobs_sublist (jobs : list JobItem) (limit : Z) :
  _dedupe_jobs jobs limit `sublist_of` jobs.
Proof.
  destruct (decide (1 ≤ limit)%Z) as [Hl|Hl].
  - rewrite _dedupe_jobs_take by done.
    etrans; [apply sublist_take|apply first_occurrences_sublist].
  - rewrite dedupe_jobs_small by lia. apply sublist_take.
Qed.

Lemma dedupe_jobs_idemp (jobs : list JobItem) (limit : Z) :
  _dedupe_jobs (_dedupe_jobs jobs limit) limit = _dedupe_jobs jobs limit.
Proof.
  destruct (decide (1 ≤ limit)%Z) as [Hl|Hl].
  - rewrite !_dedupe_jobs_take by done.
    rewrite first_occurrences_id.
    + by rewrite take_take, Nat.min_id.
    + eapply sublist_NoDup; [apply (first_occurrences_NoDup job_key jobs)|].
      apply fmap_sublist, sublist_take.
  - rewrite !dedupe_jobs_small by lia. by rewrite take_take.
Qed.

(** X9.  With a limit of one, zero or less, [_dedupe_jobs] still returns
    the first posting of a list that is not empty: the limit is only looked
    at after a posting has been added. *)
Theorem _dedupe_jobs_small_limit (jobs : list JobItem) (limit : Z) :
  (limit ≤ 1)%Z → _dedupe_jobs jobs limit = take 1 jobs.
Proof. apply dedupe_jobs_small. Qed.

Lemma _dedupe_jobs_small_limit_witness :
  _dedupe_jobs [posting "Dev" "Acme" ""; posting "Ops" "Bolt" ""] 0 =
  [posting "Dev" "Acme" ""].
Proof. by rewrite _dedupe_jobs_small_limit. Defined.

(** X10.  Whatever the limit, [_dedupe_jobs] returns postings of its
    argument in their order, and applying it again with the same limit
    changes nothing. *)
Theorem _dedupe_jobs_idempotent (jobs : list JobItem) (limit : Z) :
  _dedupe_jobs jobs limit `sublist_of` jobs ∧
  _dedupe_jobs (_dedupe_jobs jobs limit) limit = _dedupe_jobs jobs limit.
Proof. split; [apply dedupe_jobs_sublist|apply dedupe_jobs_idemp]. Qed.

Lemma mocked_jobs_any_limit (analysis : AnalysisResult) (loc : str) limit :
  mocked_jobs analysis loc limit =
  if (limit <=? 1)%Z then take 1 (base_jobs analysis loc)
  else base_jobs analysis loc.
Proof.
  unfold mocked_jobs. destruct (base_jobs_shape analysis loc) as (Hlen & _).
  rewrite Hlen. destruct (Z.leb_spec limit 1).
  - by replace (Z.to_nat _) with 1 by lia.
  - replace (Z.to_nat _) with 2 by lia. apply take_ge. lia.
Qed.

(** X11.  Whatever the limit, also zero or negative, [mocked_jobs] returns
    one placeholder when the limit is at most one and two otherwise; each
    carries the given location, the source [Mocked] and a title and a
    company that are not empty. *)
Theorem mocked_jobs_never_empty (analysis : AnalysisResult) (loc : str) limit :
  length (mocked_jobs analysis loc limit) = (if (limit <=? 1)%Z then 1 else 2) ∧
  Forall (fun j => location j = loc ∧ source j = Some (lit "Mocked") ∧
                   title j ≠ [] ∧ company j ≠ [])
         (mocked_jobs analysis loc limit).
Proof.
  rewrite mocked_jobs_any_limit.
  assert (Forall (fun j => location j = loc ∧ source j = Some (lit "Mocked") ∧
                           title j ≠ [] ∧ company j ≠ [])
                 (base_jobs analysis loc)) as Hall.
  { unfold base_jobs. repeat constructor; cbn;
      intros E; apply (f_equal length) in E;
      rewrite ?length_app in E; cbn in E; lia. }
  destruct (Z.leb_spec limit 1); split; try done.
  by apply Forall_take.
Qed.

(** ** The keywords handed to the adapters *)

Lemma words_from_nonempty cur s : cur ≠ [] → words_from cur s ≠ [].
Proof.
  revert cur. induction s as [|c s IH]; intros cur Hcur.
  - cbn. by destruct cur.
  - cbn. destruct (is_space c).
    + by destruct cur.
    + apply IH. by destruct cur.
Qed.

Lemma words_head c r : is_space c = false → words (c :: r) ≠ [].
Proof.
  intros Hc. unfold words. cbn. rewrite Hc. by apply words_from_nonempty.
Qed.

Lemma join_head sep (p : str) rest c r :
  p = c :: r → ∃ r', join sep (p :: rest) = c :: r'.
Proof. intros ->. destruct rest; cbn; eauto. Qed.

Lemma keywords_head (analysis : AnalysisResult) :
  ∃ c r, build_keywords_from_analysis analysis = c :: r ∧ is_space c = false.
Proof.
  unfold build_keywords_from_analysis.
  rewrite keywords_loop_fresh, app_nil_l, fresh_empty.
  set (cleaned := filter _ _).
  pose proof (first_occurrences_sublist lower cleaned) as Hsub.
  destruct (first_occurrences lower cleaned) as [|p out]; [by eexists _, _|].
  assert (p ∈ cleaned) as Hp by (eapply elem_of_sublist; [by left|done]).
  apply list_elem_of_filter in Hp as [Hne (y & -> & _)%list_elem_of_fmap].
  destruct (strip_trimmed y) as [Hhead _].
  destruct (strip y) as [|c r] eqn:E; [done|].
  destruct (join_head (lit " ") (c :: r) out c r eq_refl) as (r' & ->).
  by eexists _, _.
Qed.

(** X12.  The keywords that [build_keywords_from_analysis] builds are never
    empty and never start with white space, so they hold at least one word;
    an adapter therefore keeps a text exactly when one of these words occurs
    in it, without regard to case. *)
Theorem build_keywords_has_a_word (analysis : AnalysisResult) :
  let keywords := build_keywords_from_analysis analysis in
  (∃ c r, keywords = c :: r ∧ is_space c = false) ∧
  words (lower keywords) ≠ [] ∧
  ∀ hay, _keyword_match keywords hay = true ↔
         ∃ w, w ∈ words (lower keywords) ∧ occurs_in w (lower hay).
Proof.
  intros keywords. destruct (keywords_head analysis) as (c & r & E & Hc).
  fold keywords in E. split; [eauto|]. rewrite E. split.
  - cbn [lower map]. apply words_head. by rewrite is_space_lower_char.
  - intros hay. rewrite keyword_match_words. split; [|eauto].
    by intros [?|?].
Qed.

(** ** The loops of the adapters, round by round *)

Ltac bind_both :=
  repeat match goal with
  | |- (?m ≫= _) = (?m' ≫= _) ≫= _ =>
      destruct m; cbn [mbind result_bind]; [|reflexivity]
  end.

Lemma remotive_loop_rounds keywords limit items results :
  remotive_loop keywords limit items results =
  rounds (remotive_round keywords) limit items results.
Proof.
  revert results. induction items as [|item rest IH]; intros results; [done|].
  cbn [remotive_loop rounds]. unfold remotive_round. bind_both.
  destruct (negb _); cbn [mbind result_bind]; [apply IH|].
  destruct (make_job _ _ _ _ _ _); cbn [mbind result_bind]; [|done].
  destruct (reached _ _); [done|apply IH].
Qed.

Lemma remoteok_loop_rounds keywords limit items results :
  remoteok_loop keywords limit items results =
  rounds (remoteok_round keywords) limit items results.
Proof.
  revert results. induction items as [|item rest IH]; intros results; [done|].
  destruct item; cbn [remoteok_loop rounds remoteok_round mbind result_bind];
    try apply IH.
  bind_both.
  destruct (negb _); cbn [mbind result_bind]; [apply IH|].
  destruct (make_job _ _ _ _ _ _); cbn [mbind result_bind]; [|done].
  destruct (reached _ _); [done|apply IH].
Qed.

Lemma arbeitnow_loop_rounds cfg keywords limit items results :
  arbeitnow_loop cfg keywords limit items results =
  rounds (arbeitnow_round cfg keywords) limit items results.
Proof.
  revert results. induction items as [|item rest IH]; intros results; [done|].
  destruct item; cbn [arbeitnow_loop rounds arbeitnow_round mbind result_bind];
    try apply IH.
  bind_both.
  destruct (negb _); cbn [mbind result_bind]; [apply IH|].
  destruct (make_job _ _ _ _ _ _); cbn [mbind result_bind]; [|done].
  destruct (reached _ _); [done|apply IH].
Qed.

Section rounds.
Context (round : json → result (option JobItem)) (limit : Z).

Lemma rounds_length items results out :
  (Z.of_nat (length results) < Z.max 1 limit)%Z →
  rounds round limit items results = Ok out →
  (Z.of_nat (length out) ≤ Z.max 1 limit)%Z.
Proof.
  revert results. induction items as [|item rest IH]; intros results Hlen H.
  { cbn in H. simplify_eq. lia. }
  cbn [rounds] in H.
  destruct (round item) as [[j|]|]; cbn [mbind result_bind] in H;
    [|by eapply IH|done].
  unfold reached in H. rewrite length_app in H. cbn [length] in H.
  destruct (Z.leb_spec limit (Z.of_nat (length results + 1))).
  - simplify_eq. rewrite length_app. cbn [length]. lia.
  - eapply IH; [|done]. rewrite length_app. cbn [length]. lia.
Qed.

Lemma rounds_Forall (P : JobItem → Prop) items results out :
  (∀ item j, item ∈ items → round item = Ok (Some j) → P j) →
  Forall P results →
  rounds round limit items results = Ok out →
  Forall P out.
Proof.
  revert results. induction items as [|item rest IH]; intros results HP Hrs H.
  { cbn in H. by simplify_eq. }
  assert (∀ item j, item ∈ rest → round item = Ok (Some j) → P j) as HP'
    by (intros ???; apply HP; by right).
  cbn [rounds] in H.
  destruct (round item) as [[j|]|] eqn:E; cbn [mbind result_bind] in H;
    [|by eapply IH|done].
  assert (Forall P (results ++ [j])) as Hrs'.
  { apply Forall_app. split; [done|]. apply Forall_singleton.
    eapply HP; [by left|done]. }
  destruct (reached _ _); [by simplify_eq|by eapply IH].
Qed.

Lemma rounds_returns items results :
  (∀ item, item ∈ items → ∃ r, round item = Ok r) →
  ∃ out, rounds round limit items results = Ok out.
Proof.
  revert results. induction items as [|item rest IH]; intros results Hok.
  { by eexists. }
  assert (∀ item, item ∈ rest → ∃ r, round item = Ok r) as Hok'
    by (intros ??; apply Hok; by right).
  cbn [rounds]. destruct (Hok item) as [r ->]; [by left|].
  cbn [mbind result_bind]. destruct r as [j|]; [|by apply IH].
  destruct (reached _ _); [by eexists|by apply IH].
Qed.

Lemma rounds_filter (keep : json → bool) items results :
  (∀ item, keep item = false → round item = Ok None) →
  rounds round limit (List.filter keep items) results =
  rounds round limit items results.
Proof.
  intros Hskip. revert results.
  induction items as [|item rest IH]; intros results; [done|].
  cbn [List.filter]. destruct (keep item) eqn:Hk.
  - cbn [rounds]. destruct (round item) as [[j|]|]; cbn [mbind result_bind];
      [|apply IH|done].
    destruct (reached _ _); [done|apply IH].
  - cbn [rounds]. rewrite (Hskip _ Hk). cbn [mbind result_bind]. apply IH.
Qed.
End rounds.

Lemma make_job_fields t c l d a src j :
  make_job t c l d a src = Ok j →
  t = JStr (title j) ∧ c = JStr (company j) ∧ l = JStr (location j) ∧
  d = JStr (description j) ∧ a = JStr (apply_link j) ∧ source j = Some src.
Proof.
  unfold make_job. intros H. repeat bind_ok H.
  destruct t, c, l, d, a; try discriminate. by simplify_eq/=.
Qed.

Lemma py_or_nonempty v d s : d ≠ [] → py_or v (JStr d) = JStr s → s ≠ [].
Proof.
  unfold py_or. destruct (truthy v) eqn:Hv.
  - intros _ ->. by destruct s.
  - by intros ? [= <-].
Qed.

Lemma py_or_nonempty2 v v' d s :
  d ≠ [] → py_or v (py_or v' (JStr d)) = JStr s → s ≠ [].
Proof.
  unfold py_or at 1. destruct (truthy v) eqn:Hv.
  - intros _ ->. by destruct s.
  - apply py_or_nonempty.
Qed.

Lemma remotive_round_posting keywords item j :
  remotive_round keywords item = Ok (Some j) →
  source j = Some (lit "Remotive") ∧ title j ≠ [] ∧ company j ≠ [] ∧
  location j ≠ [] ∧
  ∃ raw, description j = take 400 (_strip_html raw) ∧
         _keyword_match keywords
           (title j ++ lit " " ++ company j ++ lit " " ++
            _strip_html raw ++ lit " " ++ location j) = true.
Proof.
  unfold remotive_round. intros H. repeat bind_ok H.
  destruct (negb _) eqn:Hm; [discriminate|]. bind_ok H. simplify_eq.
  apply negb_false_iff in Hm.
  match goal with
  | Hj : make_job _ _ _ _ _ _ = Ok _ |- _ =>
      apply make_job_fields in Hj as (Ht & Hc & Hl & Hd & _ & Hs)
  end.
  match goal with
  | Hd : strip_html_of _ = Ok _ |- _ =>
      apply strip_html_of_Ok in Hd as (raw & ->)
  end.
  rewrite Ht, Hc, Hl in Hm. cbn [py_str] in Hm.
  split_and!; [done|by eapply py_or_nonempty; [|exact Ht]
              |by eapply py_or_nonempty; [|exact Hc]
              |by eapply py_or_nonempty; [|exact Hl]|].
  exists raw. split; [by simplify_eq|done].
Qed.

Lemma remoteok_round_posting keywords item j :
  remoteok_round keywords item = Ok (Some j) →
  source j = Some (lit "Remote OK") ∧ title j ≠ [] ∧ company j ≠ [] ∧
  location j ≠ [] ∧
  ∃ raw tags, description j = take 400 (_strip_html raw) ∧
         _keyword_match keywords
           (title j ++ lit " " ++ company j ++ lit " " ++ location j ++
            lit " " ++ tags ++ lit " " ++ _strip_html raw) = true.
Proof.
  unfold remoteok_round. intros H. destruct item; try discriminate.
  repeat bind_ok H.
  destruct (negb _) eqn:Hm; [discriminate|]. bind_ok H. simplify_eq.
  apply negb_false_iff in Hm.
  match goal with
  | Hj : make_job _ _ _ _ _ _ = Ok _ |- _ =>
      apply make_job_fields in Hj as (Ht & Hc & Hl & Hd & _ & Hs)
  end.
  match goal with
  | Hd : strip_html_of _ = Ok _ |- _ =>
      apply strip_html_of_Ok in Hd as (raw & ->)
  end.
  rewrite Ht, Hc, Hl in Hm. cbn [py_str] in Hm.
  split_and!; [done|by eapply py_or_nonempty2; [|exact Ht]
              |by eapply py_or_nonempty; [|exact Hc]
              |by eapply py_or_nonempty; [|exact Hl]|].
  exists raw. eexists. split; [by simplify_eq|done].
Qed.

Lemma arbeitnow_round_posting cfg keywords item j :
  arbeitnow_round cfg keywords item = Ok (Some j) →
  source j = Some (lit "Arbeitnow") ∧ title j ≠ [] ∧ company j ≠ [] ∧
  ∃ raw tags loc, description j = take 400 (_strip_html raw) ∧
         location j = str_or loc (DEFAULT_JOB_LOCATION cfg) ∧
         _keyword_match keywords
           (title j ++ lit " " ++ company j ++ lit " " ++ loc ++
            lit " " ++ tags ++ lit " " ++ _strip_html raw) = true.
Proof.
  unfold arbeitnow_round. intros H. destruct item; try discriminate.
  repeat bind_ok H.
  destruct (negb _) eqn:Hm; [discriminate|]. bind_ok H. simplify_eq.
  apply negb_false_iff in Hm.
  match goal with
  | Hj : make_job _ _ _ _ _ _ = Ok _ |- _ =>
      apply make_job_fields in Hj as (Ht & Hc & Hl & Hd & _ & Hs)
  end.
  match goal with
  | Hd : strip_html_of _ = Ok _ |- _ =>
      apply strip_html_of_Ok in Hd as (raw & ->)
  end.
  rewrite Ht, Hc in Hm. cbn [py_str] in Hm.
  split_and!; [done|by eapply py_or_nonempty; [|exact Ht]
              |by eapply py_or_nonempty; [|exact Hc]|].
  exists raw. eexists.
  match type of Hl with
  | py_or (py_or ?l _) _ = _ =>
      unfold py_or in Hl, Hm; destruct (truthy l) eqn:Hl'
  end.
  - rewrite Hl' in Hl. rewrite Hl in Hm. cbn [py_str] in Hm.
    exists (location j). split_and!; [by simplify_eq| |done].
    rewrite Hl in Hl'. cbn in Hl'. unfold str_or. by rewrite Hl'.
  - cbn [truthy nonempty] in Hl. cbn [py_str] in Hm.
    exists []. split_and!; [by simplify_eq|by simplify_eq|done].
Qed.

Lemma remotive_rounds w keywords limit out :
  search_jobs_remotive w keywords limit = Ok out →
  ∃ items, rounds (remotive_round keywords) limit items [] = Ok out.
Proof.
  unfold search_jobs_remotive. intros H.
  destruct (remotive_response w); [exists []; by simplify_eq|].
  do 2 bind_ok H. rewrite remotive_loop_rounds in H. eauto.
Qed.

Lemma remoteok_rounds w keywords limit out :
  search_jobs_remoteok w keywords limit = Ok out →
  ∃ items, rounds (remoteok_round keywords) limit items [] = Ok out.
Proof.
  unfold search_jobs_remoteok. intros H.
  repeat case_match; simplify_eq; try (by exists []);
    rewrite remoteok_loop_rounds in H; eauto.
Qed.

Lemma arbeitnow_rounds cfg w keywords limit out :
  search_jobs_arbeitnow cfg w keywords limit = Ok out →
  ∃ items, rounds (arbeitnow_round cfg keywords) limit items [] = Ok out.
Proof.
  unfold search_jobs_arbeitnow. intros H.
  repeat case_match; simplify_eq; try (by exists []);
    rewrite arbeitnow_loop_rounds in H; eauto.
Qed.

Lemma free_adapters_length cfg w keywords limit out :
  search_jobs_remotive w keywords limit = Ok out ∨
  search_jobs_remoteok w keywords limit = Ok out ∨
  search_jobs_arbeitnow cfg w keywords limit = Ok out →
  (Z.of_nat (length out) ≤ Z.max 1 limit)%Z.
Proof.
  intros [H|[H|H]];
    [apply remotive_rounds in H as (items & H)
    |apply remoteok_rounds in H as (items & H)
    |apply arbeitnow_rounds in H as (items & H)];
    (eapply rounds_length; [|exact H]); cbn; lia.
Qed.

Lemma adzuna_item_labelled cfg location item j :
  adzuna_item cfg location item = Ok j → labelled (lit "Adzuna") j.
Proof.
  unfold adzuna_item. intros H. repeat bind_ok H.
  apply make_job_fields in H as (Ht & Hc & _ & _ & _ & Hs).
  split_and!; [done|by eapply py_or_nonempty; [|exact Ht]
              |by eapply py_or_nonempty; [|exact Hc]].
Qed.

Lemma mapM_length {A B} (f : A → result B) l out :
  mapM f l = Ok out → length out = length l.
Proof.
  revert out. induction l as [|x l IH]; intros out H.
  { unfold mapM, mret, result_ret in H. by simplify_eq. }
  cbn [mapM] in H. repeat bind_ok H.
  unfold mret, result_ret in H. simplify_eq. cbn. f_equal. by apply IH.
Qed.

Lemma mapM_Forall {A B} (f : A → result B) (P : B → Prop) l out :
  (∀ x y, f x = Ok y → P y) → mapM f l = Ok out → Forall P out.
Proof.
  intros HP. revert out. induction l as [|x l IH]; intros out H.
  { unfold mapM, mret, result_ret in H. simplify_eq. constructor. }
  cbn [mapM] in H. repeat bind_ok H.
  unfold mret, result_ret in H. simplify_eq.
  constructor; [by eapply HP|by apply IH].
Qed.

Lemma adapters_labelled cfg w keywords location limit out :
  (search_jobs_remotive w keywords limit = Ok out →
   Forall (labelled (lit "Remotive")) out) ∧
  (search_jobs_remoteok w keywords limit = Ok out →
   Forall (labelled (lit "Remote OK")) out) ∧
  (search_jobs_arbeitnow cfg w keywords limit = Ok out →
   Forall (labelled (lit "Arbeitnow")) out) ∧
  (search_jobs_adzuna cfg w keywords location limit = Ok out →
   Forall (labelled (lit "Adzuna")) out).
Proof.
  split_and!.
  - intros (items & H)%remotive_rounds.
    eapply rounds_Forall; [|constructor|exact H].
    intros item j _ Hj%remotive_round_posting. unfold labelled. tauto.
  - intros (items & H)%remoteok_rounds.
    eapply rounds_Forall; [|constructor|exact H].
    intros item j _ Hj%remoteok_round_posting. unfold labelled. tauto.
  - intros (items & H)%arbeitnow_rounds.
    eapply rounds_Forall; [|constructor|exact H].
    intros item j _ Hj%arbeitnow_round_posting. unfold labelled. tauto.
  - unfold search_jobs_adzuna. intros H.
    destruct (negb _); [simplify_eq; constructor|].
    destruct (adzuna_response w); [simplify_eq; constructor|].
    repeat bind_ok H. eapply mapM_Forall; [|exact H].
    apply adzuna_item_labelled.
Qed.

Lemma text_or_absent_or kv k d :
  text_or_absent kv k → ∃ s, py_or (dict_get kv k JNull) (JStr d) = JStr s.
Proof.
  intros [->|[s ->]]; [by eexists|]. unfold py_or. destruct (truthy _); eauto.
Qed.

Lemma text_or_absent_or2 kv k k' d :
  text_or_absent kv k → text_or_absent kv k' →
  ∃ s, py_or (dict_get kv k JNull) (py_or (dict_get kv k' JNull) (JStr d)) =
       JStr s.
Proof.
  intros [->|[s ->]] H'.
  - by apply text_or_absent_or.
  - destruct (text_or_absent_or kv k' d H') as [s' ->].
    unfold py_or. destruct (truthy _); eauto.
Qed.

Lemma as_strs_strings ss : as_strs (JStr <$> ss) = Ok ss.
Proof. induction ss as [|s ss IH]; [done|]. cbn. by rewrite IH. Qed.

Lemma tags_ok_text kv :
  tags_ok kv →
  ∃ s, tag_text (py_or (dict_get kv (lit "tags") JNull) (JList [])) = Ok s.
Proof.
  intros Hok. unfold py_or.
  destruct (dict_get kv (lit "tags") JNull) as [|b|n|s|l|kv'] eqn:E;
    cbn [truthy];
    [by eexists|destruct b; by eexists|destruct (negb _); by eexists
    |destruct (nonempty s); by eexists| |destruct kv'; by eexists].
  destruct (Hok l E) as [ss ->].
  destruct ss as [|s ss]; [by eexists|].
  rewrite fmap_cons. cbn [tag_text as_strs as_str mbind result_bind].
  rewrite as_strs_strings. by eexists.
Qed.

Lemma make_job_strings t c l d a src :
  ∃ j, make_job (JStr t) (JStr c) (JStr l) (JStr d) (JStr a) src = Ok j.
Proof. by eexists. Qed.

Lemma strip_html_of_text kv k :
  text_or_absent kv k → ∃ s, strip_html_of (dict_get kv k JNull) = Ok s.
Proof.
  intros [s E]%(text_or_absent_or _ _ []). unfold strip_html_of.
  rewrite E. by eexists.
Qed.

Ltac plain_fields H :=
  repeat match type of H with
  | Forall _ (_ :: _) => apply Forall_cons in H as [? H]
  end.

Lemma remotive_round_plain keywords item :
  plain_record REMOTIVE_FIELDS item →
  ∃ r, remotive_round keywords item = Ok r.
Proof.
  intros (kv & -> & Hf & _). unfold REMOTIVE_FIELDS in Hf. plain_fields Hf.
  unfold remotive_round. cbn [py_get py_get_default mbind result_bind].
  destruct (text_or_absent_or kv (lit "title") (lit "Unknown Role"))
    as [t ->]; [done|].
  destruct (text_or_absent_or kv (lit "company_name") (lit "Unknown Company"))
    as [c ->]; [done|].
  destruct (text_or_absent_or kv (lit "candidate_required_location")
              (lit "Remote")) as [l ->]; [done|].
  destruct (strip_html_of_text kv (lit "description")) as [d ->]; [done|].
  destruct (text_or_absent_or kv (lit "url") []) as [u ->]; [done|].
  cbn [mbind result_bind]. destruct (negb _); by eexists.
Qed.

Lemma remoteok_round_plain keywords item :
  (is_object item = true → plain_record REMOTEOK_FIELDS item) →
  ∃ r, remoteok_round keywords item = Ok r.
Proof.
  intros H. destruct item; try by eexists.
  destruct (H eq_refl) as (kv' & [= <-] & Hf & Ht).
  unfold REMOTEOK_FIELDS in Hf. plain_fields Hf.
  unfold remoteok_round. cbn [py_get py_get_default mbind result_bind].
  destruct (text_or_absent_or2 kv (lit "position") (lit "title")
              (lit "Unknown Role")) as [t ->]; [done..|].
  destruct (text_or_absent_or kv (lit "company") (lit "Unknown Company"))
    as [c ->]; [done|].
  destruct (text_or_absent_or kv (lit "location") (lit "Remote"))
    as [l ->]; [done|].
  destruct (strip_html_of_text kv (lit "description")) as [d ->]; [done|].
  destruct (text_or_absent_or kv (lit "url") []) as [u ->]; [done|].
  destruct (tags_ok_text kv Ht) as [g ->].
  cbn [mbind result_bind]. destruct (negb _); by eexists.
Qed.

Lemma arbeitnow_round_plain cfg keywords item :
  (is_object item = true → plain_record ARBEITNOW_FIELDS item) →
  ∃ r, arbeitnow_round cfg keywords item = Ok r.
Proof.
  intros H. destruct item; try by eexists.
  destruct (H eq_refl) as (kv' & [= <-] & Hf & Ht).
  unfold ARBEITNOW_FIELDS in Hf. plain_fields Hf.
  unfold arbeitnow_round. cbn [py_get py_get_default mbind result_bind].
  destruct (text_or_absent_or kv (lit "title") (lit "Unknown Role"))
    as [t ->]; [done|].
  destruct (text_or_absent_or kv (lit "company_name") (lit "Unknown Company"))
    as [c ->]; [done|].
  destruct (text_or_absent_or kv (lit "location") []) as [l ->]; [done|].
  destruct (strip_html_of_text kv (lit "description")) as [d ->]; [done|].
  destruct (text_or_absent_or kv (lit "url") []) as [u ->]; [done|].
  destruct (tags_ok_text kv Ht) as [g ->].
  cbn [mbind result_bind]. destruct (negb _); [by eexists|].
  unfold py_or at 1. destruct (truthy (JStr l)); by eexists.
Qed.

(** X13.  The Remotive, Remote OK and Arbeitnow adapters never return more
    postings than the limit, or than one when the limit is below one. *)
Theorem adapters_respect_limit cfg w keywords limit out :
  search_jobs_remotive w keywords limit = Ok out ∨
  search_jobs_remoteok w keywords limit = Ok out ∨
  search_jobs_arbeitnow cfg w keywords limit = Ok out →
  (Z.of_nat (length out) ≤ Z.max 1 limit)%Z.
Proof. apply free_adapters_length. Qed.

Lemma adapters_respect_limit_witness :
  ∃ out, search_jobs_remotive answering (lit "developer chef") 0 = Ok out ∧
         (Z.of_nat (length out) ≤ 1)%Z.
Proof.
  eexists. split; [reflexivity|].
  apply (adapters_respect_limit no_keys answering (lit "developer chef") 0).
  left. reflexivity.
Defined.

(** X14.  Every posting that an adapter returns bears the name of its
    provider as source and has a title and a company name that are not
    empty. *)
Theorem adapters_label_postings cfg w keywords location limit r1 r2 r3 r4 :
  search_jobs_remotive w keywords limit = Ok r1 →
  search_jobs_remoteok w keywords limit = Ok r2 →
  search_jobs_arbeitnow cfg w keywords limit = Ok r3 →
  search_jobs_adzuna cfg w keywords location limit = Ok r4 →
  Forall (labelled (lit "Remotive")) r1 ∧
  Forall (labelled (lit "Remote OK")) r2 ∧
  Forall (labelled (lit "Arbeitnow")) r3 ∧
  Forall (labelled (lit "Adzuna")) r4.
Proof.
  intros H1 H2 H3 H4.
  split_and!;
    [apply (adapters_labelled cfg w keywords location limit r1)
    |apply (adapters_labelled cfg w keywords location limit r2)
    |apply (adapters_labelled cfg w keywords location limit r3)
    |apply (adapters_labelled cfg w keywords location limit r4)]; done.
Qed.

Lemma adapters_label_postings_witness :
  ∃ r1 r2 r3 r4,
    search_jobs_remotive answering (lit "python") 20 = Ok r1 ∧
    search_jobs_remoteok answering (lit "python") 20 = Ok r2 ∧
    search_jobs_arbeitnow adzuna_keys answering (lit "python") 20 = Ok r3 ∧
    search_jobs_adzuna adzuna_keys answering (lit "python") None 20 = Ok r4 ∧
    length (r1 ++ r2 ++ r3 ++ r4) = 4 ∧
    Forall (labelled (lit "Remotive")) r1 ∧
    Forall (labelled (lit "Remote OK")) r2 ∧
    Forall (labelled (lit "Arbeitnow")) r3 ∧
    Forall (labelled (lit "Adzuna")) r4.
Proof.
  do 4 eexists. do 5 (split; [reflexivity|]).
  apply (adapters_label_postings adzuna_keys answering (lit "python") None 20);
    reflexivity.
Defined.

Lemma rounds_from round limit items out :
  rounds round limit items [] = Ok out →
  Forall (fun j => ∃ item, item ∈ items ∧ round item = Ok (Some j)) out.
Proof.
  intros H. eapply rounds_Forall; [|constructor|exact H]. eauto.
Qed.

Lemma remotive_by_records w keywords limit out :
  search_jobs_remotive w keywords limit = Ok out →
  remotive_loop keywords limit (remotive_records w) [] = Ok out.
Proof.
  unfold search_jobs_remotive, remotive_records.
  destruct (remotive_response w) as [|[]]; try by intros [= <-].
  cbn [py_get_default mbind result_bind].
  destruct (py_iter _); [done|by intros [=]].
Qed.

Lemma remoteok_by_records w keywords limit :
  search_jobs_remoteok w keywords limit =
  remoteok_loop keywords limit (remoteok_records w) [].
Proof.
  unfold search_jobs_remoteok, remoteok_records.
  destruct (remoteok_com_response w) as [|[]];
    [destruct (remoteok_io_response w) as [|[]]|..]; done.
Qed.

Lemma arbeitnow_by_records cfg w keywords limit :
  search_jobs_arbeitnow cfg w keywords limit =
  arbeitnow_loop cfg keywords limit (arbeitnow_records w) [].
Proof.
  unfold search_jobs_arbeitnow, arbeitnow_records.
  destruct (arbeitnow_response w) as [|[]]; try done.
  by destruct (dict_get _ _ _).
Qed.

Lemma remotive_round_match keywords item j :
  remotive_round keywords item = Ok (Some j) →
  ∃ kv, item = JDict kv ∧ remotive_match keywords kv j.
Proof.
  unfold remotive_round. intros H. destruct item as [| | | | |kv];
    try discriminate.
  cbn [py_get py_get_default mbind result_bind] in H.
  destruct (strip_html_of _) as [desc|] eqn:Hdesc;
    cbn [mbind result_bind] in H; [|discriminate].
  destruct (negb _) eqn:Hm; [discriminate|].
  destruct (make_job _ _ _ _ _ _) as [j'|] eqn:Hj;
    cbn [mbind result_bind] in H; [|discriminate].
  simplify_eq. apply negb_false_iff in Hm.
  apply make_job_fields in Hj as (Ht & Hc & Hl & Hd & _ & _).
  rewrite Ht, Hc, Hl in Hm. cbn [py_str] in Hm.
  exists kv. split; [done|]. exists desc. unfold field_or.
  split_and!; try done. by simplify_eq.
Qed.

Lemma remoteok_round_match keywords item j :
  remoteok_round keywords item = Ok (Some j) →
  ∃ kv, item = JDict kv ∧ remoteok_match keywords kv j.
Proof.
  unfold remoteok_round. intros H. destruct item as [| | | | |kv];
    try discriminate.
  cbn [py_get py_get_default mbind result_bind] in H.
  destruct (strip_html_of _) as [desc|] eqn:Hdesc;
    cbn [mbind result_bind] in H; [|discriminate].
  destruct (tag_text _) as [tags|] eqn:Htags;
    cbn [mbind result_bind] in H; [|discriminate].
  destruct (negb _) eqn:Hm; [discriminate|].
  destruct (make_job _ _ _ _ _ _) as [j'|] eqn:Hj;
    cbn [mbind result_bind] in H; [|discriminate].
  simplify_eq. apply negb_false_iff in Hm.
  apply make_job_fields in Hj as (Ht & Hc & Hl & Hd & _ & _).
  rewrite Ht, Hc, Hl in Hm. cbn [py_str] in Hm.
  exists kv. split; [done|]. exists tags, desc. unfold field_or.
  split_and!; try done. by simplify_eq.
Qed.

Lemma arbeitnow_round_match cfg keywords item j :
  arbeitnow_round cfg keywords item = Ok (Some j) →
  ∃ kv, item = JDict kv ∧ arbeitnow_match cfg keywords kv j.
Proof.
  unfold arbeitnow_round. intros H. destruct item as [| | | | |kv];
    try discriminate.
  cbn [py_get py_get_default mbind result_bind] in H.
  destruct (strip_html_of _) as [desc|] eqn:Hdesc;
    cbn [mbind result_bind] in H; [|discriminate].
  destruct (tag_text _) as [tags|] eqn:Htags;
    cbn [mbind result_bind] in H; [|discriminate].
  destruct (negb _) eqn:Hm; [discriminate|].
  destruct (make_job _ _ _ _ _ _) as [j'|] eqn:Hj;
    cbn [mbind result_bind] in H; [|discriminate].
  simplify_eq. apply negb_false_iff in Hm.
  apply make_job_fields in Hj as (Ht & Hc & Hl & Hd & _ & _).
  rewrite Ht, Hc in Hm. cbn [py_str] in Hm.
  exists kv. split; [done|]. unfold arbeitnow_match, field_or.
  unfold py_or in Hl at 1.
  destruct (truthy (py_or (dict_get kv (lit "location") JNull) (JStr [])))
    eqn:Hloc.
  - rewrite Hl in Hm, Hloc. cbn [py_str] in Hm. cbn in Hloc.
    exists (location j), tags, desc.
    split_and!; try done; [|by simplify_eq].
    unfold str_or. by rewrite Hloc.
  - assert (py_or (dict_get kv (lit "location") JNull) (JStr []) = JStr [])
      as Hempty.
    { unfold py_or in Hloc |- *.
      destruct (truthy (dict_get kv (lit "location") JNull)) eqn:E;
        [congruence|done]. }
    rewrite Hempty in Hm. cbn [py_str] in Hm.
    exists [], tags, desc. split_and!; try done; by simplify_eq.
Qed.

(** X15.  Every posting that the Remotive, Remote OK or Arbeitnow adapter
    returns is made of a record that the adapter visits, an object, and is
    returned only if the keywords match the text made of that record: its
    title, company and location, its tags (for the last two adapters) and
    its whole sanitized description, of which the posting keeps the first
    400 characters. *)
Theorem adapters_return_matches cfg w keywords limit r1 r2 r3 :
  search_jobs_remotive w keywords limit = Ok r1 →
  search_jobs_remoteok w keywords limit = Ok r2 →
  search_jobs_arbeitnow cfg w keywords limit = Ok r3 →
  Forall (fun j => ∃ kv, JDict kv ∈ remotive_records w ∧
                         remotive_match keywords kv j) r1 ∧
  Forall (fun j => ∃ kv, JDict kv ∈ remoteok_records w ∧
                         remoteok_match keywords kv j) r2 ∧
  Forall (fun j => ∃ kv, JDict kv ∈ arbeitnow_records w ∧
                         arbeitnow_match cfg keywords kv j) r3.
Proof.
  intros H1%remotive_by_records H2 H3.
  rewrite remoteok_by_records in H2. rewrite arbeitnow_by_records in H3.
  rewrite remotive_loop_rounds in H1. rewrite remoteok_loop_rounds in H2.
  rewrite arbeitnow_loop_rounds in H3.
  apply rounds_from in H1, H2, H3.
  split_and!; (eapply Forall_impl; [eassumption|]); cbn.
  - intros j (item & Hin & (kv & -> & ?)%remotive_round_match). eauto.
  - intros j (item & Hin & (kv & -> & ?)%remoteok_round_match). eauto.
  - intros j (item & Hin & (kv & -> & ?)%arbeitnow_round_match). eauto.
Qed.

Lemma adapters_return_matches_witness :
  ∃ r1 r2 r3,
    search_jobs_remotive answering (lit "python") 20 = Ok r1 ∧
    search_jobs_remoteok answering (lit "python") 20 = Ok r2 ∧
    search_jobs_arbeitnow no_keys answering (lit "python") 20 = Ok r3 ∧
    length r1 = 1 ∧ length r2 = 1 ∧ length r3 = 1 ∧
    Forall (fun j => ∃ kv, JDict kv ∈ remotive_records answering ∧
                           remotive_match (lit "python") kv j) r1 ∧
    Forall (fun j => ∃ kv, JDict kv ∈ remoteok_records answering ∧
                           remoteok_match (lit "python") kv j) r2 ∧
    Forall (fun j => ∃ kv, JDict kv ∈ arbeitnow_records answering ∧
                           arbeitnow_match no_keys (lit "python") kv j) r3.
Proof.
  do 3 eexists. do 6 (split; [reflexivity|]).
  apply (adapters_return_matches no_keys answering (lit "python") 20 _ _ _
           eq_refl eq_refl eq_refl).
Defined.

(** X16.  The Remote OK adapter passes over every element after the first
    of the list it is answered that is not an object, and the Arbeitnow
    adapter over every element of the [data] list that is not an object:
    an answer without these elements gives the same postings. *)
Theorem feeds_skip_non_objects cfg w w' keywords limit :
  remoteok_records w' = List.filter is_object (remoteok_records w) →
  arbeitnow_records w' = List.filter is_object (arbeitnow_records w) →
  search_jobs_remoteok w' keywords limit =
    search_jobs_remoteok w keywords limit ∧
  search_jobs_arbeitnow cfg w' keywords limit =
    search_jobs_arbeitnow cfg w keywords limit.
Proof.
  intros H1 H2. rewrite !remoteok_by_records, !arbeitnow_by_records, H1, H2.
  rewrite !remoteok_loop_rounds, !arbeitnow_loop_rounds.
  split; apply rounds_filter; by intros [].
Qed.

Lemma feeds_skip_non_objects_witness :
  remoteok_records answering =
    [JStr (lit "notice");
     record [("position", "Backend Developer"); ("company", "Bolt");
             ("description", "Python and Go");
             ("url", "HTTPS://jobs.example/1 ")]] ∧
  search_jobs_remoteok answering_objects (lit "python") 20 =
    search_jobs_remoteok answering (lit "python") 20 ∧
  search_jobs_arbeitnow no_keys answering_objects (lit "python") 20 =
    search_jobs_arbeitnow no_keys answering (lit "python") 20.
Proof.
  split; [reflexivity|].
  by apply (feeds_skip_non_objects no_keys answering answering_objects).
Defined.

(** X17.  The Adzuna adapter makes one posting of every record of the
    response: it applies neither the keywords nor the limit itself. *)
Theorem search_jobs_adzuna_one_per_record cfg w keywords location limit
    kv items out :
  adzuna_response w = Payload (JDict kv) →
  dict_lookup kv (lit "results") = Some (JList items) →
  search_jobs_adzuna cfg w keywords location limit = Ok out →
  length out = if configured (ADZUNA_APP_ID cfg) &&
                  configured (ADZUNA_APP_KEY cfg)
               then length items else 0.
Proof.
  intros Hw Hkv. unfold search_jobs_adzuna.
  destruct (_ && _); cbn [negb]; [|by intros [= <-]].
  rewrite Hw. cbn [py_get_default]. unfold dict_get. rewrite Hkv.
  cbn [mbind result_bind py_iter]. apply mapM_length.
Qed.

Lemma search_jobs_adzuna_one_per_record_witness :
  ∃ out, search_jobs_adzuna adzuna_keys answering (lit "python") None 0
           = Ok out ∧ length out = 1.
Proof.
  eexists. split; [reflexivity|].
  by apply (search_jobs_adzuna_one_per_record adzuna_keys answering
              (lit "python") None 0 _ _ _ eq_refl eq_refl).
Defined.

(** X18.  On records that are objects whose fields are strings, [null] or
    absent and whose tags, if a list, are strings, the loops of the three
    key-less adapters return normally; for Remote OK and Arbeitnow this is
    asked of the elements that are objects only. *)
Theorem loops_accept_plain_records cfg keywords limit items results :
  (Forall (plain_record REMOTIVE_FIELDS) items →
   ∃ out, remotive_loop keywords limit items results = Ok out) ∧
  (Forall (fun item => is_object item = true →
                       plain_record REMOTEOK_FIELDS item) items →
   ∃ out, remoteok_loop keywords limit items results = Ok out) ∧
  (Forall (fun item => is_object item = true →
                       plain_record ARBEITNOW_FIELDS item) items →
   ∃ out, arbeitnow_loop cfg keywords limit items results = Ok out).
Proof.
  rewrite remotive_loop_rounds, remoteok_loop_rounds, arbeitnow_loop_rounds.
  split_and!; intros Hall; apply rounds_returns; intros item Hin;
    rewrite Forall_forall in Hall.
  - by apply remotive_round_plain, Hall.
  - by apply remoteok_round_plain, Hall.
  - by apply arbeitnow_round_plain, Hall.
Qed.

Lemma loops_accept_plain_records_witness :
  ∃ out, arbeitnow_loop no_keys (lit "python") 20
           [JInt 7; record [("title", "Python Developer")]] [] = Ok out.
Proof.
  destruct (loops_accept_plain_records no_keys (lit "python") 20
              [JInt 7; record [("title", "Python Developer")]] [])
    as (_ & _ & H).
  apply H. apply Forall_cons. split; [done|].
  apply Forall_cons. split; [|constructor]. intros _. eexists.
  split; [reflexivity|]. split.
  - unfold ARBEITNOW_FIELDS.
    repeat (apply Forall_cons; split;
            [(by left) || (right; by eexists)|]).
    constructor.
  - intros l [=].
Defined.

(** ** The aggregator, end to end *)

Lemma Forall_sublist_of {A} (P : A → Prop) (l1 l2 : list A) :
  l1 `sublist_of` l2 → Forall P l2 → Forall P l1.
Proof.
  intros Hsub. rewrite !Forall_forall. intros H x Hx.
  by eapply H, elem_of_sublist.
Qed.

Lemma base_jobs_labelled (analysis : AnalysisResult) (loc : str) :
  Forall (labelled (lit "Mocked")) (base_jobs analysis loc).
Proof.
  unfold base_jobs, labelled. repeat constructor; cbn;
    intros E; apply (f_equal length) in E;
    rewrite ?length_app in E; cbn in E; lia.
Qed.

Lemma base_jobs_keys (analysis : AnalysisResult) (loc : str) :
  NoDup (job_key <$> base_jobs analysis loc) ∧
  Forall (fun j => length (description j) ≤ 400) (base_jobs analysis loc).
Proof.
  split.
  - assert (job_key <$> base_jobs analysis loc =
            [lit "https://example.com/jobs/smartcv-labs";
             lit "https://example.com/jobs/futurework-global"]) as ->
      by reflexivity.
    apply NoDup_cons. split; [|apply NoDup_singleton].
    by intros [=]%list_elem_of_singleton.
  - unfold base_jobs. repeat constructor; cbn; lia.
Qed.

(** What [find_jobs] returns: the placeholders, or postings collected from
    the adapters. *)
Lemma find_jobs_cases cfg w request jobs :
  find_jobs cfg w request = Ok jobs →
  (∃ n, jobs = take n (base_jobs (req_analysis request)
                         (location_or_default cfg (req_location request)))) ∨
  ∃ r1 r2 r3 r4 keywords location limit,
    search_jobs_remotive w keywords limit = Ok r1 ∧
    search_jobs_remoteok w keywords limit = Ok r2 ∧
    search_jobs_arbeitnow cfg w keywords limit = Ok r3 ∧
    search_jobs_adzuna cfg w keywords location limit = Ok r4 ∧
    (1 ≤ limit)%Z ∧
    jobs = _dedupe_jobs (r1 ++ r2 ++ r3 ++ r4) limit.
Proof.
  unfold find_jobs. intros H.
  destruct (search_jobs_remotive _ _ _) as [r1|] eqn:E1; [|done].
  destruct (search_jobs_remoteok _ _ _) as [r2|] eqn:E2; [|done].
  destruct (search_jobs_arbeitnow _ _ _ _) as [r3|] eqn:E3; [|done].
  destruct (search_jobs_adzuna _ _ _ _ _) as [r4|] eqn:E4; [|done].
  cbn [mbind result_bind] in H.
  destruct (_dedupe_jobs _ _) as [|j found] eqn:Ed.
  - left. simplify_eq. unfold mocked_jobs. eauto.
  - right. simplify_eq. exists r1, r2, r3, r4. do 3 eexists.
    split_and!; [done..|apply clamp_limit_range|done].
Qed.

(** X19.  Every posting that [find_jobs] returns has a title and a company
    name that are not empty and bears a source; the placeholders are never
    mixed with postings of the providers: either every posting bears the
    source [Mocked], or each bears the name of the provider it came from. *)
Theorem find_jobs_provenance cfg w request jobs :
  find_jobs cfg w request = Ok jobs →
  Forall (labelled (lit "Mocked")) jobs ∨
  Forall (fun j => labelled (lit "Remotive") j ∨ labelled (lit "Remote OK") j ∨
                   labelled (lit "Arbeitnow") j ∨ labelled (lit "Adzuna") j)
         jobs.
Proof.
  intros [[n ->]|(r1 & r2 & r3 & r4 & keywords & location & limit &
                  H1 & H2 & H3 & H4 & _ & ->)]%find_jobs_cases.
  - left. apply Forall_take, base_jobs_labelled.
  - right. eapply Forall_sublist_of; [apply dedupe_jobs_sublist|].
    destruct (adapters_labelled cfg w keywords location limit r1) as (L1 & _).
    destruct (adapters_labelled cfg w keywords location limit r2)
      as (_ & L2 & _).
    destruct (adapters_labelled cfg w keywords location limit r3)
      as (_ & _ & L3 & _).
    destruct (adapters_labelled cfg w keywords location limit r4)
      as (_ & _ & _ & L4).
    rewrite !Forall_app. split_and!;
      (eapply Forall_impl; [eauto|]); cbn; tauto.
Qed.

Lemma find_jobs_provenance_witness :
  ∃ jobs,
    find_jobs adzuna_keys answering
      {| req_analysis := profile_of [lit "Python Developer"] [] [];
         req_location := None; req_limit := 20 |} = Ok jobs ∧
    length jobs = 3 ∧
    (Forall (labelled (lit "Mocked")) jobs ∨
     Forall (fun j => labelled (lit "Remotive") j ∨
                      labelled (lit "Remote OK") j ∨
                      labelled (lit "Arbeitnow") j ∨
                      labelled (lit "Adzuna") j) jobs).
Proof.
  eexists. do 2 (split; [reflexivity|]).
  by apply (find_jobs_provenance adzuna_keys answering
              {| req_analysis := profile_of [lit "Python Developer"] [] [];
                 req_location := None; req_limit := 20 |}).
Defined.

(** X20.  The postings that [find_jobs] returns have pairwise different
    identity keys, and none has a description of more than 400
    characters. *)
Theorem find_jobs_distinct_bounded cfg w request jobs :
  find_jobs cfg w request = Ok jobs →
  NoDup (job_key <$> jobs) ∧
  Forall (fun j => length (description j) ≤ 400) jobs.
Proof.
  intros [[n ->]|(r1 & r2 & r3 & r4 & keywords & location & limit &
                  H1 & H2 & H3 & H4 & Hl & ->)]%find_jobs_cases.
  - destruct (base_jobs_keys (req_analysis request)
                (location_or_default cfg (req_location request))) as [Hk Hd].
    split; [|by apply Forall_take].
    eapply sublist_NoDup; [exact Hk|]. apply fmap_sublist, sublist_take.
  - split.
    + rewrite _dedupe_jobs_take by done.
      eapply sublist_NoDup; [apply (first_occurrences_NoDup job_key)|].
      apply fmap_sublist, sublist_take.
    + eapply Forall_sublist_of; [apply dedupe_jobs_sublist|].
      rewrite !Forall_app. split_and!;
        apply (descriptions_bounded cfg w keywords location limit); tauto.
Qed.

Lemma find_jobs_distinct_bounded_witness :
  ∃ jobs,
    find_jobs adzuna_keys answering
      {| req_analysis := profile_of [lit "Python Developer"] [] [];
         req_location := None; req_limit := 20 |} = Ok jobs ∧
    length jobs = 3 ∧
    NoDup (job_key <$> jobs) ∧
    Forall (fun j => length (description j) ≤ 400) jobs.
Proof.
  eexists. do 2 (split; [reflexivity|]).
  by apply (find_jobs_distinct_bounded adzuna_keys answering
              {| req_analysis := profile_of [lit "Python Developer"] [] [];
                 req_location := None; req_limit := 20 |}).
Defined.

(** ** The rule-based extractor, further *)

Lemma digit_value_le c : is_digit c = true → (digit_value c ≤ 9)%Z.
Proof.
  unfold is_digit, digit_value, between.
  intros [?%Nat.leb_le ?%Nat.leb_le]%andb_true_iff. lia.
Qed.

Lemma int_of_digits_le ds :
  all_of is_digit ds → length ds ≤ 2 → (int_of_digits ds ≤ 99)%Z.
Proof.
  unfold all_of. destruct ds as [|d1 [|d2 [|d3 ds]]]; cbn [length forallb];
    try lia.
  - intros _ _. by cbn.
  - rewrite andb_true_iff, int_of_digits_one. intros [? _] _.
    pose proof (digit_value_le d1). intuition lia.
  - rewrite !andb_true_iff, int_of_digits_two. intros (? & ? & _) _.
    pose proof (digit_value_le d1). pose proof (digit_value_le d2).
    intuition lia.
Qed.

Lemma max_years_range (text : str) : (0 ≤ max_years text ≤ 99)%Z.
Proof.
  destruct (max_years_spec text) as [_ [Hm|[-> _]]]; [|lia].
  destruct Hm
    as (before & s & _ & ds & mid & rest & _ & Hlen & Hds & _ & _ & ->).
  split; [apply int_of_digits_nonneg|apply int_of_digits_le; [done|lia]].
Qed.

Lemma level_of_vocabulary (text : str) :
  level_of text ∈ [lit "student"; lit "senior"; lit "mid"; lit "junior";
                   lit "unknown"].
Proof.
  unfold level_of. repeat case_match; set_solver.
Qed.

Lemma job_types_of_sublist (text : str) :
  job_types_of text `sublist_of`
    [lit "remote"; lit "part-time"; lit "full-time"].
Proof.
  unfold job_types_of.
  repeat case_match; cbn [app];
    repeat first [apply sublist_skip | apply sublist_cons | apply sublist_nil].
Qed.

Lemma contains_app n h a b :
  contains n h = true → contains n (a ++ h ++ b) = true.
Proof. rewrite !contains_occurs_in. apply occurs_in_app. Qed.

Lemma mentions_any_app keys h a b :
  mentions_any keys h = true → mentions_any keys (a ++ h ++ b) = true.
Proof.
  unfold mentions_any. rewrite !existsb_exists.
  intros (k & Hk & Hc). exists k. split; [done|]. by apply contains_app.
Qed.

Lemma elem_of_job_types_of t text :
  t ∈ job_types_of text ↔
  (t = lit "remote" ∧
   mentions_any [lit "remote"; lit "work from home"; lit "wfh"] text = true) ∨
  (t = lit "part-time" ∧
   mentions_any [lit "part-time"; lit "part time"] text = true) ∨
  (t = lit "full-time" ∧
   mentions_any [lit "full-time"; lit "full time"] text = true).
Proof.
  unfold job_types_of. rewrite !elem_of_app.
  destruct (mentions_any [lit "remote"; _; _] text),
           (mentions_any [lit "part-time"; _] text),
           (mentions_any [lit "full-time"; _] text);
    rewrite ?list_elem_of_singleton, ?elem_of_nil; intuition congruence.
Qed.

Lemma elem_of_profile (order : gset str → list str) (cv_text : str) :
  set_order order →
  (∀ s, s ∈ skills (analyze_cv_rule_based order cv_text) ↔
        s ∈ COMMON_SKILLS ∧ contains (lower s) (lower cv_text) = true) ∧
  (∀ t, t ∈ job_titles (analyze_cv_rule_based order cv_text) ↔
        t ∈ COMMON_JOB_TITLES ∧ contains (lower t) (lower cv_text) = true).
Proof.
  intros Hord. unfold analyze_cv_rule_based. cbn [skills job_titles].
  rewrite str_or_empty. split; intros x;
    by rewrite sorted_Permutation, set_order_elem_of, elem_of_lexicon_hits.
Qed.

(** X21.  The rule-based extractor only ever reports one of five levels,
    and its job types are either [any] alone or some of [remote],
    [part-time] and [full-time], in this order and at least one. *)
Theorem analyze_cv_rule_based_vocabulary
    (order : gset str → list str) (cv_text : str) :
  let p := analyze_cv_rule_based order cv_text in
  experience_level p ∈ [lit "student"; lit "senior"; lit "mid"; lit "junior";
                        lit "unknown"] ∧
  (recommended_job_types p = [lit "any"] ∨
   (recommended_job_types p ≠ [] ∧
    recommended_job_types p `sublist_of`
      [lit "remote"; lit "part-time"; lit "full-time"])).
Proof.
  intros p. split; [apply level_of_vocabulary|].
  unfold p. rewrite job_types_offline.
  pose proof (job_types_of_sublist (lower cv_text)) as Hsub.
  destruct (job_types_of (lower cv_text)); [by left|by right].
Qed.

(** X22.  The number of years that the extractor reads from a text lies
    between 0 and 99. *)
Theorem max_years_two_digits (text : str) : (0 ≤ max_years text ≤ 99)%Z.
Proof. apply max_years_range. Qed.

(** X23.  Putting more text around a CV loses no skill, no job title and no
    job type: what the extractor finds in a text it also finds in every
    text that contains it. *)
Theorem analyze_cv_rule_based_monotone
    (order : gset str → list str) (cv_text before after : str) :
  set_order order →
  let p := analyze_cv_rule_based order cv_text in
  let p' := analyze_cv_rule_based order (before ++ cv_text ++ after) in
  skills p ⊆ skills p' ∧ job_titles p ⊆ job_titles p' ∧
  ∀ t, t ∈ recommended_job_types p → t ≠ lit "any" →
       t ∈ recommended_job_types p'.
Proof.
  intros Hord p p'.
  destruct (elem_of_profile order cv_text Hord) as [Hs Ht].
  destruct (elem_of_profile order (before ++ cv_text ++ after) Hord)
    as [Hs' Ht'].
  split_and!.
  - intros s [? Hc]%Hs. apply Hs'. split; [done|].
    rewrite !lower_app. by apply contains_app.
  - intros t [? Hc]%Ht. apply Ht'. split; [done|].
    rewrite !lower_app. by apply contains_app.
  - intros t. unfold p, p'. rewrite !job_types_offline, !lower_app.
    intros Hin Hany.
    assert (t ∈ job_types_of (lower cv_text)) as Hin'.
    { destruct (job_types_of (lower cv_text)); [|done].
      by apply list_elem_of_singleton in Hin. }
    assert (t ∈ job_types_of (lower before ++ lower cv_text ++ lower after))
      as Hin''.
    { revert Hin'. rewrite !elem_of_job_types_of.
      intros [[? ?]|[[? ?]|[? ?]]]; [left|right; left|right; right];
        (split; [done|]); by apply mentions_any_app. }
    destruct (job_types_of (lower before ++ lower cv_text ++ lower after));
      [by apply elem_of_nil in Hin''|done].
Qed.

Lemma analyze_cv_rule_based_monotone_witness :
  let p := analyze_cv_rule_based elements (lit "Python, remote") in
  let p' := analyze_cv_rule_based elements
              (lit "Go and " ++ lit "Python, remote" ++ lit " or full-time") in
  skills p ⊆ skills p' ∧ job_titles p ⊆ job_titles p' ∧
  ∀ t, t ∈ recommended_job_types p → t ≠ lit "any" →
       t ∈ recommended_job_types p'.
Proof.
  apply (analyze_cv_rule_based_monotone elements (lit "Python, remote")
           (lit "Go and ") (lit " or full-time")).
  apply set_order_elements.
Defined.

(** ** The analysis by the external service *)

Lemma level_of_lower (text : str) : lower (level_of text) = level_of text.
Proof.
  pose proof (level_of_vocabulary text) as H.
  repeat (apply elem_of_cons in H as [->|H]; [done|]).
  by apply elem_of_nil in H.
Qed.

(** X24.  Whether it comes from the rules or from the service, the
    experience level of a profile that [call_hf_for_analysis] returns is in
    lower case. *)
Theorem experience_level_lower_case (cfg : Config) (w : World)
    (order : gset str → list str) (cv_text : str) (p : AnalysisResult) :
  call_hf_for_analysis cfg w order cv_text = Ok p →
  lower (experience_level p) = experience_level p.
Proof.
  unfold call_hf_for_analysis. destruct (negb _).
  - intros [= <-]. apply level_of_lower.
  - intros H. repeat bind_ok H. simplify_eq. cbn [experience_level].
    apply lower_idemp.
Qed.

Lemma experience_level_lower_case_witness :
  ∃ p, call_hf_for_analysis no_keys offline elements
         (lit "INTERN, 2 Years of Python") = Ok p ∧
       experience_level p = lit "student" ∧
       lower (experience_level p) = experience_level p.
Proof.
  eexists. do 2 (split; [reflexivity|]).
  by apply (experience_level_lower_case no_keys offline elements
              (lit "INTERN, 2 Years of Python")).
Defined.

(** X25.  With a token configured, when the text that the service generated
    cannot be decoded as JSON (as when the call failed and the text is
    empty), the CV is not analysed by the rules either: the profile has no
    job titles, no skills and no job types, the level [unknown], and the
    trimmed text as summary.  If that text is not a string, the attempt to
    trim it raises [AttributeError]. *)
Theorem call_hf_for_analysis_undecodable (cfg : Config) (w : World)
    (order : gset str → list str) (cv_text : str) :
  configured (HF_TOKEN cfg) = true → hf_decoded w = None →
  call_hf_for_analysis cfg w order cv_text =
  match hf_text_out w with
  | JStr s =>
      Ok {| job_titles := []; skills := []; experience_level := lit "unknown";
            recommended_job_types := []; summary := Some (strip s) |}
  | _ => Raise AttributeError
  end.
Proof.
  intros Hc Hd. unfold call_hf_for_analysis, hf_data. rewrite Hc, Hd.
  cbn [negb]. by destruct (hf_text_out w).
Qed.

Lemma call_hf_for_analysis_undecodable_witness :
  call_hf_for_analysis hf_key offline elements
    (lit "Senior Python developer, 9 years, remote") =
  Ok {| job_titles := []; skills := []; experience_level := lit "unknown";
        recommended_job_types := []; summary := Some [] |}.
Proof.
  by rewrite (call_hf_for_analysis_undecodable hf_key offline elements _
                eq_refl eq_refl).
Defined.

(** X26.  With a token configured, when the generated text decodes to a
    JSON value that is not an object, [call_hf_for_analysis] raises
    [AttributeError]: the decoded value is asked for its keys without a
    test of its shape. *)
Theorem call_hf_for_analysis_not_an_object (cfg : Config) (w : World)
    (order : gset str → list str) (cv_text s : str) (d : json) :
  configured (HF_TOKEN cfg) = true →
  hf_text_out w = JStr s → hf_decoded w = Some d → is_object d = false →
  call_hf_for_analysis cfg w order cv_text = Raise AttributeError.
Proof.
  intros Hc Ht Hd Ho. unfold call_hf_for_analysis, hf_data.
  rewrite Hc, Ht, Hd. cbn [negb]. by destruct d.
Qed.

Lemma call_hf_for_analysis_not_an_object_witness :
  call_hf_for_analysis hf_key list_reply elements
    (lit "Senior Python developer, 9 years, remote") = Raise AttributeError.
Proof.
  by apply (call_hf_for_analysis_not_an_object hf_key list_reply elements _
              _ _ eq_refl eq_refl eq_refl).
Defined.

(** ** Reading an uploaded CV *)

Lemma lstrip_blank s : all_of is_space s → lstrip s = [].
Proof.
  unfold all_of. induction s as [|c s IH]; [done|]. cbn.
  intros [-> ?]%andb_true_iff. auto.
Qed.

Lemma strip_blank s : all_of is_space s → strip s = [].
Proof. intros H. unfold strip. by rewrite lstrip_blank. Qed.

Lemma join_blank sep parts :
  all_of is_space sep → Forall (all_of is_space) parts →
  all_of is_space (join sep parts).
Proof.
  intros Hsep. induction 1 as [|p parts Hp Hparts IH]; [done|].
  destruct parts as [|q parts]; [done|].
  change (join sep (p :: q :: parts)) with (p ++ sep ++ join sep (q :: parts)).
  rewrite !forallb_app_iff. auto.
Qed.

Lemma extract_outcome (r : result str) :
  (∀ text, r = Ok text → trimmed text) →
  (∀ e, r = Raise e → ∃ detail, e = HTTPException 400 detail) →
  match r ≫= (fun text => if nonempty text then Ok text
                          else Raise (HTTPException 400 NO_TEXT)) with
  | Ok text => text ≠ [] ∧ trimmed text
  | Raise e => ∃ detail, e = HTTPException 400 detail
  end.
Proof.
  intros Hok Hraise. destruct r as [text|e]; cbn [mbind result_bind].
  - destruct text as [|c text]; cbn [nonempty]; [by eexists|].
    split; [done|by apply Hok].
  - by apply Hraise.
Qed.

(** X27.  [upload_cv] either returns a text that is not empty and has no
    white space at either end, or rejects the upload with status 400; it
    raises nothing else. *)
Theorem upload_cv_outcome (file : UploadFile) :
  match upload_cv file with
  | Ok text => text ≠ [] ∧ trimmed text
  | Raise e => ∃ detail, e = HTTPException 400 detail
  end.
Proof.
  unfold upload_cv. apply extract_outcome;
    repeat case_match;
    unfold extract_text_from_pdf, extract_text_from_docx,
           extract_text_from_plain, failed;
    repeat case_match; intros; simplify_eq;
    try apply strip_trimmed; by eexists.
Qed.

(** X28.  A PDF whose pages yield no text, or white space only, is rejected
    with status 400 and the message that no text could be extracted; the
    name of the file is recognised whatever the case of its letters. *)
Theorem upload_cv_blank_pdf (file : UploadFile) (name : str)
    (pages : list (option str)) :
  upload_filename file = Some name →
  ends_with (lit ".pdf") (lower name) = true →
  upload_pdf file = Content pages →
  Forall (fun page => all_of is_space (default [] page)) pages →
  upload_cv file = Raise (HTTPException 400 NO_TEXT).
Proof.
  intros Hname Hpdf Hpages Hblank. unfold upload_cv.
  rewrite Hname. change (default [] (Some name)) with name.
  rewrite str_or_empty, Hpdf.
  unfold extract_text_from_pdf. rewrite Hpages.
  rewrite strip_blank; [done|]. apply join_blank; [done|].
  apply Forall_fmap. eapply Forall_impl; [exact Hblank|].
  intros page. cbn. by rewrite str_or_empty.
Qed.

Lemma upload_cv_blank_pdf_witness :
  upload_cv {| upload_filename := Some (lit "Scan.PDF");
               upload_pdf := Content [None; Some (lit "  "); None];
               upload_docx := Unreadable (lit "not a zip file");
               upload_bytes := Content (lit "%PDF-1.7");
               upload_utf8 := Some (lit "%PDF-1.7") |}
  = Raise (HTTPException 400 NO_TEXT).
Proof.
  apply (upload_cv_blank_pdf _ (lit "Scan.PDF") [None; Some (lit "  "); None]);
    try reflexivity.
  repeat constructor.
Defined.

(** ** The allowed origins *)

Lemma split_on_parts sep s p :
  p ∈ split_on sep s → (sep ∉ p) ∧ ∀ c, c ∈ p → c ∈ s.
Proof.
  revert p. induction s as [|c s IH]; intros p; cbn [split_on].
  { intros ->%list_elem_of_singleton. split; [apply not_elem_of_nil|done]. }
  case_bool_decide as Hc.
  - intros [->|Hp]%elem_of_cons.
    + split; [apply not_elem_of_nil|]. by intros ? ?%elem_of_nil.
    + destruct (IH p Hp) as [? Hin]. split; [done|].
      intros x Hx. right. auto.
  - destruct (split_on sep s) as [|q qs] eqn:E.
    + intros ->%list_elem_of_singleton. split.
      * by intros ->%list_elem_of_singleton.
      * intros x ->%list_elem_of_singleton. by left.
    + intros [->|Hp]%elem_of_cons.
      * destruct (IH q) as [Hq Hin]; [by left|]. split.
        -- intros [->|?]%elem_of_cons; done.
        -- intros x [->|Hx]%elem_of_cons; [by left|]. right. auto.
      * destruct (IH p) as [? Hin]; [by right|]. split; [done|].
        intros x Hx. right. auto.
Qed.

Lemma elem_of_strip c s : c ∈ strip s → c ∈ s.
Proof.
  destruct (strip_split s) as (a & b & E & _). intros H. rewrite E.
  rewrite !elem_of_app. auto.
Qed.

Lemma ALLOW_ORIGINS_entries cors_origins o :
  o ∈ ALLOW_ORIGINS cors_origins → o ≠ [] ∧ trimmed o ∧ (","%char ∉ o).
Proof.
  unfold ALLOW_ORIGINS. cbv zeta.
  intros [Ho Hne]%list_elem_of_In%List.filter_In.
  apply list_elem_of_In, list_elem_of_fmap in Ho as (p & -> & Hp).
  split_and!.
  - by destruct (strip p).
  - apply strip_trimmed.
  - intros Hin%elem_of_strip. by apply split_on_parts in Hp as [Hp _].
Qed.

(** X29.  The list of origins handed to the CORS middleware is never
    empty, and each of its entries is not empty, has no white space at
    either end and holds no comma. *)
Theorem allow_origins_entries (cors_origins : option str) :
  allow_origins cors_origins ≠ [] ∧
  Forall (fun o => o ≠ [] ∧ trimmed o ∧ (","%char ∉ o))
         (allow_origins cors_origins).
Proof.
  unfold allow_origins.
  destruct (ALLOW_ORIGINS cors_origins) as [|o os] eqn:E.
  - split; [done|]. apply Forall_singleton. split_and!; [done|done|].
    by intros [=]%list_elem_of_singleton.
  - split; [done|]. rewrite <-E. apply Forall_forall.
    intros x. apply ALLOW_ORIGINS_entries.
Qed.

(** X30.  When [CORS_ORIGINS] is set but names no origin (it is empty, or
    holds only commas and white space), every origin is allowed. *)
Theorem allow_origins_blank (setting : str) :
  all_of (fun c => is_space c || is_char "," c) setting →
  allow_origins (Some setting) = [lit "*"].
Proof.
  intros Hblank. unfold allow_origins.
  destruct (ALLOW_ORIGINS (Some setting)) as [|o os] eqn:E; [done|].
  assert (o ∈ ALLOW_ORIGINS (Some setting)) as Ho by (rewrite E; by left).
  unfold ALLOW_ORIGINS in Ho. cbv zeta in Ho.
  change (default DEFAULT_CORS_ORIGINS (Some setting)) with setting in Ho.
  apply list_elem_of_In, List.filter_In in Ho as [Ho Hne].
  apply list_elem_of_In, list_elem_of_fmap in Ho as (p & -> & Hp).
  apply split_on_parts in Hp as [Hcomma Hin].
  rewrite strip_blank in Hne; [done|].
  unfold all_of. apply forallb_forall. intros c Hc%list_elem_of_In.
  pose proof (all_of_elem_of _ _ _ Hblank (Hin c Hc)) as Hor.
  apply orb_true_iff in Hor as [?|Hc'%bool_decide_eq_true]; [done|].
  by subst.
Qed.

Lemma allow_origins_blank_witness :
  allow_origins (Some (lit " , ,")) = [lit "*"] ∧
  allow_origins (Some []) = [lit "*"] ∧
  allow_origins None = [lit "http://localhost:5173"].
Proof.
  split; [|split; reflexivity]. by apply allow_origins_blank.
Defined.
